(** * ipa_transcription: the Wiktionary table and lemma core, embedded in Rocq

    A shallow embedding of [wiktionary_parser.py] and [language_parser.py]:
    the lexical store with its merge-on-write edits, the lemma cascade and
    the morpheme traversal of [LanguageParser], and the grid reconstruction,
    label inference and declension assembly of [WiktionaryTable].

    Conventions.
    - Python integers are [Z]; Python strings are [string], the UTF-8
      bytes of the text ([lower] and [title] map the case of the ASCII
      letters only, see [PyStr]).
    - A [dict] is a [gmap]; [sorted(d)] is the merge sort of its keys.
    - A function that can raise returns the state it leaves behind together
      with an [outcome], or an [option] when it has no state.
    - The parser's [language=None] defaulting ([verify_language]) is resolved
      by the caller: every operation below takes the verified language. *)

From Stdlib Require Import ZArith Ascii String List Lia.
From stdpp Require Import gmap strings list fin_maps sorting.

Local Open Scope Z_scope.

(** ** Python string helpers *)

Module PyStr.

Definition code (a : ascii) : N := N_of_ascii a.

Definition is_upper (a : ascii) : bool := ((65 <=? code a) && (code a <=? 90))%N.
Definition is_lower (a : ascii) : bool := ((97 <=? code a) && (code a <=? 122))%N.

Definition to_lower (a : ascii) : ascii :=
  if is_upper a then ascii_of_N (code a + 32) else a.
Definition to_upper (a : ascii) : ascii :=
  if is_lower a then ascii_of_N (code a - 32) else a.

(** [string.punctuation]: the ASCII codes 33-47, 58-64, 91-96, 123-126. *)
Definition is_punctuation (a : ascii) : bool :=
  (((33 <=? code a) && (code a <=? 47)) || ((58 <=? code a) && (code a <=? 64))
   || ((91 <=? code a) && (code a <=? 96)) || ((123 <=? code a) && (code a <=? 126)))%N.

(** [s.lower()] and [s.title()] with the case mapping of ASCII. This is
    what Python 2 computes on a byte string ([str], the type the
    docstrings give a word), where the bytes above 127 are not cased,
    and on a unicode string whose cased letters are ASCII letters. On
    another unicode string Python also maps the cased letters beyond
    ASCII, which are left as they are here. *)
Fixpoint lower (s : string) : string :=
  match s with
  | EmptyString => EmptyString
  | String a s' => String (to_lower a) (lower s')
  end.

(** A cased character is upper-cased when the previous character is
    not cased and lower-cased when it is. *)
Fixpoint title_from (prev_cased : bool) (s : string) : string :=
  match s with
  | EmptyString => EmptyString
  | String a s' =>
      if is_lower a then
        String (if prev_cased then a else to_upper a) (title_from true s')
      else if is_upper a then
        String (if prev_cased then to_lower a else a) (title_from true s')
      else String a (title_from false s')
  end.
Definition title (s : string) : string := title_from false s.

(** [any(p(ch) for ch in s)] *)
Fixpoint any_char (p : ascii -> bool) (s : string) : bool :=
  match s with
  | EmptyString => false
  | String a s' => p a || any_char p s'
  end.

Definition len (s : string) : Z := Z.of_nat (String.length s).

(** [s[-n:]] for [n = len(t)]: the last [n] characters, the whole string
    when it is shorter, and (Python's [s[-0:]]) the whole string when
    [n = 0]. *)
Definition last_chars (n : nat) (s : string) : string :=
  match n with
  | O => s
  | _ => String.substring (String.length s - n) n s
  end.

(** [s[:n]] *)
Definition first_chars (n : nat) (s : string) : string := String.substring 0 n s.

(** [sub in s] *)
Fixpoint contains (sub s : string) : bool :=
  String.prefix sub s ||
  match s with
  | EmptyString => false
  | String _ s' => contains sub s'
  end.

(** [s.replace(" ", "_")] *)
Fixpoint spaces_to_underscores (s : string) : string :=
  match s with
  | EmptyString => EmptyString
  | String a s' =>
      String (if Ascii.eqb a " "%char then "_"%char else a) (spaces_to_underscores s')
  end.

(** [sep.join(l)] *)
Fixpoint join (sep : string) (l : list string) : string :=
  match l with
  | [] => EmptyString
  | [x] => x
  | x :: l' => x +:+ sep +:+ join sep l'
  end.

(** [re.compile("[...]").split(s)] for a character class [p]: the pieces
    between the delimiters, empty pieces included. *)
Fixpoint split_on (p : ascii -> bool) (cur : string) (s : string) : list string :=
  match s with
  | EmptyString => [String.rev cur]
  | String a s' =>
      if p a then String.rev cur :: split_on p EmptyString s'
      else split_on p (String a cur) s'
  end.

(** The string of the given bytes. *)
Definition bytes (l : list N) : string := string_of_list_ascii (map ascii_of_N l).

(** The white space that [strip()] removes from a unicode string, in
    UTF-8: U+0009 to U+000D, U+001C to U+001F, U+0020, U+0085, U+00A0,
    U+1680, U+180E, U+2000 to U+200A, U+2028, U+2029, U+202F, U+205F
    and U+3000. *)
Definition white_space : list string :=
  map bytes
    ([[9]; [10]; [11]; [12]; [13]; [28]; [29]; [30]; [31]; [32];
      [194; 133]; [194; 160]; [225; 154; 128]; [225; 160; 142]]
     ++ map (λ b, [226; 128; b]) [128; 129; 130; 131; 132; 133; 134; 135; 136; 137; 138]
     ++ [[226; 128; 168]; [226; 128; 169]; [226; 128; 175]; [226; 129; 159];
         [227; 128; 128]])%N.

(** [s] without the prefix [p], when it starts with it. *)
Fixpoint drop_prefix (p s : string) : option string :=
  match p, s with
  | EmptyString, _ => Some s
  | String a p', String b s' => if Ascii.eqb a b then drop_prefix p' s' else None
  | String _ _, EmptyString => None
  end.

(** [s] without the first of the strings [seps] that it starts with. *)
Fixpoint drop_first (seps : list string) (s : string) : option string :=
  match seps with
  | [] => None
  | p :: rest =>
      match drop_prefix p s with
      | Some s' => Some s'
      | None => drop_first rest s
      end
  end.

(** [s] without the strings of [seps] at its start; [fuel] bounds
    their number. *)
Fixpoint lstrip_seps (seps : list string) (fuel : nat) (s : string) : string :=
  match fuel with
  | O => s
  | S fuel' =>
      match drop_first seps s with
      | Some s' => lstrip_seps seps fuel' s'
      | None => s
      end
  end.

(** [s.lstrip()] *)
Definition lstrip (s : string) : string := lstrip_seps white_space (String.length s) s.

(** [s.strip()]: the white space at the end is taken from the start of
    the reversed string. *)
Definition strip (s : string) : string :=
  String.rev (lstrip_seps (map String.rev white_space) (String.length s)
                (String.rev (lstrip s))).

End PyStr.

(** ** OrderedSet *)

(** Modelled from the spec: the class [OrderedSet] of the repository's
    [ordered_set] module is not among the sources. The spec describes it as
    "an append-ordered set abstraction used throughout to merge lists while
    removing duplicates and preserving first-seen order": the carrier is the
    list of items in first-seen order; [add] appends an unseen item,
    [update] adds the items of a list in order, [items()] and
    [order_items()] return the ordered items and [items_set] is their set. *)
Module OrderedSet.
Section ordered_set.
Context {A : Type}.

Definition t := list A.

Context `{EqDecision A}.

Definition add (x : A) (s : t) : t :=
  if decide (x ∈ s) then s else s ++ [x].

Fixpoint update (l : list A) (s : t) : t :=
  match l with
  | [] => s
  | x :: l' => update l' (add x s)
  end.

(** [OrderedSet(l)] *)
Definition new (l : list A) : t := update l [].

Definition items (s : t) : list A := s.
Definition order_items (s : t) : list A := s.
Definition in_items_set (x : A) (s : t) : bool := bool_decide (x ∈ s).
Definition size (s : t) : nat := length s.

End ordered_set.
End OrderedSet.

(** ** The lexical store *)

(** An element of a heading's content: a plain string (etymology roots,
    pronunciations, word forms) or a (definition, optional lemma) pair of a
    part-of-speech heading. *)
Inductive Item :=
  | IStr (s : string)
  | IPair (defn : string) (lemma : option string).

#[global] Instance Item_eq_dec : EqDecision Item.
Proof. solve_decision. Defined.

#[global] Instance Item_countable : Countable Item.
Proof.
  refine (inj_countable'
    (λ it, match it with IStr s => inl s | IPair d l => inr (d, l) end)
    (λ x, match x with inl s => IStr s | inr (d, l) => IPair d l end) _).
  by intros [].
Defined.

Abbreviation Content := (list Item).
Abbreviation LangEntry := (gmap string (list Item)).
Abbreviation WordEntry := (gmap string (gmap string (list Item))).
(** [self.wiktionary_entries]: word -> language -> heading -> content. *)
Abbreviation Store := (gmap string (gmap string (gmap string (list Item)))).

Inductive exn := KeyError | IndexError | AttributeError | TypeError | ValueError.

Inductive outcome (A : Type) :=
  | Returned (a : A)
  | Raised (e : exn).
Arguments Returned {A} a.
Arguments Raised {A} e.

Module Parser.

Definition PARTS_OF_SPEECH : list string :=
  ["Noun"; "Verb"; "Adjective"; "Adverb"; "Preposition";
   "Conjunction"; "Interjection"; "Morpheme"; "Pronoun";
   "Phrase"; "Numeral"; "Particle"; "Article"; "Participle";
   "Prefix"; "Suffix"; "Circumfix"; "Interfix"; "Infix"]%string.

(** [self.wiktionary_entries[word][language]], [None] on [KeyError]. *)
Definition lookup_wiktionary_entry (st : Store) (word language : string)
  : option LangEntry :=
  st !! word ≫= λ e, e !! language.

(** [lookup_wiktionary_subentry(word, language)] (no heading). *)
Definition lookup_wiktionary_subentry (st : Store) (word language : string)
  : option LangEntry :=
  match st !! word with
  | None => None
  | Some entry => entry !! language
  end.

(** [lookup_wiktionary_subentry(word, language, heading)]. *)
Definition lookup_wiktionary_heading (st : Store) (word language heading : string)
  : option Content :=
  match lookup_wiktionary_subentry st word language with
  | None => None
  | Some entry => entry !! heading
  end.

(** The loop of [entry_word] over [nuwords]: the first candidate with an
    entry under [language], or [word] when the list is exhausted. *)
Fixpoint entry_word_loop (st : Store) (language word : string)
    (nuwords : list string) : string :=
  match nuwords with
  | [] => word
  | nuword :: rest =>
      match st !! nuword ≫= λ e, e !! language with
      | Some _ => nuword
      | None => entry_word_loop st language word rest
      end
  end.

Definition entry_word (st : Store) (word language : string) : string :=
  entry_word_loop st language word [word; PyStr.lower word; PyStr.title word].

(** [contains_punct] *)
Definition contains_punct (word : string) : bool :=
  PyStr.any_char PyStr.is_punctuation word.

(** [self.wiktionary_entries[word][language][heading] = c]; the callers
    have checked that the entry of [(word, language)] exists. *)
Definition set_heading (st : Store) (word language heading : string)
    (c : Content) : Store :=
  match st !! word with
  | None => st
  | Some we =>
      match we !! language with
      | None => st
      | Some le => <[word := <[language := <[heading := c]> le]> we]> st
      end
  end.

(** [self.wiktionary_entries[word][language].setdefault(heading, list())]:
    the entry is the dict object held by the store, so the default is
    written into the store. *)
Definition setdefault_heading (st : Store) (word language heading : string)
  : Store :=
  match lookup_wiktionary_heading st word language heading with
  | Some _ => st
  | None => set_heading st word language heading []
  end.

(** [edit_wiktionary_entry]: the store it leaves and how it ends.
    [entry.setdefault] on a missing entry is an attribute access on
    [None]; it is outside the [try] block. *)
Definition edit_wiktionary_entry (st : Store) (word language heading : string)
    (content : Content) : Store * outcome unit :=
  match lookup_wiktionary_subentry st word language with
  | None => (st, Raised AttributeError)
  | Some _ =>
      let st1 := setdefault_heading st word language heading in
      match lookup_wiktionary_subentry st1 word language with
      | None => (st1, Returned tt)
      | Some _ =>
          let st2 := setdefault_heading st1 word language heading in
          match lookup_wiktionary_heading st2 word language heading with
          | None => (st2, Raised KeyError)
          | Some entry =>
              (set_heading st2 word language heading
                 (OrderedSet.items (OrderedSet.new (entry ++ content))),
               Returned tt)
          end
      end
  end.

(** *** Lookups and finds *)

Section finds.
(** The page-fetch collaborator: [WiktionaryPage(word, language).entries]
    restricted to [language], the only key [page_entries] fills when a
    language is given; [None] when the page has no such entry. *)
Variable fetch_page : string -> string -> option LangEntry.

(** [add_wiktionary_entry]: the fetched entries are merged into the
    store under the entry word; the result is [entries.get(language,
    entries)], the empty dict when nothing was fetched. *)
Definition add_wiktionary_entry (st : Store) (word language : string)
  : Store * LangEntry :=
  let entries : WordEntry :=
    match fetch_page word language with
    | Some e => {[ language := e ]}
    | None => ∅
    end in
  let word' := entry_word st word language in
  (<[word' := entries ∪ default ∅ (st !! word')]> st,
   default ∅ (entries !! language)).

(** [find_wiktionary_entry] *)
Definition find_wiktionary_entry (st : Store) (word language : string)
  : Store * option LangEntry :=
  match lookup_wiktionary_entry st word language with
  | Some entry => (st, Some entry)
  | None =>
      if contains_punct word then (st, None)
      else let '(st', e) := add_wiktionary_entry st word language in (st', Some e)
  end.

(** The fallback loop of [find_wiktionary_subentry]: the first heading
    of the entry, in the dict's iteration order, that starts with
    [heading]. *)
Fixpoint find_prefixed (heading : string) (sections : list (string * Content))
  : option Content :=
  match sections with
  | [] => None
  | (section, c) :: rest =>
      if String.eqb (PyStr.first_chars (String.length heading) section) heading
      then Some c
      else find_prefixed heading rest
  end.

(** [find_wiktionary_subentry(word, language, heading)] with all three
    arguments given. *)
Definition find_wiktionary_subentry (st : Store) (word language heading : string)
  : Store * outcome (option Content) :=
  if contains_punct word then (st, Returned None)
  else
    match find_wiktionary_entry st word language with
    | (st', None) => (st', Raised AttributeError)
    | (st', Some entry) =>
        match entry !! heading with
        | Some section => (st', Returned (Some section))
        | None => (st', Returned (find_prefixed heading (map_to_list entry)))
        end
    end.

(** [pos_entry[1]] and [pos_entry[0]] on an item: the components of a
    pair, the characters of a string; [None] is [IndexError]. *)
Definition item_get1 (it : Item) : option (option string) :=
  match it with
  | IPair _ l => Some l
  | IStr s => (λ a, Some (String a EmptyString)) <$> String.get 1 s
  end.
Definition item_get0 (it : Item) : option string :=
  match it with
  | IPair d _ => Some d
  | IStr s => (λ a, String a EmptyString) <$> String.get 0 s
  end.

(** [[pos_entry[1] for pos_entry in l if pos_entry[1] is not None]] *)
Fixpoint stems_of (l : list Item) : option (list string) :=
  match l with
  | [] => Some []
  | it :: l' =>
      match item_get1 it with
      | None => None
      | Some o =>
          match stems_of l' with
          | None => None
          | Some rest => Some (match o with Some x => x :: rest | None => rest end)
          end
      end
  end.

(** The loop of [find_stemwords] over the headings of the entry. *)
Fixpoint stemwords_loop (poses : list string) (sections : list (string * Content))
    (stemwords : list string) : list string :=
  match sections with
  | [] => stemwords
  | (heading, pos_entries) :: rest =>
      if bool_decide (heading ∈ poses) then
        match stems_of (tail pos_entries) with
        | None => stemwords_loop poses rest stemwords
        | Some stems => stemwords_loop poses rest (stemwords ++ stems)
        end
      else stemwords_loop poses rest stemwords
  end.

Definition find_stemwords (st : Store) (word language : string)
    (poses : option (list string)) : Store * option (list string) :=
  let poses := default PARTS_OF_SPEECH poses in
  match find_wiktionary_entry st word language with
  | (st', None) => (st', None)
  | (st', Some lang_entries) =>
      (st', Some (stemwords_loop poses (map_to_list lang_entries) []))
  end.

(** The loop of [find_headwords]. *)
Fixpoint headwords_loop (poses : list string) (sections : list (string * Content))
    (headwords : list string) : list string :=
  match sections with
  | [] => headwords
  | (heading, pos_entry) :: rest =>
      if bool_decide (heading ∈ poses) then
        match head pos_entry ≫= item_get0 with
        | None => headwords_loop poses rest headwords
        | Some headword => headwords_loop poses rest (headwords ++ [headword])
        end
      else headwords_loop poses rest headwords
  end.

Definition find_headwords (st : Store) (word language : string)
    (poses : option (list string)) : Store * outcome (list string) :=
  let poses := default PARTS_OF_SPEECH poses in
  match find_wiktionary_entry st word language with
  | (st', None) => (st', Raised TypeError)
  | (st', Some lang_entries) =>
      (st', Returned (headwords_loop poses (map_to_list lang_entries) []))
  end.

End finds.

End Parser.

(** ** LanguageParser: lemmas and morphemes *)

Module LanguageParser.
Import Parser.

(** [lookup_word_inflections] *)
Definition lookup_word_inflections (st : Store) (word language : string)
  : option Content :=
  st !! word ≫= λ e, e !! language ≫= λ le, le !! "Declension"%string.

(** [lookup_word_etymology] *)
Definition lookup_word_etymology (st : Store) (word language : string)
  : option Content :=
  lookup_wiktionary_heading st word language "Etymology".

(** [word_morphemes] *)
Definition word_morphemes (st : Store) (word language : string) : option Content :=
  lookup_word_etymology st (entry_word st word language) language.

Section lemmas.
Variable fetch_page : string -> string -> option LangEntry.
(** [verify_word]: the language-membership filter (alphabet and
    lexicon of the language-metadata collaborator). *)
Variable verify_word : string -> string -> bool.

(** [find_word_inflections] *)
Definition find_word_inflections (st : Store) (word language : string)
  : Store * outcome (option Content) :=
  find_wiktionary_subentry fetch_page st word language "Declension".

Definition verified (language : string) (lemmas : list string) : list string :=
  List.filter (λ lemma, verify_word lemma language) lemmas.

(** [word_lemmas] *)
Definition word_lemmas (st : Store) (word language : string)
    (poses : option (list string)) : Store * outcome (list string) :=
  let lemmas : OrderedSet.t := OrderedSet.new [] in
  if (PyStr.len word =? 0)%Z then (st, Returned (OrderedSet.items lemmas))
  else
    let word := entry_word st word language in
    match lookup_word_inflections st word language with
    | Some _ =>
        (st, Returned (verified language (OrderedSet.items (OrderedSet.add word lemmas))))
    | None =>
        match find_word_inflections st word language with
        | (st1, Raised e) => (st1, Raised e)
        | (st1, Returned (Some _)) =>
            (st1, Returned (verified language (OrderedSet.items (OrderedSet.add word lemmas))))
        | (st1, Returned None) =>
            match find_stemwords fetch_page st1 word language poses with
            | (st2, None) => (st2, Raised TypeError)
            | (st2, Some stemwords) =>
                let lemmas := OrderedSet.update stemwords lemmas in
                if (OrderedSet.size lemmas =? 0)%nat then
                  match find_headwords fetch_page st2 word language poses with
                  | (st3, Raised e) => (st3, Raised e)
                  | (st3, Returned headwords) =>
                      (st3, Returned (verified language
                         (OrderedSet.items (OrderedSet.update headwords lemmas))))
                  end
                else (st2, Returned (verified language (OrderedSet.items lemmas)))
            end
        end
    end.

(** [lemmatize] *)
Definition lemmatize (st : Store) (word language : string)
    (pos : option (list string)) : Store * outcome string :=
  match word_lemmas st word language pos with
  | (st', Raised e) => (st', Raised e)
  | (st', Returned lemmas) => (st', Returned (default word (head lemmas)))
  end.
End lemmas.

(** *** Morphemes *)

(** [len(curr_word)] of an item popped from [todo]. *)
Definition item_len (it : Item) : Z :=
  match it with
  | IStr s => PyStr.len s
  | IPair _ _ => 2
  end.

(** [contains_punct(curr_word)]: [char in word] is a substring test on a
    string and an element test on a pair. *)
Definition item_contains_punct (it : Item) : bool :=
  match it with
  | IStr s => contains_punct s
  | IPair d l =>
      let one (s : string) :=
        match s with
        | String a EmptyString => PyStr.is_punctuation a
        | _ => false
        end in
      one d || from_option one false l
  end.

(** The state of the loop of [all_word_morphemes]. *)
Record MState := { morphemes : list Item; todo : gset Item }.

(** The body of the loop after [curr_word = todo.pop()] left [todo']
    behind. A pair has no [lower], so [entry_word] raises. *)
Definition morph_body (st : Store) (language : string) (curr_word : Item)
    (ms : list Item) (todo' : gset Item) : outcome MState :=
  if negb (item_len curr_word =? 0)%Z
     && negb (OrderedSet.in_items_set curr_word ms)
     && negb (item_contains_punct curr_word)
  then
    let ms1 := OrderedSet.add curr_word ms in
    match curr_word with
    | IPair _ _ => Raised AttributeError
    | IStr w =>
        match word_morphemes st w language with
        | None => Returned {| morphemes := ms1; todo := todo' |}
        | Some wm =>
            Returned {| morphemes := OrderedSet.update wm ms1;
                        todo := todo' ∪ list_to_set wm |}
        end
    end
  else Returned {| morphemes := ms; todo := todo' |}.

Section morphemes.
(** [set.pop()]: which element leaves the set is not specified. *)
Variable pop : gset Item -> option (Item * gset Item).

(** [while len(todo) != 0: ...]; [None] when the fuel runs out. *)
Fixpoint morph_loop (fuel : nat) (st : Store) (language : string) (s : MState)
  : option (outcome (list Item)) :=
  match fuel with
  | O => None
  | S fuel' =>
      match pop (todo s) with
      | None => Some (Returned (OrderedSet.order_items (morphemes s)))
      | Some (curr_word, todo') =>
          match morph_body st language curr_word (morphemes s) todo' with
          | Raised e => Some (Raised e)
          | Returned s' => morph_loop fuel' st language s'
          end
      end
  end.

Definition all_word_morphemes (fuel : nat) (st : Store) (word language : string)
  : option (outcome (list Item)) :=
  morph_loop fuel st language
    {| morphemes := OrderedSet.new []; todo := {[ IStr word ]} |}.
End morphemes.

(** What is known of [set.pop()]: it fails on the empty set only, and
    otherwise removes the element it returns. *)
Definition pop_spec (pop : gset Item -> option (Item * gset Item)) : Prop :=
  ∀ s, match pop s with
       | None => s = ∅
       | Some (x, s') => x ∈ s ∧ s' = s ∖ {[ x ]}
       end.

(** A [pop] for evaluation: the first element in the order of
    [elements]. *)
Definition pop_first (s : gset Item) : option (Item * gset Item) :=
  match elements s with
  | [] => None
  | x :: _ => Some (x, s ∖ {[ x ]})
  end.

End LanguageParser.

(** ** WiktionaryTable: grid reconstruction, label paths, declension *)

Module Table.

(** The em dash marking a "not applicable" cell (UTF-8: E2 80 94). *)
Definition emdash : string :=
  String (ascii_of_N 226) (String (ascii_of_N 128) (String (ascii_of_N 148) EmptyString)).

(** A [span] inside a cell, as [content_text] and [contains_content] see
    it: its first link ([None]: no [a] element; [Some None]: an [a]
    without [href]) and its cleaned text. *)
Record Span := { span_link : option (option string); span_text : string }.

(** A span attribute as [int(cell.get(name, 1))] sees it: absent, a
    value that [int] accepts, with the integer it gives, or a value
    that [int] rejects with [ValueError]. *)
Inductive SpanAttr := NoSpan | IntSpan (n : Z) | BadSpan.

(** What the table code observes on the content of a cell in one state
    of the cell: [find("a")] and its [href], [getText()], the name of
    [contents[0]], [find("p")], and what a call of [cell_text] made in
    this state finds, namely [findAll("span")] after its
    [remove_sublists], with the first link and the [tag_text] of each
    span, and the [tag_text] of the cell. *)
Record View := {
  view_link : option (option string);
  view_getText : string;
  view_first_child : option string;
  view_has_p : bool;
  view_spans : list Span;
  view_clean_text : string
}.

(** A table cell as the markup-tree parser presents it. Each field is one
    of the observations the table code makes on a BeautifulSoup tag:
    [name], the attributes read with [get], and the observations on the
    content of the cell in its present state (see [View]).

    [cell_text] prunes the cell in place: [remove_sublists] decomposes
    the first [sup], [dl], [ul] and [abbr] below the cell, [tag_text]
    does it once more, and [content_text] does it in the spans. The
    name and the attributes of the cell stay; the observations on its
    content may change with every call. [tag_pruned] lists what they
    become: its first element after the next call of [cell_text], its
    second after the call that follows, and so on; after the last one,
    or when the list is empty, a call changes nothing any more (the
    cell holds no such element). *)
Record Tag := {
  tag_name : string;
  attr_rowspan : SpanAttr;
  attr_colspan : SpanAttr;
  attr_text : option string;
  tag_link : option (option string);
  tag_getText : string;
  first_child_name : option string;
  tag_has_p : bool;
  tag_spans : list Span;
  tag_clean_text : string;
  tag_pruned : list View
}.

(** The cell after one call of [cell_text]. *)
Definition pruned (cell : Tag) : Tag :=
  match tag_pruned cell with
  | [] => cell
  | v :: rest =>
      {| tag_name := tag_name cell; attr_rowspan := attr_rowspan cell;
         attr_colspan := attr_colspan cell; attr_text := attr_text cell;
         tag_link := view_link v; tag_getText := view_getText v;
         first_child_name := view_first_child v; tag_has_p := view_has_p v;
         tag_spans := view_spans v; tag_clean_text := view_clean_text v;
         tag_pruned := rest |}
  end.

(** A cell object: the tag, in the state it has when the table is
    built, together with its identity, the position of the cell in the
    table's rows (row, index within the row). Two cells are the same
    reference when their [cell_ref] agree. *)
Record Cell := { cell_ref : nat * nat; cell_tag : Tag }.

(** A [tr] element: whether it carries the class [vsHide], and its
    [td]/[th] cells ([table_cells]). *)
Record Row := { row_hidden : bool; row_cells : list Tag }.

(** [WiktionaryTable]: the language and the [tr] elements of the table. *)
Record WTable := { language : string; table_trs : list Row }.

Abbreviation Coord := (Z * Z)%type.
Abbreviation Grid := (gmap (Z * Z) Cell).

(** [table_rows]: the hidden rows when there are any, else all rows. *)
Definition table_rows (t : WTable) : list Row :=
  match List.filter row_hidden (table_trs t) with
  | [] => table_trs t
  | rows => rows
  end.

(** [int(cell.get(name, 1))]. For a value that [int] rejects the call
    raises and has no value: [span_raises] tells it, the callers that
    can meet such a value test it first, and the integer given here,
    0, is never used. *)
Definition span_raises (a : SpanAttr) : bool :=
  match a with BadSpan => true | _ => false end.
Definition span_value (a : SpanAttr) : Z :=
  match a with NoSpan => 1 | IntSpan n => n | BadSpan => 0 end.

(** [cell_rowspan] and [cell_colspan] *)
Definition cell_rowspan (cell : Tag) : Z := span_value (attr_rowspan cell).
Definition cell_colspan (cell : Tag) : Z := span_value (attr_colspan cell).
Definition rowspan_raises (cell : Tag) : bool := span_raises (attr_rowspan cell).
Definition colspan_raises (cell : Tag) : bool := span_raises (attr_colspan cell).

(** [self.num_rows] *)
Definition num_rows (t : WTable) : Z := Z.of_nat (length (table_rows t)).

(** [count_cols]: the col-spans of the first [tr] of the table, summed.
    The constructor calls it: see [init_raises]. *)
Definition count_cols (t : WTable) : Z :=
  match table_trs t with
  | [] => 0
  | row1 :: _ => foldl (λ n cell, n + cell_colspan cell) 0 (row_cells row1)
  end.

(** [self.num_cols] *)
Definition num_cols (t : WTable) : Z := count_cols t.

(** Whether [__init__] raises [ValueError]: [count_cols] converts the
    col-span of every cell of the first [tr]. A [WTable] stands for a
    table that was constructed. *)
Definition init_raises (t : WTable) : bool :=
  match table_trs t with
  | [] => false
  | row1 :: _ => existsb colspan_raises (row_cells row1)
  end.

(** [self.rows[r]] with the identity of each of its cells. *)
Definition indexed_cells (r : nat) (row : Row) : list Cell :=
  imap (λ k tag, {| cell_ref := (r, k); cell_tag := tag |}) (row_cells row).

Definition rows_cells (t : WTable) : list (list Cell) :=
  imap indexed_cells (table_rows t).

(** *** Cell classification *)

Definition ends_with_language (lang href : string) : bool :=
  String.eqb (PyStr.last_chars (String.length lang) href) lang.

(** [is_header] *)
Definition is_header (lang : string) (cell : Tag) : bool :=
  if String.eqb (tag_name cell) "th" || String.eqb (tag_name cell) "td" then
    match tag_link cell with
    | None => true
    | Some (Some href) =>
        negb (ends_with_language lang href)
        && negb (String.eqb (PyStr.last_chars 9 href) "redlink=1")
    | Some None => false
    end
  else false.

(** [contains_content] on a link observation. *)
Definition link_contains_content (lang : string) (link : option (option string)) : bool :=
  match link with
  | Some (Some href) => ends_with_language lang href
  | _ => false
  end.

Definition contains_content (lang : string) (cell : Tag) : bool :=
  link_contains_content lang (tag_link cell).

(** [is_cell_empty] *)
Definition is_cell_empty (cell : Tag) : bool := String.eqb (tag_getText cell) emdash.

(** [valid_content] *)
Definition valid_content (cell : Tag) : bool :=
  negb (is_cell_empty cell)
  && negb (bool_decide (first_child_name cell = Some "sup"%string))
  && negb (tag_has_p cell).

(** [is_content] *)
Definition is_content (lang : string) (cell : Tag) : bool :=
  if String.eqb (tag_name cell) "td" then valid_content cell
  else if String.eqb (tag_name cell) "th" then contains_content lang cell
  else false.

(** [is_col_empty]: [col.get("text")] reads the attribute named [text].
    The call converts the row-span and raises when [rowspan_raises]. *)
Definition is_col_empty (nrows : Z) (col : Tag) : bool :=
  (nrows <=? cell_rowspan col) && bool_decide (attr_text col = None).

(** [content_text] *)
Definition content_text (lang : string) (spans : list Span) : string :=
  PyStr.join (String (ascii_of_N 10) EmptyString)
    (map span_text (List.filter (λ sp, link_contains_content lang (span_link sp)) spans)).

(** [cell_text] *)
Definition cell_text (lang : string) (cell : Tag) : string :=
  match tag_spans cell with
  | [] => tag_clean_text cell
  | spans => content_text lang spans
  end.

(** The delimiters of [cell_entry]: comma, slash, newline. *)
Definition is_delimiter (a : ascii) : bool :=
  (PyStr.code a =? 44)%N || (PyStr.code a =? 47)%N || (PyStr.code a =? 10)%N.

(** [cell_entry] *)
Definition cell_entry (lang : string) (cell : Tag) : list string :=
  let text := cell_text lang cell in
  if negb (PyStr.len text =? 0) then
    map PyStr.strip (PyStr.split_on is_delimiter EmptyString text)
  else [].

(** *** Grid reconstruction *)

(** [iter(range(n))]: the next value and how many values remain. *)
Record RangeIter := { it_next : Z; it_rem : nat }.

Definition range_iter (n : Z) : RangeIter := {| it_next := 0; it_rem := Z.to_nat n |}.

(** [it.next()]; [None] is [StopIteration]. *)
Definition iter_next (it : RangeIter) : option (Z * RangeIter) :=
  match it_rem it with
  | O => None
  | S k => Some (it_next it, {| it_next := it_next it + 1; it_rem := k |})
  end.

(** [for i in range(1, colspan): try: it.next() except StopIteration: break] *)
Fixpoint iter_advance (n : nat) (it : RangeIter) : RangeIter :=
  match n with
  | O => it
  | S n' =>
      match iter_next it with
      | None => it
      | Some (_, it') => iter_advance n' it'
      end
  end.

(** The loop "skip empty columns": [cell] is replaced by the next cell of
    the row while it is an empty column and the row has cells left. The
    loop ends at a cell whose row-span [int] rejects: [is_col_empty]
    raises there, which [col_body] records. *)
Fixpoint skip_empty_cols (nrows : Z) (cell : Cell) (cells_iter : list Cell)
  : Cell * list Cell :=
  if rowspan_raises (cell_tag cell) then (cell, cells_iter)
  else if is_col_empty nrows (cell_tag cell) then
    match cells_iter with
    | [] => (cell, [])
    | cell' :: rest => skip_empty_cols nrows cell' rest
    end
  else (cell, cells_iter).

(** The outcome of [while coord in table_dict]: whether the loop ended
    normally (its [else] branch runs) or by [break], with the values of
    [r], [c] and of the two iterators. *)
Record Scan := {
  scan_free : bool;
  scan_r : Z;
  scan_c : Z;
  scan_cols : RangeIter;
  scan_rows : RangeIter
}.

(** The loop once [col_iter] is exhausted: it moves down the rows. *)
Fixpoint scan_down (d : Grid) (c r : Z) (cols : RangeIter) (row_next : Z) (row_rem : nat)
  : Scan :=
  if bool_decide (is_Some (d !! (r, c))) then
    match row_rem with
    | O => {| scan_free := false; scan_r := r; scan_c := c; scan_cols := cols;
              scan_rows := {| it_next := row_next; it_rem := O |} |}
    | S k => scan_down d c (r + 1) cols (row_next + 1) k
    end
  else {| scan_free := true; scan_r := r; scan_c := c; scan_cols := cols;
          scan_rows := {| it_next := row_next; it_rem := row_rem |} |}.

(** [while coord in table_dict]: move right while [col_iter] yields,
    then down while [row_iter] yields, else [break]. *)
Fixpoint scan_right (d : Grid) (r c : Z) (col_next : Z) (col_rem : nat) (rows : RangeIter)
  : Scan :=
  if bool_decide (is_Some (d !! (r, c))) then
    match col_rem with
    | S k => scan_right d r (c + 1) (col_next + 1) k rows
    | O => scan_down d c r {| it_next := col_next; it_rem := O |}
             (it_next rows) (it_rem rows)
    end
  else {| scan_free := true; scan_r := r; scan_c := c;
          scan_cols := {| it_next := col_next; it_rem := col_rem |};
          scan_rows := rows |}.

(** [while cs < colspan: table_dict[r + rs, c + cs] = cell; cs += 1];
    [n] is the number of iterations left. *)
Fixpoint fill_cols (d : Grid) (cell : Cell) (row c cs : Z) (n : nat) : Grid :=
  match n with
  | O => d
  | S k => fill_cols (<[(row, c + cs) := cell]> d) cell row c (cs + 1) k
  end.

(** [while rs < rowspan: ...; rs += 1] *)
Fixpoint fill_rows (d : Grid) (cell : Cell) (r c colspan rs : Z) (n : nat) : Grid :=
  match n with
  | O => d
  | S k =>
      let d1 := <[(r + rs, c) := cell]> d in
      let d2 := fill_cols d1 cell (r + rs) c 1 (Z.to_nat (colspan - 1)) in
      fill_rows d2 cell r c colspan (rs + 1) k
  end.

(** The placement of [cell] at [(r, c)] with the clamped spans. *)
Definition place (d : Grid) (cell : Cell) (r c rowspan colspan : Z) : Grid :=
  if negb (colspan =? 1) || negb (rowspan =? 1) then
    fill_rows d cell r c colspan 0 (Z.to_nat rowspan)
  else <[(r, c) := cell]> d.

(** A placement: the origin, the clamped spans, the cell, and the value
    of [num_cols] when the cell was placed. *)
Record Placement := {
  pl_r : Z; pl_c : Z; pl_rowspan : Z; pl_colspan : Z; pl_cell : Cell;
  pl_num_cols : Z
}.

(** The variables of [parse_table] that outlive a row. [placed] is a
    ghost log of the placements made so far, oldest first: the source
    keeps no such log and the loops never read it. [error] records an
    uncaught exception, which ends [parse_table]: the [IndexError] of
    [self.rows[r]], or the [ValueError] of [int] on a span. *)
Record PState := {
  table_dict : Grid;
  cur_num_cols : Z;
  row_iter : RangeIter;
  placed : list Placement;
  error : option exn
}.

(** The variables of the loop over the columns of one row. *)
Record CState := {
  cs_outer : PState;
  cs_r : Z;
  col_iter : RangeIter;
  cells_iter : list Cell
}.

(** The state an uncaught exception leaves. *)
Definition raise (e : exn) (p : PState) : PState :=
  {| table_dict := table_dict p; cur_num_cols := cur_num_cols p;
     row_iter := row_iter p; placed := placed p; error := Some e |}.

(** The body of [for c in col_iter], [c] just yielded. [int] is called
    on the row-span of every cell taken from the row (by
    [is_col_empty]) and on the col-span of every cell that is placed. *)
Definition col_body (nrows : Z) (c : Z) (s : CState) : CState :=
  let p := cs_outer s in
  match cells_iter s with
  | [] => s
  | cell0 :: rest0 =>
      let '(cell, rest) := skip_empty_cols nrows cell0 rest0 in
      if rowspan_raises (cell_tag cell) then
        {| cs_outer := raise ValueError p;
           cs_r := cs_r s; col_iter := col_iter s; cells_iter := rest |}
      else if is_col_empty nrows (cell_tag cell) then
        {| cs_outer := {| table_dict := table_dict p;
                          cur_num_cols := cur_num_cols p - 1;
                          row_iter := row_iter p;
                          placed := placed p;
                          error := error p |};
           cs_r := cs_r s; col_iter := col_iter s; cells_iter := rest |}
      else
        let sc := scan_right (table_dict p) (cs_r s) c
                    (it_next (col_iter s)) (it_rem (col_iter s)) (row_iter p) in
        if scan_free sc then
          if colspan_raises (cell_tag cell) then
            {| cs_outer := raise ValueError p;
               cs_r := scan_r sc; col_iter := scan_cols sc; cells_iter := rest |}
          else
            let rowspan := Z.min (cell_rowspan (cell_tag cell)) nrows in
            let colspan := Z.min (cell_colspan (cell_tag cell)) (cur_num_cols p) in
            {| cs_outer := {| table_dict :=
                                place (table_dict p) cell (scan_r sc) (scan_c sc)
                                  rowspan colspan;
                              cur_num_cols := cur_num_cols p;
                              row_iter := scan_rows sc;
                              placed := placed p ++
                                [{| pl_r := scan_r sc; pl_c := scan_c sc;
                                    pl_rowspan := rowspan; pl_colspan := colspan;
                                    pl_cell := cell;
                                    pl_num_cols := cur_num_cols p |}];
                              error := error p |};
               cs_r := scan_r sc;
               col_iter :=
                 if negb (colspan =? 1) || negb (rowspan =? 1)
                 then iter_advance (Z.to_nat (colspan - 1)) (scan_cols sc)
                 else scan_cols sc;
               cells_iter := rest |}
        else
          {| cs_outer := {| table_dict := table_dict p;
                            cur_num_cols := cur_num_cols p;
                            row_iter := scan_rows sc;
                            placed := placed p;
                            error := error p |};
             cs_r := scan_r sc; col_iter := scan_cols sc; cells_iter := rest |}
  end.

(** [for c in col_iter: ...]; an exception ends the loop. *)
Fixpoint cols_loop (fuel : nat) (nrows : Z) (s : CState) : CState :=
  match fuel with
  | O => s
  | S fuel' =>
      match error (cs_outer s) with
      | Some _ => s
      | None =>
          match iter_next (col_iter s) with
          | None => s
          | Some (c, it') =>
              cols_loop fuel' nrows
                (col_body nrows c
                   {| cs_outer := cs_outer s; cs_r := cs_r s;
                      col_iter := it'; cells_iter := cells_iter s |})
          end
      end
  end.

(** [self.rows[r]]; [None] is [IndexError]. *)
Definition rows_get (rows : list (list Cell)) (r : Z) : option (list Cell) :=
  if r <? 0 then
    if (Z.of_nat (length rows) <? - r) then None
    else rows !! Z.to_nat (Z.of_nat (length rows) + r)
  else rows !! Z.to_nat r.

(** The body of [for r in row_iter], [r] just yielded. *)
Definition row_body (rows : list (list Cell)) (nrows : Z) (r : Z) (p : PState) : PState :=
  match rows_get rows r with
  | None => raise IndexError p
  | Some cells =>
      let cols := range_iter (cur_num_cols p) in
      cs_outer (cols_loop (it_rem cols) nrows
                  {| cs_outer := p; cs_r := r; col_iter := cols; cells_iter := cells |})
  end.

(** [for r in row_iter: ...]; an exception ends the loop. *)
Fixpoint rows_loop (fuel : nat) (rows : list (list Cell)) (nrows : Z) (p : PState) : PState :=
  match fuel with
  | O => p
  | S fuel' =>
      match error p with
      | Some _ => p
      | None =>
          match iter_next (row_iter p) with
          | None => p
          | Some (r, it') =>
              rows_loop fuel' rows nrows
                (row_body rows nrows r
                   {| table_dict := table_dict p; cur_num_cols := cur_num_cols p;
                      row_iter := it'; placed := placed p; error := error p |})
          end
      end
  end.

Definition parse_table_state (t : WTable) : PState :=
  rows_loop (length (table_rows t)) (rows_cells t) (num_rows t)
    {| table_dict := ∅; cur_num_cols := num_cols t;
       row_iter := range_iter (num_rows t); placed := []; error := None |}.

(** [parse_table]: the dictionary it has built when it ends, and the
    exception it ends with, if any; the dictionary is returned when
    there is none. *)
Definition parse_table (t : WTable) : Grid := table_dict (parse_table_state t).
Definition parse_table_error (t : WTable) : option exn := error (parse_table_state t).

(** The placements [parse_table] makes, oldest first. *)
Definition placements (t : WTable) : list Placement := placed (parse_table_state t).

(** The grid obtained by making the given placements in order. *)
Definition replay (l : list Placement) : Grid :=
  foldl (λ d p, place d (pl_cell p) (pl_r p) (pl_c p) (pl_rowspan p) (pl_colspan p)) ∅ l.

(** *** Label paths *)

(** The scans of this part read every cell in the state the grid holds
    it in: they are [cell_rows] and [cell_cols] on cells that the calls
    of [cell_text] made by one scan leave as they are. Module [Live]
    has the scans with the pruning, as [parse_declension] runs them. *)

(** The order of Python tuples of two integers. *)
Definition coord_le (a b : Z * Z) : Prop :=
  a.1 < b.1 ∨ (a.1 = b.1 ∧ a.2 <= b.2).

#[global] Instance coord_le_dec : RelDecision coord_le.
Proof. intros a b. unfold coord_le. apply _. Defined.

(** [sorted(table_dict)] *)
Definition sorted_coords (d : Grid) : list (Z * Z) :=
  merge_sort coord_le (map fst (map_to_list d)).

(** The loop of [cell_rows] over [reversed(prev_rows)]; [max_row] is the
    local [num_rows], the first component of the last sorted key. *)
Fixpoint rows_scan (lang : string) (d : Grid) (max_row : Z) (coords : list (Z * Z))
    (rows : list string) (header_yet : bool) : list string :=
  match coords with
  | [] => rows
  | row_coord :: rest =>
      match d !! row_coord with
      | None => rows
      | Some cell =>
          if is_header lang (cell_tag cell) then
            let text := cell_text lang (cell_tag cell) in
            if (cell_rowspan (cell_tag cell) <=? max_row) && negb (PyStr.len text =? 0) then
              if bool_decide (text ∈ rows)
              then rows_scan lang d max_row rest rows header_yet
              else rows_scan lang d max_row rest (text :: rows) true
            else rows_scan lang d max_row rest rows header_yet
          else if header_yet then rows
          else rows_scan lang d max_row rest rows header_yet
      end
  end.

(** [prev_rows] of [cell_rows] *)
Definition prev_rows (coord : Z * Z) (d : Grid) : list (Z * Z) :=
  List.filter (λ c : Z * Z, (c.1 =? coord.1) && (c.2 <? coord.2)) (sorted_coords d).

(** [cell_rows]; [None] is the [IndexError] of [sorted_dict[-1]] on an
    empty grid. *)
Definition cell_rows (lang : string) (coord : Z * Z) (d : Grid) : option (list string) :=
  match last (sorted_coords d) with
  | None => None
  | Some (max_row, _) => Some (rows_scan lang d max_row (rev (prev_rows coord d)) [] false)
  end.

(** The loop of [cell_cols] over [reversed(prev_cols)]. *)
Fixpoint cols_scan (lang : string) (d : Grid) (ncols : Z) (coords : list (Z * Z))
    (cols : list string) (header_yet : bool) : list string :=
  match coords with
  | [] => cols
  | col_coord :: rest =>
      match d !! col_coord with
      | None => cols
      | Some cell =>
          let text := cell_text lang (cell_tag cell) in
          if is_header lang (cell_tag cell) then
            if (cell_colspan (cell_tag cell) <? ncols) && negb (PyStr.len text =? 0)
            then cols_scan lang d ncols rest (text :: cols) true
            else cols_scan lang d ncols rest cols header_yet
          else if header_yet then cols
          else cols_scan lang d ncols rest cols header_yet
      end
  end.

Definition prev_cols (coord : Z * Z) (d : Grid) : list (Z * Z) :=
  List.filter (λ c : Z * Z, (c.2 =? coord.2) && (c.1 <? coord.1)) (sorted_coords d).

(** [cell_cols] *)
Definition cell_cols (lang : string) (ncols : Z) (coord : Z * Z) (d : Grid) : list string :=
  cols_scan lang d ncols (rev (prev_cols coord d)) [] false.

(** *** Declension assembly *)

Abbreviation Declension := (gmap string (gmap string (list string))).

(** [line_text] of [parse_declension] *)
Definition line_text (line : list string) : string :=
  PyStr.join " > "
    (map (λ l, PyStr.spaces_to_underscores (PyStr.lower l))
       (List.filter (λ l, (0 <? Z.of_nat (length line)) && negb (PyStr.contains emdash l)) line)).

End Table.

(** ** WiktionaryTable with the in-place pruning of cells *)

(** [cell_text] changes the cell it reads, and the grid holds one object
    at every coordinate of a span, so what a cell looks like depends on
    the calls made before. The heap counts, for every cell object that
    was read, the calls of [cell_text] made on it so far. *)
Module Live.
Import Table.

Abbreviation Heap := (gmap (nat * nat) nat).

(** The number of calls of [cell_text] made on a cell. *)
Definition calls (h : Heap) (cell : Cell) : nat := default O (h !! cell_ref cell).

(** The cell in its present state. *)
Definition present (h : Heap) (cell : Cell) : Tag :=
  Nat.iter (calls h cell) pruned (cell_tag cell).

(** [cell_text]: the text of the cell in its present state, and the
    heap after the call. *)
Definition cell_text (lang : string) (h : Heap) (cell : Cell) : string * Heap :=
  (Table.cell_text lang (present h cell), <[cell_ref cell := S (calls h cell)]> h).

(** [cell_entry] *)
Definition cell_entry (lang : string) (h : Heap) (cell : Cell) : list string * Heap :=
  (Table.cell_entry lang (present h cell), (cell_text lang h cell).2).

(** The loop of [cell_rows] over [reversed(prev_rows)]: a cell is
    tested for a header as it is, and read, hence pruned, when it is
    one. *)
Fixpoint rows_scan (lang : string) (d : Grid) (max_row : Z) (coords : list (Z * Z))
    (rows : list string) (header_yet : bool) (h : Heap) : list string * Heap :=
  match coords with
  | [] => (rows, h)
  | row_coord :: rest =>
      match d !! row_coord with
      | None => (rows, h)
      | Some cell =>
          if is_header lang (present h cell) then
            let '(text, h1) := cell_text lang h cell in
            if (cell_rowspan (cell_tag cell) <=? max_row) && negb (PyStr.len text =? 0) then
              if bool_decide (text ∈ rows)
              then rows_scan lang d max_row rest rows header_yet h1
              else rows_scan lang d max_row rest (text :: rows) true h1
            else rows_scan lang d max_row rest rows header_yet h1
          else if header_yet then (rows, h)
          else rows_scan lang d max_row rest rows header_yet h
      end
  end.

(** [cell_rows]; [None] is the [IndexError] of [sorted_dict[-1]] on an
    empty grid. *)
Definition cell_rows (lang : string) (coord : Z * Z) (d : Grid) (h : Heap)
  : option (list string * Heap) :=
  match last (sorted_coords d) with
  | None => None
  | Some (max_row, _) => Some (rows_scan lang d max_row (rev (prev_rows coord d)) [] false h)
  end.

(** The loop of [cell_cols] over [reversed(prev_cols)]: every cell is
    read, hence pruned, before it is tested for a header. *)
Fixpoint cols_scan (lang : string) (d : Grid) (ncols : Z) (coords : list (Z * Z))
    (cols : list string) (header_yet : bool) (h : Heap) : list string * Heap :=
  match coords with
  | [] => (cols, h)
  | col_coord :: rest =>
      match d !! col_coord with
      | None => (cols, h)
      | Some cell =>
          let '(text, h1) := cell_text lang h cell in
          if is_header lang (present h1 cell) then
            if (cell_colspan (cell_tag cell) <? ncols) && negb (PyStr.len text =? 0)
            then cols_scan lang d ncols rest (text :: cols) true h1
            else cols_scan lang d ncols rest cols header_yet h1
          else if header_yet then (cols, h1)
          else cols_scan lang d ncols rest cols header_yet h1
      end
  end.

(** [cell_cols] *)
Definition cell_cols (lang : string) (ncols : Z) (coord : Z * Z) (d : Grid) (h : Heap)
  : list string * Heap :=
  cols_scan lang d ncols (rev (prev_cols coord d)) [] false h.

(** The body of the loop of [parse_declension] for one coordinate:
    the cell is tested for content as it is, then the row path, the
    column path and the entry are read, in this order; [None] is an
    uncaught exception. The spans of the cells of a grid were
    converted by [parse_table], so reading them again raises nothing. *)
Definition declension_step (t : WTable) (coords : Grid) (s : Declension * Heap)
    (coord : Z * Z) : option (Declension * Heap) :=
  let '(declension, h) := s in
  match coords !! coord with
  | None => None
  | Some cell =>
      if is_content (language t) (present h cell)
         && (cell_colspan (cell_tag cell) <=? num_cols t) then
        match cell_rows (language t) coord coords h with
        | None => None
        | Some (row, h1) =>
            let '(col, h2) := cell_cols (language t) (num_cols t) coord coords h1 in
            let row_text := line_text row in
            let col_text := line_text col in
            let '(entry, h3) := cell_entry (language t) h2 cell in
            if (0 <? Z.of_nat (length entry)) && (0 <? PyStr.len col_text) then
              if (0 <? PyStr.len row_text) || (num_rows t - num_cols t =? 1) then
                let by_row := default ∅ (declension !! col_text) in
                let new_entry := default [] (by_row !! row_text) ++ entry in
                Some (<[col_text :=
                        <[row_text := OrderedSet.items (OrderedSet.new new_entry)]> by_row]>
                      declension, h3)
              else Some (declension, h3)
            else Some (declension, h3)
        end
      else Some (declension, h)
  end.

(** [for coord in sorted_coords: ...] *)
Fixpoint declension_loop (t : WTable) (coords : Grid) (s : Declension * Heap)
    (sorted : list (Z * Z)) : option (Declension * Heap) :=
  match sorted with
  | [] => Some s
  | coord :: rest =>
      match declension_step t coords s coord with
      | None => None
      | Some s' => declension_loop t coords s' rest
      end
  end.

(** [parse_declension], on cells that no call of [cell_text] has read
    yet; [None] is an uncaught exception, that of [parse_table]
    included. *)
Definition parse_declension (t : WTable) : option Declension :=
  match parse_table_error t with
  | Some _ => None
  | None =>
      let coords := parse_table t in
      fst <$> declension_loop t coords (∅, ∅) (sorted_coords coords)
  end.

End Live.

(** ** The specification's wording, for comparison with the code *)

Module SpecWording.
Import Parser Table.










(** The rectangle of a placement: the rows from its origin over its
    row-span, the columns over its col-span (one column when the
    col-span is smaller than 1). *)
Definition covers (p : Placement) (k : Z * Z) : Prop :=
  pl_r p <= k.1 < pl_r p + pl_rowspan p
  ∧ pl_c p <= k.2 < pl_c p + Z.max (pl_colspan p) 1.

(** Span replication read on the final grid. *)
Definition span_replication (t : WTable) : Prop :=
  ∀ p i j, p ∈ placements t →
    0 <= i < pl_rowspan p → 0 <= j < pl_colspan p →
    parse_table t !! (pl_r p + i, pl_c p + j) = Some (pl_cell p).



End SpecWording.

(** ** Sample inputs *)

Module Samples.
Import Table.
Local Open Scope string_scope.

(** A span attribute that is absent or holds an integer. *)
Definition span (o : option Z) : SpanAttr := from_option IntSpan NoSpan o.

(** A cell holding a text and at most a link, which no call of
    [cell_text] changes. *)
Definition mk (name : string) (rs cs : option Z) (link : option (option string))
    (text : string) : Tag :=
  {| tag_name := name; attr_rowspan := span rs; attr_colspan := span cs;
     attr_text := None;
     tag_link := link; tag_getText := text; first_child_name := None;
     tag_has_p := false; tag_spans := []; tag_clean_text := text;
     tag_pruned := [] |}.

(** A header cell without link, and a content cell linking to the word's
    Polish entry. *)
Definition th (text : string) : Tag := mk "th" None None None text.
Definition td (text : string) : Tag :=
  mk "td" None None (Some (Some ("/wiki/" +:+ text +:+ "#Polish"))) text.
Definition tr (cells : list Tag) : Row := {| row_hidden := false; row_cells := cells |}.
Definition polish (rows : list Row) : WTable := {| language := "Polish"; table_trs := rows |}.

(** The 3x3 table of the specification. *)
Definition kot : WTable :=
  polish [tr [th ""; th "Singular"; th "Plural"];
          tr [th "Nominative"; td "kot"; td "koty"];
          tr [th "Genitive"; td "kota"; td "kotow"]].

(** B spans rows 0-1 of column 1; C, in row 1, spans columns 0-1. *)
Definition overlapping : WTable :=
  polish [tr [th "A"; mk "th" (Some 2) None None "B"];
          tr [mk "th" None (Some 2) None "C"];
          tr [th "D"; th "E"]].


(** A full-height cell that carries the text "kot". *)
Definition full_height_text : WTable :=
  polish [tr [mk "td" (Some 2) None None "kot"; th "x"];
          tr [th "y"]].


(** A content cell whose text is a lone comma. *)
Definition lone_comma : WTable :=
  polish [tr [th ""; th "Singular"];
          tr [th "Nominative"; mk "td" None None None ","];
          tr [th "x"; th "y"]].

(** Cells and placements of [overlapping] and [overflowing]. *)
Definition cell_B : Cell :=
  {| cell_ref := (0, 1)%nat; cell_tag := mk "th" (Some 2) None None "B" |}.
Definition cell_C : Cell :=
  {| cell_ref := (1, 0)%nat; cell_tag := mk "th" None (Some 2) None "C" |}.
Definition placement_B : Placement :=
  {| pl_r := 0; pl_c := 1; pl_rowspan := 2; pl_colspan := 1;
     pl_cell := cell_B; pl_num_cols := 2 |}.
Definition placement_C : Placement :=
  {| pl_r := 1; pl_c := 0; pl_rowspan := 1; pl_colspan := 2;
     pl_cell := cell_C; pl_num_cols := 2 |}.
Definition cell_D : Cell :=
  {| cell_ref := (1, 1)%nat; cell_tag := mk "th" None (Some 2) None "D" |}.
Definition placement_D : Placement :=
  {| pl_r := 1; pl_c := 1; pl_rowspan := 1; pl_colspan := 2;
     pl_cell := cell_D; pl_num_cols := 2 |}.

(** The declension of [kot]. *)
Definition kot_declension : Declension :=
  {[ "singular" := {[ "nominative" := ["kot"]; "genitive" := ["kota"] ]};
     "plural" := {[ "nominative" := ["koty"]; "genitive" := ["kotow"] ]} ]}.

Definition cat_store : Store :=
  {[ "cat" := {[ "English" := {[ "Noun" := [IPair "cat" None] ]} ]} ]}.

Definition driven_store : Store :=
  {[ "driven" := {[ "English" :=
       {[ "Verb" := [IPair "driven (comparative more driven)" None;
                     IPair "past participle of drive" (Some "drive")] ]} ]} ]}.


(** A two-word etymology cycle. *)
Definition cycle_store : Store :=
  {[ "alpha" := {[ "English" := {[ "Etymology" := [IStr "beta"] ]} ]};
     "beta" := {[ "English" := {[ "Etymology" := [IStr "alpha"] ]} ]} ]}.

Definition no_page (word language : string) : option LangEntry := None.
Definition any_word (word language : string) : bool := true.

End Samples.

(** ** WiktionaryParser: text cleanup and helpers *)

Module Helpers.

(** [add_item]: [lst += [item] * times]; a list repeated a negative
    number of times is empty. *)
Definition add_item {A} (lst : list A) (times : Z) (item : A) : list A :=
  lst ++ replicate (Z.to_nat times) item.

(** [fill_list] *)
Definition fill_list {A} (lst : list A) (limit : Z) (item : A) : list A :=
  add_item lst (limit - Z.of_nat (length lst)) item.

Definition is_open (a : ascii) : bool := Ascii.eqb a "("%char.
Definition is_close (a : ascii) : bool := Ascii.eqb a ")"%char.

(** Whether [paren_pattern], the regular expression [\([^\(]*?\)],
    matches at an opening parenthesis followed by [s]: the lazy class
    stops at the first closing parenthesis, and cannot step over an
    opening one. *)
Fixpoint closes (s : string) : bool :=
  match s with
  | EmptyString => false
  | String a s' =>
      if is_close a then true
      else if is_open a then false
      else closes s'
  end.

(** [paren_pattern.sub(u"", s)]: every match, found from left to right,
    is dropped; [skipping] holds inside a match, up to its closing
    parenthesis. *)
Fixpoint paren_sub_from (skipping : bool) (s : string) : string :=
  match s with
  | EmptyString => EmptyString
  | String a s' =>
      if skipping then
        if is_close a then paren_sub_from false s' else paren_sub_from true s'
      else if is_open a && closes s' then paren_sub_from true s'
      else String a (paren_sub_from false s')
  end.

Definition paren_sub (s : string) : string := paren_sub_from false s.

(** [while last != new: last = new; new = paren_pattern.sub(u"", new)];
    [None] when the fuel runs out. *)
Fixpoint clean_loop (fuel : nat) (last new : string) : option string :=
  match fuel with
  | O => None
  | S fuel' =>
      if String.eqb last new then Some new
      else clean_loop fuel' new (paren_sub new)
  end.

(** [clean_parentheticals] *)
Definition clean_parentheticals (fuel : nat) (s : string) : option string :=
  clean_loop fuel s (paren_sub s).

(** [remove_parens]: [re.sub("\(|\)", "", word)] *)
Fixpoint remove_parens (word : string) : string :=
  match word with
  | EmptyString => EmptyString
  | String a s' =>
      if is_open a || is_close a then remove_parens s'
      else String a (remove_parens s')
  end.

End Helpers.

(** ** WiktionaryPage: the entries of a page *)

Module Page.
Import Parser.
Local Open Scope string_scope.

Definition HEADER_NAMES : list string :=
  (PARTS_OF_SPEECH ++ ["Pronunciation"; "Etymology"; "Declension"])%list.

(** [header.split(u"_", 1)[0]]: the text before the first underscore. *)
Fixpoint before_underscore (s : string) : string :=
  match s with
  | EmptyString => EmptyString
  | String a s' =>
      if Ascii.eqb a "_"%char then EmptyString else String a (before_underscore s')
  end.

(** [desired_header] *)
Definition desired_header (header : string) : bool :=
  bool_decide (before_underscore header ∈ HEADER_NAMES).

(** [rename_header] *)
Definition rename_header (header : string) : string :=
  if String.eqb (PyStr.first_chars 6 header) "Inflec"
     || String.eqb (PyStr.first_chars 6 header) "Conjug"
  then "Declension" else header.

(** The content under a header, as [heading_entry] reads it: what each
    of the four content parsers returns on it. *)
Record Heading := {
  h_etymologies : list string;
  h_ipas : list string;
  h_definitions : list (string * option string);
  h_declension : list string
}.

(** A headline of the page, as [page_entries] reads it: the language
    header above it ([header_lang]) and, when the headline has a parent
    header, the text of that header with the content under it. *)
Record Headline := {
  hl_lang : string;
  hl_parent : option (string * Heading)
}.

(** [heading_entry] *)
Definition heading_entry (content : Heading) (header language : string) : Content :=
  if String.eqb (PyStr.first_chars 4 header) "Etym" then IStr <$> h_etymologies content
  else if String.eqb (PyStr.first_chars 6 header) "Pronun" then IStr <$> h_ipas content
  else if bool_decide (header ∈ PARTS_OF_SPEECH)
    then (λ p : string * option string, IPair p.1 p.2) <$> h_definitions content
  else if String.eqb (PyStr.first_chars 6 header) "Declen" then IStr <$> h_declension content
  else [].

(** The loop of [page_entries] over the headlines; [language] is [None]
    when every language is wanted. *)
Fixpoint page_entries_loop (language : option string) (tags : list Headline)
    (entries : WordEntry) : WordEntry :=
  match tags with
  | [] => entries
  | tag :: rest =>
      let lang := hl_lang tag in
      if String.eqb lang "" then page_entries_loop language rest entries
      else if String.eqb (PyStr.first_chars 10 lang) "Navigation" then entries
      else if bool_decide (language = None ∨ language = Some lang) then
        match hl_parent tag with
        | None => page_entries_loop language rest entries
        | Some (text, heading) =>
            let header_name := rename_header text in
            let entry := heading_entry heading header_name lang in
            if negb (Nat.eqb (length entry) 0) then
              let by_heading : LangEntry := default ∅ (entries !! lang) in
              let subentry := (default [] (by_heading !! header_name) ++ entry)%list in
              page_entries_loop language rest
                (<[lang := <[header_name :=
                     OrderedSet.order_items (OrderedSet.new subentry)]> by_heading]>
                   entries)
            else page_entries_loop language rest entries
        end
      else page_entries_loop language rest entries
  end.

(** [page_entries] on the headlines of a page. *)
Definition page_entries (tags : list Headline) (language : option string) : WordEntry :=
  page_entries_loop language tags ∅.

End Page.

(** ** LanguageParser: parts of speech, uninflection, URLs *)

Module PartsOfSpeech.
Import Parser LanguageParser.

Section poses.
Variable fetch_page : string -> string -> option LangEntry.

(** [word_poses]: the headings of the entry that are parts of speech,
    in the dict's iteration order. *)
Definition word_poses (st : Store) (word language : string)
  : Store * list string :=
  match find_wiktionary_entry fetch_page st word language with
  | (st', Some word_entry) =>
      let poses :=
        List.filter (λ sect, bool_decide (sect ∈ PARTS_OF_SPEECH))
          (map fst (map_to_list word_entry)) in
      (st', OrderedSet.items (OrderedSet.new poses))
  | (st', None) => (st', [])
  end.

(** [word_pos]; [None] is the implicit [return None]. *)
Definition word_pos (st : Store) (word language : string)
  : Store * option string :=
  let '(st', poses) := word_poses st word language in (st', head poses).

(** [words_poses]: the store is threaded through the words. *)
Fixpoint words_poses (st : Store) (words : list string) (language : string)
  : Store * list (list string) :=
  match words with
  | [] => (st, [])
  | word :: rest =>
      let '(st1, poses) := word_poses st word language in
      let '(st2, others) := words_poses st1 rest language in
      (st2, poses :: others)
  end.
End poses.

End PartsOfSpeech.

Module Uninflect.
Import Parser LanguageParser.

(** The loop of [uninflect] over the words of the store, in the dict's
    iteration order: the first word whose declension lists [word]. An
    inflection equals [word] when it is that string; a pair never does. *)
Fixpoint uninflect_loop (st : Store) (word language : string)
    (entries : list (string * WordEntry)) : option string :=
  match entries with
  | [] => None
  | (word_entry, _) :: rest =>
      match lookup_word_inflections st word_entry language with
      | Some inflections =>
          if bool_decide (IStr word ∈ inflections) then Some word_entry
          else uninflect_loop st word language rest
      | None => uninflect_loop st word language rest
      end
  end.

Section uninflect.
Variable fetch_page : string -> string -> option LangEntry.
Variable verify_word : string -> string -> bool.
(** [self.language]: the fallback [self.lemmatize(word)] passes no
    language, so it runs in the parser's own. *)
Variable self_language : string.

(** [uninflect] *)
Definition uninflect (st : Store) (word language : string)
  : Store * outcome string :=
  match uninflect_loop st word language (map_to_list st) with
  | Some word_entry => (st, Returned word_entry)
  | None => lemmatize fetch_page verify_word st word self_language None
  end.
End uninflect.

End Uninflect.

Module Morphemes.
Import Parser LanguageParser.

Section recursive.
Variable st : Store.
(** [self.language]: the recursive calls pass no language. *)
Variable self_language : string.

(** [for morpheme in word_morphemes: submorphemes.update(...)], with
    the recursive call as [recurse]; a morpheme that is a pair has no
    [lower], so its [entry_word] raises. *)
Fixpoint submorphemes_loop (recurse : string -> option (outcome (list Item)))
    (word_morphemes : list Item) (submorphemes : list Item)
  : option (outcome (list Item)) :=
  match word_morphemes with
  | [] => Some (Returned submorphemes)
  | IPair _ _ :: _ => Some (Raised AttributeError)
  | IStr morpheme :: rest =>
      match recurse morpheme with
      | None => None
      | Some (Raised e) => Some (Raised e)
      | Some (Returned sub) =>
          submorphemes_loop recurse rest (OrderedSet.update sub submorphemes)
      end
  end.

(** [recursive_all_word_morphemes]; [None] when the recursion is
    deeper than [depth], the interpreter's "maximum recursion depth
    exceeded". *)
Fixpoint recursive_all_word_morphemes (depth : nat) (word language : string)
  : option (outcome (list Item)) :=
  match depth with
  | O => None
  | S depth' =>
      match word_morphemes st word language with
      | Some wm =>
          submorphemes_loop
            (λ morpheme, recursive_all_word_morphemes depth' morpheme self_language)
            wm (OrderedSet.new wm)
      | None => Some (Returned (OrderedSet.new []))
      end
  end.
End recursive.

End Morphemes.

Module Urls.

(** What [fmt % args] ends with: the text, or one of the two
    [TypeError]s of a wrong number of arguments. [Unsupported] marks a
    directive other than [%s] and [%%]; none occurs in the URL
    templates. *)
Inductive formatted :=
  | Text (s : string)
  | NotEnoughArguments
  | NotAllConverted
  | Unsupported.

(** [fmt % args] for a tuple of strings. *)
Fixpoint format (fmt : string) (args : list string) : formatted :=
  match fmt with
  | EmptyString =>
      match args with
      | [] => Text EmptyString
      | _ => NotAllConverted
      end
  | String a fmt' =>
      if Ascii.eqb a "%"%char then
        match fmt' with
        | String b fmt'' =>
            if Ascii.eqb b "s"%char then
              match args with
              | [] => NotEnoughArguments
              | arg :: args' =>
                  match format fmt'' args' with
                  | Text s => Text (arg +:+ s)
                  | e => e
                  end
              end
            else if Ascii.eqb b "%"%char then
              match format fmt'' args with
              | Text s => Text (String "%"%char s)
              | e => e
              end
            else Unsupported
        | EmptyString => Unsupported
        end
      else
        match format fmt' args with
        | Text s => Text (String a s)
        | e => e
        end
  end.

Local Open Scope string_scope.

Definition WIKI_URL : string := "https://en.wiktionary.org".
Definition END_URL : string := "/w/index.php?title=Category:%s".
Definition BASE_URL : string := WIKI_URL +:+ "/wiki/%s#%s".
Definition IPA_PATH : string := "_terms_with_IPA_pronunciation&from=".
Definition LEMMA_PATH : string := "_lemmas".

(** [word_url]; [language] is [self.language]. *)
Definition word_url (language word : string) : formatted :=
  format BASE_URL [word; language].

(** [lemma_url] *)
Definition lemma_url (language : string) : formatted :=
  format (WIKI_URL +:+ END_URL +:+ LEMMA_PATH) [language].

(** [ipa_url] *)
Definition ipa_url (language : string) : formatted :=
  format (WIKI_URL +:+ END_URL +:+ IPA_PATH) [language; language].

End Urls.

(** ** Notions used by the statements and invariants below *)

Module Notions.
Import Table.

(** A placement puts a cell of the table's rows at a column that is not
    negative and at a row that is not above the cell's own. *)
Definition from_rows (t : WTable) (pl : Placement) : Prop :=
  In (pl_cell pl) (concat (rows_cells t))
  ∧ 0 <= pl_c pl
  ∧ Z.of_nat (cell_ref (pl_cell pl)).1 <= pl_r pl.

(** A regular table: every row has as many cells as the table has
    columns, and no cell has a row-span or col-span other than 1 or is
    an empty column. *)
Definition regular (t : WTable) : Prop :=
  Forall (λ row,
      Z.of_nat (length (row_cells row)) = num_cols t
      ∧ Forall (λ tag, cell_rowspan tag = 1 ∧ cell_colspan tag = 1
                       ∧ is_col_empty (num_rows t) tag = false)
          (row_cells row))
    (table_rows t).



(** The cell at a row and an index of the table's rows. *)
Definition cell_at (t : WTable) (k : Z * Z) : option Cell :=
  if decide (0 <= k.1 ∧ 0 <= k.2)
  then rows_cells t !! Z.to_nat k.1 ≫= λ cells, cells !! Z.to_nat k.2
  else None.

(** Whether the column-path scan collects a cell, for [ncols]
    columns: a header narrower than the table whose text is not
    empty. *)
Definition col_qualifies (lang : string) (ncols : Z) (cell : Cell) : bool :=
  is_header lang (cell_tag cell)
  && (cell_colspan (cell_tag cell) <? ncols)
  && negb (PyStr.len (cell_text lang (cell_tag cell)) =? 0).


(** A declension holds the forms of an entry under a column and a row
    key, in a list without duplicates. *)
Definition holds_forms (declension : Declension) (col row : string)
    (entry : list string) : Prop :=
  ∃ by_row forms,
    declension !! col = Some by_row ∧ by_row !! row = Some forms
    ∧ NoDup forms ∧ ∀ form, form ∈ entry → form ∈ forms.

(** A table with a header row and a header column: it is regular and
    has at least two columns; apart from the corner, the cells of the
    first row and of the first column are headers whose text makes a
    label; and no other cell is a header. *)
Definition header_table (t : WTable) : Prop :=
  regular t
  ∧ 2 <= num_cols t
  ∧ ∀ (r c : Z) (cell : Cell), cell_at t (r, c) = Some cell →
      let labelled :=
        is_header (language t) (cell_tag cell) = true
        ∧ line_text [cell_text (language t) (cell_tag cell)] ≠ EmptyString in
      (r = 0 → 1 <= c → labelled)
      ∧ (c = 0 → 1 <= r → labelled)
      ∧ (1 <= r → 1 <= c → is_header (language t) (cell_tag cell) = false).

(** *** What the declension records *)

(** The heap [parse_declension] has built when its loop reaches a
    coordinate of the grid. *)
Definition heap_at (t : WTable) (coords : Grid) (coord : Z * Z) (h : Live.Heap) : Prop :=
  ∃ before after declension,
    sorted_coords coords = before ++ coord :: after
    ∧ Live.declension_loop t coords (∅, ∅) before = Some (declension, h).

(** The turn of the loop at a coordinate, entered with the heap [h],
    records an entry under a column key and a row key: the cell is a
    content cell as it is then, no wider than the table; its row path
    and its column path, read in this order, give the keys; and its
    text, read after them, is not empty and splits into the entry. *)
Definition records (t : WTable) (coords : Grid) (h : Live.Heap) (coord : Z * Z)
    (col row : string) (entry : list string) : Prop :=
  ∃ cell path h1 cols h2,
    coords !! coord = Some cell
    ∧ is_content (language t) (Live.present h cell) = true
    ∧ cell_colspan (cell_tag cell) <= num_cols t
    ∧ Live.cell_rows (language t) coord coords h = Some (path, h1)
    ∧ Live.cell_cols (language t) (num_cols t) coord coords h1 = (cols, h2)
    ∧ row = line_text path
    ∧ col = line_text cols
    ∧ Table.cell_text (language t) (Live.present h2 cell) ≠ EmptyString
    ∧ entry = Table.cell_entry (language t) (Live.present h2 cell)
    ∧ entry ≠ [].

(** What is known of a recorded pair: its keys, and a turn of the loop
    that recorded an entry under them, all of whose forms are among
    the recorded forms. *)
Definition recorded (t : WTable) (coords : Grid) (col row : string)
    (forms : list string) : Prop :=
  col ≠ EmptyString
  ∧ (row ≠ EmptyString ∨ num_rows t - num_cols t = 1)
  ∧ ∃ coord h entry,
      heap_at t coords coord h
      ∧ records t coords h coord col row entry
      ∧ ∀ form, form ∈ entry → form ∈ forms.

Definition all_recorded (t : WTable) (coords : Grid) (declension : Declension) : Prop :=
  ∀ col by_row row forms,
    declension !! col = Some by_row → by_row !! row = Some forms →
    recorded t coords col row forms.

(** A cell that no call of [cell_text] changes, and a table and a grid
    of such cells: they hold no [sup], [dl], [ul] or [abbr] element. *)
Definition stable_cell (cell : Tag) : Prop := tag_pruned cell = [].
Definition stable (t : WTable) : Prop :=
  Forall (λ row, Forall stable_cell (row_cells row)) (table_rows t).
Definition stable_grid (d : Grid) : Prop :=
  ∀ k cell, d !! k = Some cell → stable_cell (cell_tag cell).

(** No span attribute of the cells of the table's rows is rejected by
    [int]. *)
Definition integer_spans (t : WTable) : Prop :=
  Forall (λ row, Forall (λ tag, rowspan_raises tag = false ∧ colspan_raises tag = false)
                   (row_cells row))
    (table_rows t).

(** The heading names [heading_entry] gives content to. *)
Definition parsed_heading (name : string) : Prop :=
  PyStr.first_chars 4 name = "Etym"%string
  ∨ PyStr.first_chars 6 name = "Pronun"%string
  ∨ name ∈ Parser.PARTS_OF_SPEECH
  ∨ PyStr.first_chars 6 name = "Declen"%string.

(** Every entry of a page's dictionary is under one of the wanted
    languages and under a parsed heading, and it is a non-empty list
    without duplicates. *)
Definition well_formed_entries (language : option string) (entries : WordEntry) : Prop :=
  ∀ lang by_heading, entries !! lang = Some by_heading →
    (∀ l, language = Some l → lang = l)
    ∧ ∀ name content, by_heading !! name = Some content →
        parsed_heading name ∧ content ≠ [] ∧ NoDup content.

End Notions.

(** ** More sample inputs *)

Module Examples.
Import Table.
Local Open Scope string_scope.

(** A page source that knows one Polish noun. *)
Definition kot_page (word language : string) : option LangEntry :=
  if String.eqb word "kot" && String.eqb language "Polish"
  then Some {[ "Noun" := [IPair "kot" None] ]}
  else None.

(** A store with the declension of one Polish noun. *)
Definition kot_store : Store :=
  {[ "kot" := {[ "Polish" := {[ "Declension" := [IStr "kot"; IStr "kota"] ]} ]} ]}.

(** A store whose Polish entry has a numbered etymology heading. *)
Definition numbered_store : Store :=
  {[ "kot" := {[ "Polish" := {[ "Etymology 1" := [IStr "kotu"] ]} ]} ]}.

(** The headlines of a page with an English and a Polish noun, and a
    headline of the navigation menu. *)
Definition noun (lang word : string) : Page.Headline :=
  {| Page.hl_lang := lang;
     Page.hl_parent :=
       Some ("Noun",
             {| Page.h_etymologies := []; Page.h_ipas := [];
                Page.h_definitions := [(word, None)]; Page.h_declension := [] |}) |}.

Definition kot_headlines : list Page.Headline :=
  [noun "English" "cat"; noun "Polish" "kot"].

Definition navigation : Page.Headline :=
  {| Page.hl_lang := "Navigation menu"; Page.hl_parent := None |}.

(** A word stored under its title-case form only. *)
Definition polska_store : Store :=
  {[ "Polska" := {[ "Polish" := {[ "Etymology" := [IStr "Polak"] ]} ]} ]}.

(** A two-word etymology cycle through a hyphenated morpheme. *)
Definition affix_cycle_store : Store :=
  {[ "un-" := {[ "English" := {[ "Etymology" := [IStr "on"] ]} ]};
     "on" := {[ "English" := {[ "Etymology" := [IStr "un-"] ]} ]} ]}.






(** A cell that starts with a superscript: <td rowspan="2"><sup>1</sup>kot</td>.
    The first call of [cell_text] removes the superscript. *)
Definition td_sup : Tag :=
  {| tag_name := "td"; attr_rowspan := IntSpan 2; attr_colspan := NoSpan;
     attr_text := None;
     tag_link := None; tag_getText := "1kot"; first_child_name := Some "sup";
     tag_has_p := false; tag_spans := []; tag_clean_text := "kot";
     tag_pruned := [{| view_link := None; view_getText := "kot";
                       view_first_child := None; view_has_p := false;
                       view_spans := []; view_clean_text := "kot" |}] |}.

(** The cell with the superscript spans the rows of the nominative and
    of the genitive. *)
Definition sup_table : WTable :=
  Samples.polish
    [Samples.tr [Samples.th ""; Samples.th "Singular"; Samples.th "Plural"];
     Samples.tr [Samples.th "Nominative"; td_sup; Samples.td "koty"];
     Samples.tr [Samples.th "Genitive"; Samples.td "kotow"]].


End Examples.

(** ** Invariants and auxiliary notions of the proofs *)

Module Invariants.
Import Parser LanguageParser Table SpecWording Notions.



(** The tokens of [todo] that are not morphemes yet. *)
Definition unvisited (s : MState) : gset Item :=
  todo s ∖ list_to_set (morphemes s).

#[global] Instance covers_dec p k : Decision (covers p k).
Proof. unfold covers. apply _. Defined.

(** The value a range iterator ends at. *)
Definition iter_sum (it : RangeIter) : Z := it_next it + Z.of_nat (it_rem it).

(** The states after [col_iter.next()] and [row_iter.next()]. *)
Definition set_col_iter (s : CState) (it : RangeIter) : CState :=
  {| cs_outer := cs_outer s; cs_r := cs_r s; col_iter := it; cells_iter := cells_iter s |}.

Definition set_row_iter (p : PState) (it : RangeIter) : PState :=
  {| table_dict := table_dict p; cur_num_cols := cur_num_cols p;
     row_iter := it; placed := placed p; error := error p |}.

(** What one turn of the column loop does to the outer state: nothing,
    one column less, iterators moved, one placement, or the
    [ValueError] of a span that [int] rejects. *)
Inductive col_effect (nrows : Z) (p : PState) : PState → Prop :=
  | effect_none : col_effect nrows p p
  | effect_empty_col :
      col_effect nrows p
        {| table_dict := table_dict p; cur_num_cols := cur_num_cols p - 1;
           row_iter := row_iter p; placed := placed p; error := error p |}
  | effect_break it :
      col_effect nrows p
        {| table_dict := table_dict p; cur_num_cols := cur_num_cols p;
           row_iter := it; placed := placed p; error := error p |}
  | effect_place it pl :
      table_dict p !! (pl_r pl, pl_c pl) = None →
      pl_rowspan pl = Z.min (cell_rowspan (cell_tag (pl_cell pl))) nrows →
      pl_colspan pl = Z.min (cell_colspan (cell_tag (pl_cell pl))) (cur_num_cols p) →
      pl_num_cols pl = cur_num_cols p →
      is_col_empty nrows (cell_tag (pl_cell pl)) = false →
      rowspan_raises (cell_tag (pl_cell pl)) = false →
      colspan_raises (cell_tag (pl_cell pl)) = false →
      col_effect nrows p
        {| table_dict := place (table_dict p) (pl_cell pl) (pl_r pl) (pl_c pl)
                           (pl_rowspan pl) (pl_colspan pl);
           cur_num_cols := cur_num_cols p;
           row_iter := it; placed := placed p ++ [pl]; error := error p |}
  | effect_raise : col_effect nrows p (raise ValueError p).

(** The spans of a placement are the cell's spans clamped to the number
    of rows of the table and to the number of columns in force, which is
    at most the number of columns of the table; the origin had no entry;
    and the cell is not an empty column. *)
Definition well_placed (t : WTable) (pl : Placement) : Prop :=
  pl_rowspan pl = Z.min (cell_rowspan (cell_tag (pl_cell pl))) (num_rows t)
  ∧ pl_colspan pl = Z.min (cell_colspan (cell_tag (pl_cell pl))) (pl_num_cols pl)
  ∧ pl_num_cols pl <= num_cols t
  ∧ is_col_empty (num_rows t) (cell_tag (pl_cell pl)) = false.

#[global] Instance coord_le_trans : Transitive coord_le.
Proof. intros a b c. unfold coord_le. lia. Qed.

#[global] Instance coord_le_total : Total coord_le.
Proof. intros a b. unfold coord_le. destruct a, b; simpl. lia. Qed.

End Invariants.

(** ** Facts about OrderedSet *)

Module OrderedSetFacts.
Section facts.
Context {A : Type} `{EqDecision A}.
Implicit Types (l s : list A) (x : A).

Lemma elem_of_add x y s : x ∈ OrderedSet.add y s ↔ x = y ∨ x ∈ s.
Proof.
  unfold OrderedSet.add. case_decide.
  - split; [auto|]. intros [->|]; done.
  - rewrite elem_of_app, list_elem_of_singleton. tauto.
Qed.

Lemma NoDup_add y s : NoDup s → NoDup (OrderedSet.add y s).
Proof.
  intros Hs. unfold OrderedSet.add. case_decide; [done|].
  apply NoDup_app. split_and!; [done| |apply NoDup_singleton].
  intros x Hx ->%list_elem_of_singleton. done.
Qed.

Lemma elem_of_update x l s : x ∈ OrderedSet.update l s ↔ x ∈ l ∨ x ∈ s.
Proof.
  revert s. induction l as [|y l IH]; intros s; simpl.
  - rewrite elem_of_nil. tauto.
  - rewrite IH, elem_of_add, elem_of_cons. tauto.
Qed.

Lemma NoDup_update l s : NoDup s → NoDup (OrderedSet.update l s).
Proof. revert s. induction l; simpl; auto using NoDup_add. Qed.

Lemma update_app l1 l2 s :
  OrderedSet.update (l1 ++ l2) s = OrderedSet.update l2 (OrderedSet.update l1 s).
Proof. revert s. induction l1; simpl; auto. Qed.

(** Items already present leave the set as it is. *)
Lemma update_subseteq l s : (∀ x, x ∈ l → x ∈ s) → OrderedSet.update l s = s.
Proof.
  revert s. induction l as [|y l IH]; intros s Hl; simpl; [done|].
  unfold OrderedSet.add. rewrite decide_True by (apply Hl; left).
  apply IH. intros x Hx. apply Hl. by right.
Qed.

(** Distinct unseen items are appended in order. *)
Lemma update_NoDup_app l s : NoDup (s ++ l) → OrderedSet.update l s = s ++ l.
Proof.
  revert s. induction l as [|y l IH]; intros s Hnd; simpl.
  - by rewrite app_nil_r.
  - unfold OrderedSet.add. rewrite decide_False.
    + rewrite IH; rewrite <- app_assoc; done.
    + apply NoDup_app in Hnd as (_ & Hd & _). intros Hy. apply (Hd y Hy). left.
Qed.

Lemma new_NoDup_id l : NoDup l → OrderedSet.new l = l.
Proof. intros. unfold OrderedSet.new. by rewrite update_NoDup_app. Qed.

Lemma NoDup_new l : NoDup (OrderedSet.new l).
Proof. apply NoDup_update, NoDup_nil_2. Qed.

Lemma elem_of_new x l : x ∈ OrderedSet.new l ↔ x ∈ l.
Proof. unfold OrderedSet.new. rewrite elem_of_update, elem_of_nil. tauto. Qed.

Lemma update_nil_inv l s : OrderedSet.update l s = [] → l = [] ∧ s = [].
Proof.
  destruct l as [|y l]; simpl; [done|]. intros Hu.
  assert (y ∈ OrderedSet.update l (OrderedSet.add y s)) as Hy.
  { apply elem_of_update. right. apply elem_of_add. by left. }
  rewrite Hu in Hy. by apply elem_of_nil in Hy.
Qed.

(** Merging the same content a second time changes nothing. *)
Lemma new_absorb (e c : list A) :
  OrderedSet.new (OrderedSet.new (e ++ c) ++ c) = OrderedSet.new (e ++ c).
Proof.
  unfold OrderedSet.new at 1. rewrite update_app.
  fold (OrderedSet.new (OrderedSet.new (e ++ c))).
  rewrite (new_NoDup_id _ (NoDup_new _)).
  apply update_subseteq. intros x Hx. apply elem_of_new, elem_of_app. by right.
Qed.
End facts.
End OrderedSetFacts.

(** ** The lexical store: entry words and merges *)

Module StoreFacts.
Import Parser OrderedSetFacts.

Lemma lookup_entry_subentry (st : Store) word language :
  lookup_wiktionary_entry st word language = lookup_wiktionary_subentry st word language.
Proof. unfold lookup_wiktionary_entry, lookup_wiktionary_subentry. by destruct (st !! word). Qed.

Lemma entry_word_loop_hit (st : Store) language word (before after : list string) v :
  (∀ u, u ∈ before → lookup_wiktionary_entry st u language = None) →
  is_Some (lookup_wiktionary_entry st v language) →
  entry_word_loop st language word (before ++ v :: after) = v.
Proof.
  intros Hb [e He]. induction before as [|u before IH]; simpl.
  - unfold lookup_wiktionary_entry in He. by rewrite He.
  - pose proof (Hb u ltac:(left)) as Hu. unfold lookup_wiktionary_entry in Hu.
    rewrite Hu. apply IH. intros u' Hu'. apply Hb. by right.
Qed.

Lemma entry_word_loop_miss (st : Store) language word (nuwords : list string) :
  (∀ u, u ∈ nuwords → lookup_wiktionary_entry st u language = None) →
  entry_word_loop st language word nuwords = word.
Proof.
  induction nuwords as [|u nuwords IH]; intros Hn; simpl; [done|].
  pose proof (Hn u ltac:(left)) as Hu. unfold lookup_wiktionary_entry in Hu.
  rewrite Hu. apply IH. intros u' Hu'. apply Hn. by right.
Qed.

(** C10, as the code has it. [entry_word] returns the first of [word],
    [word.lower()], [word.title()] that has an entry under the language
    (every variant before it having none), and [word] itself when none
    of the three has one. The lookups do not go through it: for a word
    that is not a key of the store, [lookup_wiktionary_entry] and
    [lookup_wiktionary_subentry] return nothing and
    [find_wiktionary_entry] returns the page it fetches for the word as
    given (a word without punctuation), whatever is stored under the
    other capitalizations. A reader that passes the word through
    [entry_word] first, as [word_morphemes] does, reads the entry of
    the first variant that has one. *)
Theorem entry_word_first_variant (st : Store) (word language : string) :
  let variants := [word; PyStr.lower word; PyStr.title word] in
  (∀ before v after,
      variants = before ++ v :: after →
      (∀ u, u ∈ before → lookup_wiktionary_entry st u language = None) →
      is_Some (lookup_wiktionary_entry st v language) →
      entry_word st word language = v
      ∧ LanguageParser.word_morphemes st word language
        = lookup_wiktionary_heading st v language "Etymology")
  ∧ ((∀ u, u ∈ variants → lookup_wiktionary_entry st u language = None) →
      entry_word st word language = word)
  ∧ (st !! word = None →
      lookup_wiktionary_entry st word language = None
      ∧ lookup_wiktionary_subentry st word language = None
      ∧ ∀ fetch_page,
          contains_punct word = false →
          (find_wiktionary_entry fetch_page st word language).2
          = Some (default ∅ (fetch_page word language))).
Proof.
  intros variants. split_and!.
  - intros before v after Hv Hb Hs.
    assert (entry_word st word language = v) as Hw.
    { unfold entry_word. fold variants. rewrite Hv. by apply entry_word_loop_hit. }
    split; [done|].
    unfold LanguageParser.word_morphemes, LanguageParser.lookup_word_etymology.
    by rewrite Hw.
  - intros Hn. by apply entry_word_loop_miss.
  - intros Hmiss.
    assert (lookup_wiktionary_entry st word language = None) as Hl.
    { unfold lookup_wiktionary_entry. by rewrite Hmiss. }
    split_and!; [done|by rewrite <- lookup_entry_subentry|].
    intros fetch_page Hp. unfold find_wiktionary_entry. rewrite Hl, Hp.
    unfold add_wiktionary_entry. simpl.
    destruct (fetch_page word language); simpl; [|done].
    by rewrite lookup_singleton_eq.
Qed.

Lemma entry_word_first_variant_witness :
  (entry_word Examples.polska_store "POLSKA" "Polish" = "Polska"%string
   ∧ LanguageParser.word_morphemes Examples.polska_store "POLSKA" "Polish"
     = lookup_wiktionary_heading Examples.polska_store "Polska" "Polish" "Etymology")
  ∧ entry_word Samples.cat_store "dog" "English" = "dog"%string
  ∧ lookup_wiktionary_entry Examples.polska_store "POLSKA" "Polish" = None.
Proof.
  split; [|split].
  - apply (proj1 (entry_word_first_variant Examples.polska_store "POLSKA" "Polish")
             ["POLSKA"%string; "polska"%string] "Polska"%string []).
    + reflexivity.
    + intros u Hu. repeat (apply elem_of_cons in Hu as [->|Hu]; [reflexivity|]).
      by apply elem_of_nil in Hu.
    + eexists. reflexivity.
  - apply (proj1 (proj2 (entry_word_first_variant Samples.cat_store "dog" "English"))).
    intros u Hu. repeat (apply elem_of_cons in Hu as [->|Hu]; [reflexivity|]).
    by apply elem_of_nil in Hu.
  - apply (proj2 (proj2 (entry_word_first_variant Examples.polska_store
                           "POLSKA" "Polish"))).
    reflexivity.
Defined.

(** C10, as stated, fails on its conclusion: the lookups do not retry
    the variants. The store holds "cat"; [entry_word] maps "CAT" to it,
    but a lookup of "CAT" finds nothing, and a find of "CAT" fetches
    the page of "CAT" (here a page without English entry) instead of
    returning the stored entry. *)
Lemma lookup_does_not_retry_variants :
  entry_word Samples.cat_store "CAT" "English" = "cat"%string
  ∧ lookup_wiktionary_entry Samples.cat_store "cat" "English"
    = Some {[ "Noun"%string := [IPair "cat" None] ]}
  ∧ lookup_wiktionary_entry Samples.cat_store "CAT" "English" = None
  ∧ lookup_wiktionary_subentry Samples.cat_store "CAT" "English" = None
  ∧ (find_wiktionary_entry Samples.no_page Samples.cat_store "CAT" "English").2
    = Some ∅.
Proof. split_and!; reflexivity. Qed.

(** *** Writes *)

Lemma lookup_subentry_set_heading (st : Store) word language heading c le :
  lookup_wiktionary_subentry st word language = Some le →
  lookup_wiktionary_subentry (set_heading st word language heading c) word language
  = Some (<[heading := c]> le).
Proof.
  unfold lookup_wiktionary_subentry, set_heading.
  destruct (st !! word) as [we|] eqn:Hw; [|done]. intros Hl. rewrite Hl.
  by rewrite lookup_insert_eq, lookup_insert_eq.
Qed.

Lemma lookup_heading_set_heading (st : Store) word language heading c le :
  lookup_wiktionary_subentry st word language = Some le →
  lookup_wiktionary_heading (set_heading st word language heading c) word language heading
  = Some c.
Proof.
  intros Hl. unfold lookup_wiktionary_heading.
  rewrite (lookup_subentry_set_heading _ _ _ _ _ _ Hl). apply lookup_insert_eq.
Qed.

Lemma set_heading_twice (st : Store) word language heading c c' :
  set_heading (set_heading st word language heading c) word language heading c'
  = set_heading st word language heading c'.
Proof.
  unfold set_heading at 2 3.
  destruct (st !! word) as [we|] eqn:Hw.
  - destruct (we !! language) as [le|] eqn:Hl.
    + unfold set_heading. rewrite !lookup_insert_eq.
      by rewrite !insert_insert_eq.
    + unfold set_heading. by rewrite Hw, Hl.
  - unfold set_heading. by rewrite Hw.
Qed.

Lemma set_heading_same (st : Store) word language heading c :
  lookup_wiktionary_heading st word language heading = Some c →
  set_heading st word language heading c = st.
Proof.
  unfold lookup_wiktionary_heading, lookup_wiktionary_subentry, set_heading.
  destruct (st !! word) as [we|] eqn:Hw; [|done].
  destruct (we !! language) as [le|] eqn:Hl; [|done]. intros Hh.
  by rewrite (insert_id le), (insert_id we), (insert_id st).
Qed.

Lemma setdefault_heading_existing (st : Store) word language heading le :
  lookup_wiktionary_subentry st word language = Some le →
  setdefault_heading st word language heading
  = set_heading st word language heading (default [] (le !! heading)).
Proof.
  intros Hl. unfold setdefault_heading.
  destruct (lookup_wiktionary_heading st word language heading) as [c|] eqn:Hh.
  - symmetry. apply set_heading_same.
    unfold lookup_wiktionary_heading in *. rewrite Hl in *. by rewrite Hh.
  - unfold lookup_wiktionary_heading in Hh. rewrite Hl in Hh. by rewrite Hh.
Qed.

(** What [edit_wiktionary_entry] does on an existing entry. *)
Lemma edit_existing (st : Store) word language heading content le :
  lookup_wiktionary_subentry st word language = Some le →
  edit_wiktionary_entry st word language heading content
  = (set_heading st word language heading
       (OrderedSet.new (default [] (le !! heading) ++ content)),
     Returned tt).
Proof.
  intros Hl. unfold edit_wiktionary_entry. rewrite Hl.
  rewrite (setdefault_heading_existing _ _ _ _ _ Hl).
  pose proof (lookup_subentry_set_heading _ _ _ heading
                (default [] (le !! heading)) _ Hl) as Hl1.
  rewrite Hl1. rewrite (setdefault_heading_existing _ _ _ _ _ Hl1).
  rewrite lookup_insert_eq. simpl. rewrite set_heading_twice.
  rewrite (lookup_heading_set_heading _ _ _ _ _ _ Hl).
  by rewrite set_heading_twice.
Qed.

Lemma edit_missing (st : Store) word language heading content :
  lookup_wiktionary_subentry st word language = None →
  edit_wiktionary_entry st word language heading content = (st, Raised AttributeError).
Proof. intros Hl. unfold edit_wiktionary_entry. by rewrite Hl. Qed.

(** C2. Merging the same content under the same word, language and
    heading a second time leaves the store as the first merge left it,
    and ends the same way. *)
Theorem edit_idempotent (st : Store) (word language heading : string) (content : Content) :
  let once := edit_wiktionary_entry st word language heading content in
  edit_wiktionary_entry once.1 word language heading content = once.
Proof.
  simpl. destruct (lookup_wiktionary_subentry st word language) as [le|] eqn:Hl.
  - rewrite (edit_existing _ _ _ _ _ _ Hl). simpl.
    rewrite (edit_existing _ _ _ _ _ _ (lookup_subentry_set_heading _ _ _ _ _ _ Hl)).
    rewrite lookup_insert_eq. simpl.
    by rewrite set_heading_twice, new_absorb.
  - rewrite (edit_missing _ _ _ _ _ Hl). simpl. by apply edit_missing.
Qed.

(** C8, as the code has it. When the word already has an entry under the
    language, a merge into a heading that is not there yet creates the
    heading and stores the deduplicated content; the other headings of
    the entry are untouched. *)
Theorem edit_creates_heading (st : Store) (word language heading : string)
    (content : Content) (le : LangEntry) :
  lookup_wiktionary_subentry st word language = Some le →
  le !! heading = None →
  let st' := (edit_wiktionary_entry st word language heading content).1 in
  (edit_wiktionary_entry st word language heading content).2 = Returned tt
  ∧ lookup_wiktionary_heading st' word language heading = Some (OrderedSet.new content)
  ∧ lookup_wiktionary_subentry st' word language
    = Some (<[heading := OrderedSet.new content]> le).
Proof.
  intros Hl Hh. simpl. rewrite (edit_existing _ _ _ _ _ _ Hl), Hh. simpl.
  split_and!; [done| |].
  - by apply lookup_heading_set_heading with le.
  - by apply lookup_subentry_set_heading.
Qed.

Lemma edit_creates_heading_witness :
  lookup_wiktionary_heading
    (edit_wiktionary_entry Samples.cat_store "cat" "English" "Etymology"
       [IStr "felinus"; IStr "felinus"; IStr "catus"]).1
    "cat" "English" "Etymology"
  = Some [IStr "felinus"; IStr "catus"].
Proof.
  apply (edit_creates_heading Samples.cat_store "cat" "English" "Etymology"
           [IStr "felinus"; IStr "felinus"; IStr "catus"]
           {[ "Noun"%string := [IPair "cat" None] ]}); reflexivity.
Defined.

(** C8, as stated, fails: a merge for a word that has no entry leaves
    the store as it was (and ends in an exception); the triple is not
    created. *)
Lemma edit_missing_word_creates_nothing :
  let st : Store := ∅ in
  let after := edit_wiktionary_entry st "cat" "English" "Etymology" [IStr "felinus"] in
  lookup_wiktionary_heading st "cat" "English" "Etymology" = None
  ∧ after = (st, Raised AttributeError)
  ∧ lookup_wiktionary_heading after.1 "cat" "English" "Etymology"
    ≠ Some (OrderedSet.new [IStr "felinus"]).
Proof. simpl. split_and!; [reflexivity|reflexivity|discriminate]. Qed.

End StoreFacts.

(** ** The lemma cascade *)

Module LemmaFacts.
Import Parser LanguageParser OrderedSetFacts Invariants.


Section loops.
Variable poses : list string.



End loops.


Section cascade.
Variable fetch_page : string → string → option LangEntry.
Variable verify_word : string → string → bool.

End cascade.



End LemmaFacts.

(** ** Morpheme decomposition *)

Module MorphemeFacts.
Import Parser LanguageParser OrderedSetFacts Invariants.

Lemma pop_first_spec : pop_spec pop_first.
Proof.
  intros s. unfold pop_first. destruct (elements s) as [|x l] eqn:He.
  - by apply elements_empty_inv in He as ->%leibniz_equiv.
  - split; [|done]. apply elem_of_elements. rewrite He. left.
Qed.

Section loop.
Variable pop : gset Item → option (Item * gset Item).
Hypothesis pop_ok : pop_spec pop.
Variable st : Store.
Variable language : string.

Lemma pop_empty : pop ∅ = None.
Proof.
  pose proof (pop_ok ∅) as Hp. destruct (pop ∅) as [[x s']|]; [|done].
  destruct Hp as [Hx _]. by apply not_elem_of_empty in Hx.
Qed.

Lemma morph_loop_more_fuel fuel fuel' s r :
  morph_loop pop fuel st language s = Some r → (fuel ≤ fuel')%nat →
  morph_loop pop fuel' st language s = Some r.
Proof.
  revert fuel' s. induction fuel as [|fuel IH]; intros fuel' s; simpl; [done|].
  intros Hr Hle. destruct fuel' as [|fuel']; [lia|]. simpl.
  destruct (pop (todo s)) as [[x t']|]; [|done].
  destruct (morph_body st language x (morphemes s) t') as [s'|e]; [|done].
  apply IH; [done|lia].
Qed.

(** One turn of the loop either shrinks the unvisited tokens, or
    keeps them and shrinks [todo]. *)
Lemma morph_body_measure s x t' s' :
  x ∈ todo s → t' = todo s ∖ {[ x ]} →
  morph_body st language x (morphemes s) t' = Returned s' →
  (size (unvisited s') < size (unvisited s))%nat
  ∨ (size (unvisited s') ≤ size (unvisited s)
     ∧ size (todo s') < size (todo s))%nat.
Proof.
  intros Hx -> Hb. unfold morph_body in Hb.
  destruct (negb (item_len x =? 0) && negb (OrderedSet.in_items_set x (morphemes s))
            && negb (item_contains_punct x)) eqn:Hc.
  - left. apply andb_prop in Hc as [[_ Hn%negb_true_iff]%andb_prop _].
    unfold OrderedSet.in_items_set in Hn. apply bool_decide_eq_false in Hn.
    destruct x as [w|d l]; [|done].
    apply subset_size. unfold unvisited.
    destruct (word_morphemes st w language) as [wm|]; inversion Hb; subst; simpl.
    + apply (strict_spec_alt _ _). split.
      * intros y. rewrite !elem_of_difference, elem_of_union, !elem_of_list_to_set,
          elem_of_difference, elem_of_update, elem_of_add,
          elem_of_singleton. tauto.
      * intros Heq. assert (IStr w ∈ todo s ∖ list_to_set (morphemes s)) as Hin.
        { apply elem_of_difference. by rewrite elem_of_list_to_set. }
        rewrite <- Heq in Hin. revert Hin.
        rewrite !elem_of_difference, elem_of_union, !elem_of_list_to_set,
          elem_of_difference, elem_of_update, elem_of_add, elem_of_singleton.
        tauto.
    + apply (strict_spec_alt _ _). split.
      * intros y. rewrite !elem_of_difference, !elem_of_list_to_set,
          elem_of_add, elem_of_singleton. tauto.
      * intros Heq. assert (IStr w ∈ todo s ∖ list_to_set (morphemes s)) as Hin.
        { apply elem_of_difference. by rewrite elem_of_list_to_set. }
        rewrite <- Heq in Hin. revert Hin.
        rewrite !elem_of_difference, !elem_of_list_to_set,
          elem_of_add, elem_of_singleton. tauto.
  - right. inversion Hb; subst; simpl. unfold unvisited; simpl. split.
    + apply subseteq_size. intros y. rewrite !elem_of_difference. tauto.
    + apply subset_size. by apply subset_difference_elem_of.
Qed.

Lemma morph_loop_terminates_bounded (u t : nat) (s : MState) :
  (size (unvisited s) ≤ u)%nat → (size (todo s) ≤ t)%nat →
  ∃ n r, morph_loop pop n st language s = Some r.
Proof.
  revert t s. induction u as [u IHu] using lt_wf_ind.
  induction t as [t IHt] using lt_wf_ind. intros s Hu Ht.
  pose proof (pop_ok (todo s)) as Hp.
  destruct (pop (todo s)) as [[x t']|] eqn:Hpop.
  - destruct Hp as [Hx Ht'].
    destruct (morph_body st language x (morphemes s) t') as [s'|e] eqn:Hb.
    + destruct (morph_body_measure s x t' s' Hx Ht' Hb) as [Hlt|[Hle Hlt]].
      * destruct (IHu (size (unvisited s')) ltac:(lia) (size (todo s')) s')
          as (n & r & Hn); [done|done|].
        exists (S n), r. simpl. by rewrite Hpop, Hb.
      * destruct (IHt (size (todo s')) ltac:(lia) s') as (n & r & Hn); [lia|done|].
        exists (S n), r. simpl. by rewrite Hpop, Hb.
    + exists 1%nat, (Raised e). simpl. by rewrite Hpop, Hb.
  - exists 1%nat, (Returned (OrderedSet.order_items (morphemes s))).
    simpl. by rewrite Hpop.
Qed.

Lemma morph_loop_terminates (s : MState) :
  ∃ n r, ∀ fuel, (n ≤ fuel)%nat → morph_loop pop fuel st language s = Some r.
Proof.
  destruct (morph_loop_terminates_bounded _ _ s (le_n _) (le_n _)) as (n & r & Hn).
  exists n, r. intros fuel Hf. by apply morph_loop_more_fuel with n.
Qed.

Lemma pop_singleton (x : Item) : pop {[ x ]} = Some (x, ∅).
Proof.
  pose proof (pop_ok {[ x ]}) as Hp. destruct (pop {[ x ]}) as [[y s']|].
  - destruct Hp as [->%elem_of_singleton ->]. do 2 f_equal.
    apply difference_diag_L.
  - exfalso. assert (x ∈ (∅ : gset Item)) as Hx
      by (rewrite <- Hp; by apply elem_of_singleton).
    by apply not_elem_of_empty in Hx.
Qed.

(** The run on a two-word cycle. *)
Lemma morph_loop_cycle (word B : string) :
  word ≠ EmptyString → contains_punct word = false →
  lookup_wiktionary_heading st word language "Etymology" = Some [IStr B] →
  ∃ l, all_word_morphemes pop 3 st word language = Some (Returned l)
       ∧ (list_to_set l : gset Item) = {[ IStr word; IStr B ]}.
Proof.
  intros Hw Hpunct HA.
  assert (word_morphemes st word language = Some [IStr B]) as Hwm.
  { unfold word_morphemes, lookup_word_etymology.
    replace (entry_word st word language) with word; [done|].
    symmetry. unfold entry_word.
    apply (StoreFacts.entry_word_loop_hit st language word [] _ word);
      [intros u Hu; by apply elem_of_nil in Hu|].
    rewrite StoreFacts.lookup_entry_subentry.
    unfold lookup_wiktionary_heading in HA.
    destruct (lookup_wiktionary_subentry st word language); [by eexists|done]. }
  set (ms := OrderedSet.update [IStr B] (OrderedSet.add (IStr word) (OrderedSet.new []))).
  assert (IStr B ∈ ms) as HB by (apply elem_of_update; left; left).
  assert (morph_body st language (IStr word) (OrderedSet.new []) ∅
          = Returned {| morphemes := ms; todo := {[ IStr B ]} |}) as Hb1.
  { unfold morph_body. simpl.
    replace (PyStr.len word =? 0) with false.
    2:{ symmetry. apply Z.eqb_neq. unfold PyStr.len. destruct word; [done|simpl; lia]. }
    rewrite Hpunct. simpl. rewrite Hwm. do 2 f_equal.
    apply set_eq. intros y.
    rewrite elem_of_union, elem_of_singleton, elem_of_list_to_set,
      list_elem_of_singleton, elem_of_empty. tauto. }
  assert (morph_body st language (IStr B) ms ∅
          = Returned {| morphemes := ms; todo := ∅ |}) as Hb2.
  { unfold morph_body, OrderedSet.in_items_set.
    rewrite bool_decide_eq_true_2 by done. by rewrite andb_false_r. }
  exists ms. split.
  - unfold all_word_morphemes. simpl.
    rewrite pop_singleton, Hb1. simpl. rewrite pop_singleton, Hb2. simpl.
    by rewrite pop_empty.
  - apply set_eq. intros y. rewrite elem_of_list_to_set. unfold ms.
    rewrite elem_of_update, elem_of_add, list_elem_of_singleton.
    unfold OrderedSet.new. simpl.
    rewrite elem_of_union, !elem_of_singleton, !elem_of_nil. tauto.
Qed.

(** The run from a word that is empty or holds a punctuation
    character: the word is skipped and nothing is collected. *)
Lemma morph_loop_skipped (word : string) :
  word = EmptyString ∨ contains_punct word = true →
  all_word_morphemes pop 2 st word language = Some (Returned []).
Proof.
  intros Hw. unfold all_word_morphemes. simpl. rewrite pop_singleton.
  assert (morph_body st language (IStr word) (OrderedSet.new []) ∅
          = Returned {| morphemes := OrderedSet.new []; todo := ∅ |}) as ->.
  { unfold morph_body. simpl. destruct Hw as [-> | Hp]; [done|]. rewrite Hp.
    by rewrite !andb_false_r. }
  simpl. by rewrite pop_empty.
Qed.

(** C4, as the code has it. [all_word_morphemes] terminates for every
    store, word and language, whatever element [pop] picks: from some
    amount of fuel on, the loop always ends with the same result (a
    value or an exception). On a two-word etymology cycle between a
    word and B it returns exactly the set of the two when the word is
    not empty and holds no punctuation character; from a word that is
    empty or holds a punctuation character it returns the empty
    list, on a cycle as on any other store. *)
Theorem all_word_morphemes_terminates (word : string) :
  ∃ n r,
    (∀ fuel, (n ≤ fuel)%nat → all_word_morphemes pop fuel st word language = Some r)
    ∧ (∀ B, word ≠ EmptyString → contains_punct word = false →
        lookup_wiktionary_heading st word language "Etymology" = Some [IStr B] →
        lookup_wiktionary_heading st B language "Etymology" = Some [IStr word] →
        ∃ l, r = Returned l ∧ (list_to_set l : gset Item) = {[ IStr word; IStr B ]})
    ∧ (word = EmptyString ∨ contains_punct word = true → r = Returned []).
Proof.
  unfold all_word_morphemes.
  destruct (morph_loop_terminates
              {| morphemes := OrderedSet.new []; todo := {[ IStr word ]} |})
    as (n & r & Hn).
  exists n, r. split_and!; [done| |].
  - intros B Hw Hpunct HA _.
    destruct (morph_loop_cycle word B Hw Hpunct HA) as (l & Hl & Hset).
    exists l. split; [|done].
    unfold all_word_morphemes in Hl.
    apply (morph_loop_more_fuel _ (n `max` 3)) in Hl; [|lia].
    rewrite Hn in Hl by lia. congruence.
  - intros Hw. pose proof (morph_loop_skipped word Hw) as Hl.
    unfold all_word_morphemes in Hl.
    apply (morph_loop_more_fuel _ (n `max` 2)) in Hl; [|lia].
    rewrite Hn in Hl by lia. congruence.
Qed.
End loop.

Lemma all_word_morphemes_terminates_witness :
  ∃ n r,
    (∀ fuel, (n ≤ fuel)%nat →
       all_word_morphemes pop_first fuel Samples.cycle_store "alpha" "English" = Some r)
    ∧ ∃ l, r = Returned l ∧ (list_to_set l : gset Item) = {[ IStr "alpha"; IStr "beta" ]}.
Proof.
  destruct (all_word_morphemes_terminates pop_first pop_first_spec
              Samples.cycle_store "English" "alpha") as (n & r & Hn & Hc & _).
  exists n, r. split; [exact Hn|].
  apply (Hc "beta"%string); [discriminate|reflexivity|reflexivity|reflexivity].
Defined.

(** C4, as stated, fails on a cycle entered at a hyphenated morpheme:
    "un-" and "on" list each other as etymology, and the decomposition
    of "un-" is empty, not the set of the two, for every amount of
    fuel that lets the loop end; entered at "on" the same cycle gives
    both. *)
Lemma hyphenated_cycle_returns_nothing :
  lookup_wiktionary_heading Examples.affix_cycle_store "un-" "English" "Etymology"
  = Some [IStr "on"]
  ∧ lookup_wiktionary_heading Examples.affix_cycle_store "on" "English" "Etymology"
    = Some [IStr "un-"]
  ∧ (∀ fuel, (2 ≤ fuel)%nat →
       all_word_morphemes pop_first fuel Examples.affix_cycle_store "un-" "English"
       = Some (Returned []))
  ∧ all_word_morphemes pop_first 3 Examples.affix_cycle_store "on" "English"
    = Some (Returned [IStr "on"; IStr "un-"]).
Proof.
  split_and!; [reflexivity..| |reflexivity].
  intros fuel Hf.
  apply (morph_loop_more_fuel pop_first Examples.affix_cycle_store "English" 2);
    [reflexivity|done].
Qed.

End MorphemeFacts.

(** ** Grid reconstruction *)

Module GridFacts.
Import Table SpecWording Notions Invariants.

(** *** Filling a rectangle *)

Lemma lookup_fill_cols (d : Grid) cell row c cs n (k : Z * Z) :
  fill_cols d cell row c cs n !! k
  = if decide (k.1 = row ∧ c + cs <= k.2 < c + cs + Z.of_nat n)
    then Some cell else d !! k.
Proof.
  revert d cs. induction n as [|n IH]; intros d cs; simpl.
  - rewrite decide_False by lia. done.
  - rewrite IH. destruct k as [k1 k2]; simpl.
    destruct (decide (k1 = row ∧ c + (cs + 1) <= k2 < c + (cs + 1) + Z.of_nat n)).
    + rewrite decide_True by lia. done.
    + destruct (decide ((row, c + cs) = (k1, k2))) as [Heq|Hne].
      * injection Heq as <- <-. rewrite lookup_insert_eq, decide_True by lia. done.
      * rewrite lookup_insert_ne by done. rewrite decide_False; [done|].
        intros [-> ?]. apply Hne. f_equal. lia.
Qed.

Lemma lookup_fill_rows (d : Grid) cell r c colspan rs n (k : Z * Z) :
  fill_rows d cell r c colspan rs n !! k
  = if decide (r + rs <= k.1 < r + rs + Z.of_nat n
               ∧ c <= k.2 < c + Z.max colspan 1)
    then Some cell else d !! k.
Proof.
  revert d rs. induction n as [|n IH]; intros d rs; simpl.
  - rewrite decide_False by lia. done.
  - rewrite IH, lookup_fill_cols. destruct k as [k1 k2]; simpl.
    repeat case_decide; try done; try lia.
    all: destruct (decide ((r + rs, c) = (k1, k2))) as [Heq|Hne];
      [injection Heq as <- <-; rewrite ?lookup_insert_eq; try done; try lia
      |rewrite ?lookup_insert_ne by done; try done].
    all: try (exfalso; apply Hne; f_equal; lia).
    all: try lia.

Qed.

(** A placement writes the cell on its rectangle and nothing else. *)
Lemma lookup_place (d : Grid) cell r c rowspan colspan (k : Z * Z) :
  place d cell r c rowspan colspan !! k
  = if decide (r <= k.1 < r + rowspan ∧ c <= k.2 < c + Z.max colspan 1)
    then Some cell else d !! k.
Proof.
  unfold place. destruct (negb (colspan =? 1) || negb (rowspan =? 1)) eqn:Hb.
  - rewrite lookup_fill_rows. repeat case_decide; try done; lia.
  - apply orb_false_elim in Hb as [Hc%negb_false_iff%Z.eqb_eq Hr%negb_false_iff%Z.eqb_eq].
    subst. destruct k as [k1 k2]; simpl.
    destruct (decide ((r, c) = (k1, k2))) as [Heq|Hne].
    + injection Heq as <- <-. rewrite lookup_insert_eq, decide_True by lia. done.
    + rewrite lookup_insert_ne by done. rewrite decide_False; [done|].
      intros ?. apply Hne. f_equal; lia.
Qed.

Lemma replay_snoc l p :
  replay (l ++ [p])
  = place (replay l) (pl_cell p) (pl_r p) (pl_c p) (pl_rowspan p) (pl_colspan p).
Proof. unfold replay. by rewrite foldl_app. Qed.

Lemma lookup_replay_snoc l p (k : Z * Z) :
  replay (l ++ [p]) !! k = if decide (covers p k) then Some (pl_cell p) else replay l !! k.
Proof.
  rewrite replay_snoc, lookup_place. unfold covers.
  repeat case_decide; try done; tauto.
Qed.

(** The last placement covering a coordinate decides its entry. *)
Lemma lookup_replay_last before p after (k : Z * Z) :
  covers p k → (∀ q, q ∈ after → ¬ covers q k) →
  replay (before ++ p :: after) !! k = Some (pl_cell p).
Proof.
  intros Hp. induction after as [|q after IH] using rev_ind; intros Hafter.
  - change (before ++ [p]) with (before ++ [p]). rewrite lookup_replay_snoc.
    by rewrite decide_True.
  - replace (before ++ p :: after ++ [q]) with ((before ++ p :: after) ++ [q])
      by (by rewrite <- app_assoc).
    rewrite lookup_replay_snoc. rewrite decide_False.
    + apply IH. intros q' Hq'. apply Hafter. apply elem_of_app. by left.
    + apply Hafter. apply elem_of_app. right. left.
Qed.

(** Entries are never removed. *)
Lemma lookup_replay_covered l p (k : Z * Z) :
  p ∈ l → covers p k → is_Some (replay l !! k).
Proof.
  induction l as [|q l IH] using rev_ind; intros Hin Hc.
  - by apply elem_of_nil in Hin.
  - rewrite lookup_replay_snoc. case_decide; [by eexists|].
    apply IH; [|done]. apply elem_of_app in Hin as [?|Hq]; [done|].
    apply list_elem_of_singleton in Hq as ->. done.
Qed.

Lemma lookup_replay_Some l (k : Z * Z) cell :
  replay l !! k = Some cell → ∃ p, p ∈ l ∧ covers p k ∧ pl_cell p = cell.
Proof.
  induction l as [|q l IH] using rev_ind.
  - unfold replay. simpl. by rewrite lookup_empty.
  - rewrite lookup_replay_snoc. case_decide as Hc.
    + intros [= <-]. exists q. split; [|done].
      apply elem_of_app. right. apply list_elem_of_here.
    + intros (p & Hp & ?)%IH. exists p. split; [|done].
      apply elem_of_app. by left.
Qed.

(** *** The iterators *)

Lemma iter_next_Some it r it' :
  iter_next it = Some (r, it') →
  r = it_next it ∧ iter_sum it' = iter_sum it ∧ it_next it <= it_next it'
  ∧ S (it_rem it') = it_rem it.
Proof.
  unfold iter_next, iter_sum. destruct (it_rem it) as [|k] eqn:Hk; [done|].
  intros [= <- <-]. simpl. lia.
Qed.

Lemma iter_next_None it : iter_next it = None ↔ it_rem it = O.
Proof. unfold iter_next. by destruct (it_rem it). Qed.

Lemma iter_advance_rem n it : (it_rem (iter_advance n it) ≤ it_rem it)%nat.
Proof.
  revert it. induction n as [|n IH]; intros it; simpl; [done|].
  destruct (iter_next it) as [[r it']|] eqn:Hn; [|done].
  apply iter_next_Some in Hn as (_ & _ & _ & Hr). specialize (IH it'). lia.
Qed.

Lemma scan_down_rows (d : Grid) c r cols rn rr :
  let sc := scan_down d c r cols rn rr in
  iter_sum (scan_rows sc) = rn + Z.of_nat rr
  ∧ rn <= it_next (scan_rows sc)
  ∧ (it_rem (scan_rows sc) ≤ rr)%nat
  ∧ scan_cols sc = cols.
Proof.
  revert r rn. induction rr as [|rr IH]; intros r rn; simpl.
  - case_bool_decide; simpl; unfold iter_sum; simpl; split_and!; try done; lia.
  - case_bool_decide; simpl.
    + destruct (IH (r + 1) (rn + 1)) as (H1 & H2 & H3 & H4).
      split_and!; try done; lia.
    + unfold iter_sum; simpl. split_and!; try done; lia.
Qed.

Lemma scan_right_rows (d : Grid) r c cn cr rows :
  let sc := scan_right d r c cn cr rows in
  iter_sum (scan_rows sc) = iter_sum rows
  ∧ it_next rows <= it_next (scan_rows sc)
  ∧ (it_rem (scan_rows sc) ≤ it_rem rows)%nat
  ∧ (it_rem (scan_cols sc) ≤ cr)%nat.
Proof.
  revert r c cn. induction cr as [|cr IH]; intros r c cn; simpl.
  - case_bool_decide; simpl.
    + pose proof (scan_down_rows d c r {| it_next := cn; it_rem := 0 |}
                    (it_next rows) (it_rem rows)) as (H1 & H2 & H3 & Hc).
      cbv zeta in *. rewrite Hc. simpl. rewrite H1. unfold iter_sum. lia.
    + unfold iter_sum. lia.
  - case_bool_decide; simpl.
    + specialize (IH r (c + 1) (cn + 1)). cbv zeta in IH. lia.
    + unfold iter_sum. lia.
Qed.

Lemma scan_down_free (d : Grid) c r cols rn rr :
  let sc := scan_down d c r cols rn rr in
  scan_free sc = true → d !! (scan_r sc, scan_c sc) = None.
Proof.
  revert r rn. induction rr as [|rr IH]; intros r rn; simpl.
  - case_bool_decide as Hd; simpl; [done|]. intros _.
    by apply eq_None_not_Some.
  - case_bool_decide as Hd; simpl; [apply IH|]. intros _.
    by apply eq_None_not_Some.
Qed.

(** The loop ends normally on a coordinate that has no entry. *)
Lemma scan_right_free (d : Grid) r c cn cr rows :
  let sc := scan_right d r c cn cr rows in
  scan_free sc = true → d !! (scan_r sc, scan_c sc) = None.
Proof.
  revert r c cn. induction cr as [|cr IH]; intros r c cn; simpl.
  - case_bool_decide as Hd; simpl; [apply scan_down_free|]. intros _.
    by apply eq_None_not_Some.
  - case_bool_decide as Hd; simpl; [apply IH|]. intros _.
    by apply eq_None_not_Some.
Qed.

(** *** Induction over the loops *)

Lemma cols_loop_ind (nrows : Z) (J : CState → Prop) :
  (∀ s c it', J s → error (cs_outer s) = None →
     iter_next (col_iter s) = Some (c, it') →
     J (col_body nrows c (set_col_iter s it'))) →
  ∀ fuel s, J s → J (cols_loop fuel nrows s).
Proof.
  intros Hbody. induction fuel as [|fuel IH]; intros s Hs; simpl; [done|].
  destruct (error (cs_outer s)) eqn:He; [done|].
  destruct (iter_next (col_iter s)) as [[c it']|] eqn:Hn; [|done].
  apply IH. by apply (Hbody s c it').
Qed.

Lemma rows_loop_ind (rows : list (list Cell)) (nrows : Z) (I : PState → Prop) :
  (∀ p r it', I p → error p = None → iter_next (row_iter p) = Some (r, it') →
     I (row_body rows nrows r (set_row_iter p it'))) →
  ∀ fuel p, I p → I (rows_loop fuel rows nrows p).
Proof.
  intros Hbody. induction fuel as [|fuel IH]; intros p Hp; simpl; [done|].
  destruct (error p) eqn:He; [done|].
  destruct (iter_next (row_iter p)) as [[r it']|] eqn:Hn; [|done].
  apply IH. pose proof (Hbody p r it' Hp He Hn) as Hb.
  unfold set_row_iter in Hb. by rewrite He in Hb.
Qed.

Lemma skip_empty_cols_spec nrows cell rest cell' rest' :
  skip_empty_cols nrows cell rest = (cell', rest') →
  cell' ∈ cell :: rest ∧ ∃ k, rest' = drop k rest.
Proof.
  revert cell. induction rest as [|c2 rest IH]; intros cell; simpl.
  - destruct (rowspan_raises (cell_tag cell));
      [|destruct (is_col_empty nrows (cell_tag cell))];
      intros [= <- <-]; (split; [left|by exists O]).
  - destruct (rowspan_raises (cell_tag cell)).
    { intros [= <- <-]. split; [left|by exists O]. }
    destruct (is_col_empty nrows (cell_tag cell)).
    + intros [Hin [k ->]]%IH. split; [by right|by exists (S k)].
    + intros [= <- <-]. split; [left|by exists O].
Qed.

Lemma col_body_effect nrows c s :
  col_effect nrows (cs_outer s) (cs_outer (col_body nrows c s)).
Proof.
  unfold col_body. destruct (cells_iter s) as [|cell0 rest0]; [constructor|].
  destruct (skip_empty_cols nrows cell0 rest0) as [cell rest].
  destruct (rowspan_raises (cell_tag cell)) eqn:Hrow; [constructor|].
  destruct (is_col_empty nrows (cell_tag cell)) eqn:Hempty; [constructor|].
  set (sc := scan_right _ _ _ _ _ _).
  destruct (scan_free sc) eqn:Hfree; simpl; [|constructor].
  destruct (colspan_raises (cell_tag cell)) eqn:Hcol; [constructor|].
  apply (effect_place nrows (cs_outer s) (scan_rows sc)
           {| pl_r := scan_r sc; pl_c := scan_c sc;
              pl_rowspan := Z.min (cell_rowspan (cell_tag cell)) nrows;
              pl_colspan := Z.min (cell_colspan (cell_tag cell)) (cur_num_cols (cs_outer s));
              pl_cell := cell; pl_num_cols := cur_num_cols (cs_outer s) |});
    simpl; try done.
  by apply scan_right_free.
Qed.

Lemma col_body_iters nrows c s :
  let s' := col_body nrows c s in
  (error (cs_outer s') = error (cs_outer s) ∨ error (cs_outer s') = Some ValueError)
  ∧ iter_sum (row_iter (cs_outer s')) = iter_sum (row_iter (cs_outer s))
  ∧ it_next (row_iter (cs_outer s)) <= it_next (row_iter (cs_outer s'))
  ∧ (it_rem (row_iter (cs_outer s')) ≤ it_rem (row_iter (cs_outer s)))%nat
  ∧ (it_rem (col_iter s') ≤ it_rem (col_iter s))%nat.
Proof.
  unfold col_body. destruct (cells_iter s) as [|cell0 rest0];
    [simpl; split_and!; try done; try lia; by left|].
  destruct (skip_empty_cols nrows cell0 rest0) as [cell rest].
  destruct (rowspan_raises (cell_tag cell)) eqn:Hrow;
    [simpl; split_and!; try done; try lia; by right|].
  destruct (is_col_empty nrows (cell_tag cell)) eqn:Hempty;
    [simpl; split_and!; try done; try lia; by left|].
  pose proof (scan_right_rows (table_dict (cs_outer s)) (cs_r s) c
                (it_next (col_iter s)) (it_rem (col_iter s)) (row_iter (cs_outer s)))
    as (H1 & H2 & H3 & H4).
  set (sc := scan_right _ _ _ _ _ _) in *.
  destruct (scan_free sc) eqn:Hfree; simpl;
    [|split_and!; try done; try lia; by left].
  destruct (colspan_raises (cell_tag cell)) eqn:Hcol; simpl;
    [split_and!; try done; try lia; by right|].
  split_and!; try done; [by left|].
  destruct (negb _ || negb _); [|done].
  etrans; [apply iter_advance_rem|done].
Qed.

(** A turn of the column loop raises only on a cell of the row with a
    span that [int] rejects: the row-span, or the col-span of a cell
    that is not an empty column. *)
Lemma col_body_error nrows c s :
  error (cs_outer s) = None →
  error (cs_outer (col_body nrows c s)) = None
  ∨ (error (cs_outer (col_body nrows c s)) = Some ValueError
     ∧ ∃ cell, cell ∈ cells_iter s
               ∧ (rowspan_raises (cell_tag cell) = true
                  ∨ (colspan_raises (cell_tag cell) = true
                     ∧ is_col_empty nrows (cell_tag cell) = false))).
Proof.
  intros He. unfold col_body. destruct (cells_iter s) as [|cell0 rest0]; [by left|].
  destruct (skip_empty_cols nrows cell0 rest0) as [cell rest] eqn:Hskip.
  apply skip_empty_cols_spec in Hskip as [Hin _].
  destruct (rowspan_raises (cell_tag cell)) eqn:Hrow.
  { right. split; [done|]. exists cell. split; [done|by left]. }
  destruct (is_col_empty nrows (cell_tag cell)) eqn:Hempty; [by left|].
  set (sc := scan_right _ _ _ _ _ _).
  destruct (scan_free sc) eqn:Hfree; simpl; [|by left].
  destruct (colspan_raises (cell_tag cell)) eqn:Hcol; [|by left].
  right. split; [done|]. exists cell. split; [done|by right].
Qed.

(** The cells left in the row after a turn are cells of the row. *)
Lemma col_body_cells nrows c s :
  ∃ k, cells_iter (col_body nrows c s) = drop k (cells_iter s).
Proof.
  unfold col_body. destruct (cells_iter s) as [|cell0 rest0] eqn:Hc;
    [exists O; by rewrite Hc|].
  destruct (skip_empty_cols nrows cell0 rest0) as [cell rest] eqn:Hskip.
  apply skip_empty_cols_spec in Hskip as [_ [k ->]].
  repeat case_match; by exists (S k).
Qed.

Section effect_induction.
Variable t : WTable.
Variable I : PState → Prop.
Hypothesis I_effect : ∀ p p', I p → col_effect (num_rows t) p p' → I p'.
Hypothesis I_error : ∀ p e, I p → I (raise e p).

Lemma rows_loop_effect_ind fuel p :
  I p → I (rows_loop fuel (rows_cells t) (num_rows t) p).
Proof.
  apply rows_loop_ind. clear p. intros p r it' Hp _ _.
  assert (I (set_row_iter p it')) as Hp'.
  { apply (I_effect p); [done|]. apply effect_break. }
  unfold row_body. destruct (rows_get (rows_cells t) r) as [cells|].
  - apply (cols_loop_ind (num_rows t) (λ s, I (cs_outer s))); [|done].
    intros s c it'' Hs _ _. apply (I_effect (cs_outer s)); [done|].
    apply (col_body_effect (num_rows t) c (set_col_iter s it'')).
  - by apply (I_error (set_row_iter p it')).
Qed.

(** An invariant of the turns of the column loop holds of the state
    [parse_table] ends in. *)
Lemma parse_table_state_ind :
  I {| table_dict := ∅; cur_num_cols := num_cols t;
       row_iter := range_iter (num_rows t); placed := []; error := None |} →
  I (parse_table_state t).
Proof. apply rows_loop_effect_ind. Qed.
End effect_induction.

(** The grid is the replay of the placements. *)
Lemma parse_table_replay t : parse_table t = replay (placements t).
Proof.
  unfold parse_table, placements.
  apply (parse_table_state_ind t (λ p, table_dict p = replay (placed p))); [| |done].
  - intros p p' Hp He. destruct He; simpl; try done.
    by rewrite replay_snoc, Hp.
  - done.
Qed.

Lemma placements_well_placed t : Forall (well_placed t) (placements t).
Proof.
  unfold placements.
  apply (parse_table_state_ind t
           (λ p, cur_num_cols p <= num_cols t ∧ Forall (well_placed t) (placed p))).
  - intros p p' [Hn Hp] He. destruct He; simpl; try done.
    + split; [lia|done].
    + split; [done|]. apply Forall_app. split; [done|].
      apply Forall_singleton. unfold well_placed. split_and!; try done; lia.
  - done.
  - simpl. split; [lia|constructor].
Qed.

(** The spans of the cells of the grid are integers: [parse_table]
    converts both spans of a cell before it places it, so the
    conversions [parse_declension] makes on the cells of the grid
    raise nothing. *)
Lemma parse_table_integer_spans t (k : Z * Z) cell :
  parse_table t !! k = Some cell →
  rowspan_raises (cell_tag cell) = false ∧ colspan_raises (cell_tag cell) = false.
Proof.
  rewrite parse_table_replay. intros (pl & Hpl & _ & <-)%lookup_replay_Some.
  revert pl Hpl. apply Forall_forall. unfold placements.
  apply (parse_table_state_ind t
           (λ p, Forall (λ pl, rowspan_raises (cell_tag (pl_cell pl)) = false
                               ∧ colspan_raises (cell_tag (pl_cell pl)) = false)
                   (placed p))).
  - intros p p' Hp He. destruct He; simpl; try done.
    apply Forall_app. split; [done|]. by apply Forall_singleton.
  - done.
  - constructor.
Qed.

(** The cells of the rows carry the tags of the table's rows. *)
Lemma rows_cells_tags (t : WTable) (P : Tag → Prop) cells cell :
  Forall (λ row, Forall P (row_cells row)) (table_rows t) →
  cells ∈ rows_cells t → cell ∈ cells → P (cell_tag cell).
Proof.
  intros Hall Hcells Hcell.
  apply list_elem_of_lookup in Hcells as [r Hr].
  unfold rows_cells in Hr. rewrite list_lookup_imap in Hr.
  destruct (table_rows t !! r) as [row|] eqn:Hrow; [|done]. injection Hr as <-.
  apply list_elem_of_lookup in Hcell as [i Hi].
  unfold indexed_cells in Hi. rewrite list_lookup_imap in Hi.
  destruct (row_cells row !! i) as [tag|] eqn:Htag; [|done].
  injection Hi as <-. simpl.
  rewrite Forall_forall in Hall.
  assert (row ∈ table_rows t) as Hrow' by (by apply list_elem_of_lookup_2 in Hrow).
  specialize (Hall row Hrow'). rewrite Forall_forall in Hall.
  apply Hall. by apply list_elem_of_lookup_2 in Htag.
Qed.

Lemma rows_get_elem rows r cells : rows_get rows r = Some cells → cells ∈ rows.
Proof.
  unfold rows_get. repeat case_match; try done; intros Hl;
    by apply list_elem_of_lookup_2 in Hl.
Qed.

(** [self.rows[r]] is always in range: [parse_table] raises no
    [IndexError]. It raises [ValueError] or nothing, and [ValueError]
    only when [int] rejects the row-span of a cell of the table's
    rows, or the col-span of one that is not an empty column. *)
Lemma parse_table_error_cause t :
  parse_table_error t = None
  ∨ (parse_table_error t = Some ValueError
     ∧ ∃ cells cell,
         cells ∈ rows_cells t ∧ cell ∈ cells
         ∧ (rowspan_raises (cell_tag cell) = true
            ∨ (colspan_raises (cell_tag cell) = true
               ∧ is_col_empty (num_rows t) (cell_tag cell) = false))).
Proof.
  unfold parse_table_error, parse_table_state.
  set (cause := ∃ cells cell,
         cells ∈ rows_cells t ∧ cell ∈ cells
         ∧ (rowspan_raises (cell_tag cell) = true
            ∨ (colspan_raises (cell_tag cell) = true
               ∧ is_col_empty (num_rows t) (cell_tag cell) = false))).
  set (K := λ p : PState,
         (error p = None ∨ (error p = Some ValueError ∧ cause))
         ∧ 0 <= it_next (row_iter p)
         ∧ iter_sum (row_iter p) = num_rows t).
  assert (∀ fuel p, K p → K (rows_loop fuel (rows_cells t) (num_rows t) p)) as Hloop.
  { apply rows_loop_ind. intros p r it' (He & H0 & Hsum) Hnone Hn.
    apply iter_next_Some in Hn as (-> & Hsum' & Hle & Hrem).
    assert (K (set_row_iter p it')) as HK.
    { unfold K, set_row_iter; simpl. split_and!; [done|lia|lia]. }
    unfold row_body.
    destruct (rows_get (rows_cells t) (it_next (row_iter p))) as [cells|] eqn:Hget.
    - apply rows_get_elem in Hget.
      set (final := cols_loop _ _ _).
      assert (K (cs_outer final) ∧ ∀ cell, cell ∈ cells_iter final → cell ∈ cells)
        as [HK' _]; [|done].
      apply (cols_loop_ind (num_rows t)
               (λ s, K (cs_outer s) ∧ ∀ cell, cell ∈ cells_iter s → cell ∈ cells));
        [|done].
      intros s c it'' [(He' & H0' & Hs') Hcells] Hnone' _.
      pose proof (col_body_iters (num_rows t) c (set_col_iter s it''))
        as (E1 & E2 & E3 & _).
      pose proof (col_body_error (num_rows t) c (set_col_iter s it'') Hnone') as E4.
      pose proof (col_body_cells (num_rows t) c (set_col_iter s it'')) as [k E5].
      simpl in *. split.
      + unfold K. rewrite E2. split_and!; [|lia|done].
        destruct E4 as [->|[-> (cell & Hin & Hbad)]]; [by left|right].
        split; [done|]. exists cells, cell. split_and!; [done|by apply Hcells|done].
      + rewrite E5. intros cell Hin. apply Hcells.
        apply list_elem_of_lookup in Hin as [i Hi]. rewrite lookup_drop in Hi.
        by apply list_elem_of_lookup_2 in Hi.
    - exfalso. unfold rows_get in Hget.
      replace (it_next (row_iter p) <? 0) with false in Hget by (symmetry; apply Z.ltb_ge; lia).
      apply lookup_ge_None in Hget.
      unfold rows_cells in Hget. rewrite length_imap in Hget.
      unfold iter_sum in Hsum. unfold num_rows in Hsum. lia. }
  assert (K {| table_dict := ∅; cur_num_cols := num_cols t;
               row_iter := range_iter (num_rows t); placed := []; error := None |}) as HK.
  { unfold K, iter_sum, range_iter; simpl. split_and!; [by left|lia|].
    unfold num_rows. lia. }
  by destruct (Hloop (length (table_rows t)) _ HK) as (H1 & _).
Qed.

Lemma parse_table_error_cases t :
  (parse_table_error t = None ∨ parse_table_error t = Some ValueError)
  ∧ (integer_spans t → parse_table_error t = None).
Proof.
  destruct (parse_table_error_cause t) as [He|[He (cells & cell & Hcells & Hcell & Hbad)]].
  - split; [by left|done].
  - split; [by right|]. intros Hspans. exfalso.
    pose proof (rows_cells_tags t _ cells cell Hspans Hcells Hcell) as [Hr Hc].
    simpl in *. destruct Hbad as [?|[? _]]; congruence.
Qed.

Lemma parse_table_no_error t : integer_spans t → parse_table_error t = None.
Proof. apply parse_table_error_cases. Qed.

(** *** The fuel of the loops is enough *)

Lemma cols_loop_fuel nrows fuel1 fuel2 s :
  (it_rem (col_iter s) ≤ fuel1)%nat → (it_rem (col_iter s) ≤ fuel2)%nat →
  cols_loop fuel1 nrows s = cols_loop fuel2 nrows s.
Proof.
  revert fuel2 s. induction fuel1 as [|fuel1 IH]; intros fuel2 s H1 H2.
  - destruct fuel2 as [|fuel2]; simpl; [done|].
    destruct (error (cs_outer s)); [done|].
    assert (iter_next (col_iter s) = None) as -> by (apply iter_next_None; lia). done.
  - destruct fuel2 as [|fuel2]; simpl.
    + destruct (error (cs_outer s)); [done|].
      assert (iter_next (col_iter s) = None) as -> by (apply iter_next_None; lia). done.
    + destruct (error (cs_outer s)); [done|].
      destruct (iter_next (col_iter s)) as [[c it']|] eqn:Hn; [|done].
      apply iter_next_Some in Hn as (_ & _ & _ & Hrem).
      pose proof (col_body_iters nrows c
                    {| cs_outer := cs_outer s; cs_r := cs_r s; col_iter := it';
                       cells_iter := cells_iter s |}) as (_ & _ & _ & _ & Hc).
      simpl in Hc. apply IH; lia.
Qed.

Lemma row_body_rem rows nrows r p :
  (it_rem (row_iter (row_body rows nrows r p)) ≤ it_rem (row_iter p))%nat.
Proof.
  unfold row_body. destruct (rows_get rows r) as [cells|]; [|done].
  apply (cols_loop_ind nrows
           (λ s, (it_rem (row_iter (cs_outer s)) ≤ it_rem (row_iter p))%nat)); [|done].
  intros s c it' Hs _ _.
  pose proof (col_body_iters nrows c (set_col_iter s it')) as (_ & _ & _ & Hr & _).
  simpl in Hr. lia.
Qed.

Lemma rows_loop_fuel rows nrows fuel1 fuel2 p :
  (it_rem (row_iter p) ≤ fuel1)%nat → (it_rem (row_iter p) ≤ fuel2)%nat →
  rows_loop fuel1 rows nrows p = rows_loop fuel2 rows nrows p.
Proof.
  revert fuel2 p. induction fuel1 as [|fuel1 IH]; intros fuel2 p H1 H2.
  - destruct fuel2 as [|fuel2]; simpl; [done|].
    destruct (error p); [done|].
    assert (iter_next (row_iter p) = None) as -> by (apply iter_next_None; lia). done.
  - destruct fuel2 as [|fuel2]; simpl.
    + destruct (error p); [done|].
      assert (iter_next (row_iter p) = None) as -> by (apply iter_next_None; lia). done.
    + destruct (error p); [done|].
      destruct (iter_next (row_iter p)) as [[r it']|] eqn:Hn; [|done].
      apply iter_next_Some in Hn as (_ & _ & _ & Hrem).
      match goal with
      | |- rows_loop _ _ _ ?q = _ => pose proof (row_body_rem rows nrows r
            {| table_dict := table_dict p; cur_num_cols := cur_num_cols p;
               row_iter := it'; placed := placed p; error := None |}) as Hb
      end.
      simpl in Hb. apply IH; lia.
Qed.

(** More fuel than the number of rows changes nothing: the loop of
    [parse_table] has run to its end. *)
Lemma parse_table_state_fuel t fuel :
  (length (table_rows t) ≤ fuel)%nat →
  rows_loop fuel (rows_cells t) (num_rows t)
    {| table_dict := ∅; cur_num_cols := num_cols t;
       row_iter := range_iter (num_rows t); placed := []; error := None |}
  = parse_table_state t.
Proof.
  intros Hf. unfold parse_table_state. apply rows_loop_fuel; simpl;
    unfold num_rows; lia.
Qed.
(** *** Every cell is placed at most once *)









End GridFacts.

Module GridTheorems.
Import Table SpecWording Notions Invariants GridFacts.

(** C1, as the code has it. Every coordinate of the rectangle of a
    placed cell has an entry in the reconstructed grid, and the entry is
    that very cell unless the rectangle of a cell placed later covers
    the coordinate. *)
Theorem span_replication_until_overwritten (t : WTable)
    (before after : list Placement) (p : Placement) (i j : Z) :
  placements t = before ++ p :: after →
  0 <= i < pl_rowspan p → 0 <= j < pl_colspan p →
  is_Some (parse_table t !! (pl_r p + i, pl_c p + j))
  ∧ ((∀ q, q ∈ after → ¬ covers q (pl_r p + i, pl_c p + j)) →
      parse_table t !! (pl_r p + i, pl_c p + j) = Some (pl_cell p)).
Proof.
  intros Hl Hi Hj.
  assert (covers p (pl_r p + i, pl_c p + j)) as Hc by (unfold covers; simpl; lia).
  rewrite parse_table_replay, Hl. split.
  - apply lookup_replay_covered with p; [|done].
    apply elem_of_app. right. left.
  - intros Hafter. by apply lookup_replay_last.
Qed.

Lemma span_replication_until_overwritten_witness :
  parse_table Samples.overlapping !! (1, 1) = Some Samples.cell_C.
Proof.
  apply (proj2 (span_replication_until_overwritten Samples.overlapping
                  (take 2 (placements Samples.overlapping)) 
                  (drop 3 (placements Samples.overlapping)) Samples.placement_C 0 1
                  eq_refl ltac:(simpl; lia) ltac:(simpl; lia))).
  intros q Hq. apply list_elem_of_In in Hq. vm_compute in Hq.
  destruct Hq as [<-|[<-|[]]]; unfold covers; simpl; lia.
Defined.

(** C1, as stated, fails on the final grid: B is placed at (0, 1) with
    row-span 2, but C, placed later at (1, 0) with col-span 2, takes the
    entry at (1, 1). *)
Lemma overlapping_span_overwritten : ¬ span_replication Samples.overlapping.
Proof.
  intros H. specialize (H Samples.placement_B 1 0).
  assert (parse_table Samples.overlapping !! (0 + 1, 1 + 0) = Some Samples.cell_C) as HC
    by reflexivity.
  simpl in H. rewrite HC in H.
  assert (Some Samples.cell_C = Some Samples.cell_B) as Heq.
  { apply H; [|lia|lia]. apply list_elem_of_In. vm_compute. right. left. reflexivity. }
  discriminate Heq.
Qed.





(** C7 at the failing input: the first cell of the table spans both rows
    and carries the text "kot"; it is classified as an empty column and
    is skipped, so that no entry of the grid is that cell. *)
Theorem full_height_text_cell_skipped :
  let t := Samples.full_height_text in
  let kot := Samples.mk "td" (Some 2) None None "kot" in
  (rows_cells t !! 0%nat) ≫= head = Some {| cell_ref := (0, 0)%nat; cell_tag := kot |}
  ∧ tag_getText kot = "kot"%string
  ∧ is_col_empty (num_rows t) kot = true
  ∧ map_Forall (λ _ cell, cell_ref cell ≠ (0, 0)%nat) (parse_table t)
  ∧ Forall (λ p, cell_ref (pl_cell p) ≠ (0, 0)%nat) (placements t).
Proof.
  simpl. split_and!; try reflexivity.
  - apply map_Forall_to_list. vm_compute. repeat constructor; discriminate.
  - vm_compute. repeat constructor; discriminate.
Qed.
End GridTheorems.

(** ** Label paths *)

Module LabelFacts.
Import Table SpecWording OrderedSetFacts Invariants.

Lemma elem_of_rev {A} (x : A) (l : list A) : x ∈ rev l ↔ x ∈ l.
Proof. rewrite !list_elem_of_In. symmetry. apply in_rev. Qed.

Lemma coord_le_antisym a b : coord_le a b → coord_le b a → a = b.
Proof. unfold coord_le. destruct a, b; simpl. intros. f_equal; lia. Qed.

Lemma elem_of_sorted_coords (d : Grid) (k : Z * Z) :
  k ∈ sorted_coords d ↔ is_Some (d !! k).
Proof.
  unfold sorted_coords. rewrite merge_sort_Permutation.
  rewrite list_elem_of_fmap. split.
  - intros ([k' c] & -> & Hin%elem_of_map_to_list). by eexists.
  - intros [c Hc]. exists (k, c). split; [done|]. by apply elem_of_map_to_list.
Qed.

Lemma NoDup_sorted_coords (d : Grid) : NoDup (sorted_coords d).
Proof.
  unfold sorted_coords. rewrite merge_sort_Permutation.
  apply NoDup_fst_map_to_list.
Qed.

Lemma sorted_coords_sorted (d : Grid) : StronglySorted coord_le (sorted_coords d).
Proof. apply StronglySorted_merge_sort; apply _. Qed.

Lemma StronglySorted_filter {A} (R : relation A) (f : A → bool) l :
  StronglySorted R l → StronglySorted R (List.filter f l).
Proof.
  induction 1 as [|x l Hs IH Hall]; simpl; [constructor|].
  destruct (f x); [|done]. constructor; [done|].
  rewrite Forall_forall in *. intros y Hy%list_elem_of_In%filter_In.
  apply Hall. apply list_elem_of_In. tauto.
Qed.

Lemma StronglySorted_rev {A} (R : relation A) l :
  StronglySorted R l → StronglySorted (flip R) (rev l).
Proof.
  induction 1 as [|x l Hs IH Hall]; simpl; [constructor|].
  apply StronglySorted_app_2.
  - intros y z Hy Hz. rewrite elem_of_rev in Hy.
    apply list_elem_of_singleton in Hz as ->.
    rewrite Forall_forall in Hall. unfold flip. by apply Hall.
  - exact IH.
  - constructor; constructor.
Qed.

Lemma StronglySorted_strict {A} (R : relation A) l :
  StronglySorted R l → NoDup l → StronglySorted (λ a b, R a b ∧ a ≠ b) l.
Proof.
  induction 1 as [|x l Hs IH Hall]; intros Hnd; [constructor|].
  apply NoDup_cons in Hnd as [Hx Hnd]. constructor; [by apply IH|].
  rewrite Forall_forall in *. intros y Hy. split; [by apply Hall|].
  intros ->. done.
Qed.

Lemma StronglySorted_impl {A} (R Q : relation A) l :
  StronglySorted R l → (∀ a b, a ∈ l → b ∈ l → R a b → Q a b) →
  StronglySorted Q l.
Proof.
  induction 1 as [|x l Hs IH Hall]; intros Himp; [constructor|].
  constructor.
  - apply IH. intros a b Ha Hb. apply Himp; by right.
  - rewrite Forall_forall in *. intros y Hy.
    apply Himp; [left|by right|by apply Hall].
Qed.

Lemma elem_of_prev_rows (coord k : Z * Z) (d : Grid) :
  k ∈ prev_rows coord d ↔ is_Some (d !! k) ∧ k.1 = coord.1 ∧ k.2 < coord.2.
Proof.
  unfold prev_rows. rewrite list_elem_of_In, filter_In, <- list_elem_of_In.
  rewrite elem_of_sorted_coords, andb_true_iff, Z.eqb_eq, Z.ltb_lt. tauto.
Qed.

(** The scan of [cell_rows] visits the entries of the row left of the
    coordinate, from the nearest column to the farthest. *)
Lemma scan_order (coord : Z * Z) (d : Grid) :
  StronglySorted (λ a b, b.2 < a.2) (rev (prev_rows coord d))
  ∧ ∀ k, k ∈ rev (prev_rows coord d)
         ↔ is_Some (d !! k) ∧ k.1 = coord.1 ∧ k.2 < coord.2.
Proof.
  split.
  - apply (StronglySorted_rev (λ a b : Z * Z, a.2 < b.2)).
    apply (StronglySorted_impl (λ a b, coord_le a b ∧ a ≠ b)).
    + unfold prev_rows. apply StronglySorted_filter.
      apply StronglySorted_strict; [apply sorted_coords_sorted|apply NoDup_sorted_coords].
    + intros [a1 a2] [b1 b2] (_ & Ha & _)%elem_of_prev_rows (_ & Hb & _)%elem_of_prev_rows.
      unfold coord_le. simpl in *. intros [Hle Hne].
      destruct (decide (a2 = b2)) as [->|]; [|lia].
      exfalso. apply Hne. f_equal. lia.
  - intros k. rewrite elem_of_rev. apply elem_of_prev_rows.
Qed.





End LabelFacts.

(** ** Declension assembly *)

Module DeclensionFacts.
Import Table SpecWording Notions OrderedSetFacts Invariants LabelFacts.

Lemma len_pos_nonempty (s : string) : (0 <? PyStr.len s) = true → s ≠ EmptyString.
Proof. intros H ->. done. Qed.

Lemma cell_entry_nonempty_text lang tag :
  cell_entry lang tag ≠ [] → cell_text lang tag ≠ EmptyString.
Proof. unfold cell_entry. intros H Heq. rewrite Heq in H. by apply H. Qed.

Lemma declension_loop_app t coords s l1 l2 :
  Live.declension_loop t coords s (l1 ++ l2)
  = Live.declension_loop t coords s l1 ≫= λ s1, Live.declension_loop t coords s1 l2.
Proof.
  revert s. induction l1 as [|coord l1 IH]; intros s; simpl; [done|].
  destruct (Live.declension_step t coords s coord) as [s1|]; [|done]. apply IH.
Qed.

Lemma declension_step_recorded t coords declension h coord declension' h' :
  Live.declension_step t coords (declension, h) coord = Some (declension', h') →
  heap_at t coords coord h →
  all_recorded t coords declension → all_recorded t coords declension'.
Proof.
  unfold Live.declension_step. intros Hstep Hheap Hall.
  destruct (coords !! coord) as [cell|] eqn:Hcell; [|done].
  destruct (is_content (language t) (Live.present h cell)
            && (cell_colspan (cell_tag cell) <=? num_cols t)) eqn:Hc;
    [|by injection Hstep as <- <-].
  apply andb_prop in Hc as [Hcontent Hspan%Z.leb_le].
  destruct (Live.cell_rows (language t) coord coords h) as [[path h1]|] eqn:Hrows;
    [|done].
  destruct (Live.cell_cols (language t) (num_cols t) coord coords h1)
    as [cols h2] eqn:Hcols.
  set (col_text := line_text cols) in *.
  set (row_text := line_text path) in *.
  unfold Live.cell_entry in Hstep. cbn [fst snd] in Hstep.
  set (entry := cell_entry (language t) (Live.present h2 cell)) in *.
  destruct ((0 <? Z.of_nat (length entry)) && (0 <? PyStr.len col_text)) eqn:He;
    [|by injection Hstep as <- <-].
  apply andb_prop in He as [Hentry%Z.ltb_lt Hcol%len_pos_nonempty].
  destruct ((0 <? PyStr.len row_text) || (num_rows t - num_cols t =? 1)) eqn:Hr;
    [|by injection Hstep as <- <-].
  injection Hstep as <- <-.
  assert (entry ≠ []) as Hne by (intros Heq; rewrite Heq in Hentry; simpl in Hentry; lia).
  assert (row_text ≠ EmptyString ∨ num_rows t - num_cols t = 1) as Hrow.
  { apply orb_prop in Hr as [H%len_pos_nonempty|H%Z.eqb_eq]; [by left|by right]. }
  intros col by_row row forms Hcol' Hrow'.
  destruct (decide (col = col_text)) as [->|Hncol].
  - rewrite lookup_insert_eq in Hcol'. injection Hcol' as <-.
    destruct (decide (row = row_text)) as [->|Hnrow].
    + rewrite lookup_insert_eq in Hrow'. injection Hrow' as <-.
      split_and!; [done|done|]. exists coord, h, entry.
      split_and!; [done| |].
      * exists cell, path, h1, cols, h2. split_and!; try done.
        by apply cell_entry_nonempty_text.
      * intros form Hform. unfold OrderedSet.items.
        apply elem_of_new, elem_of_app. by right.
    + rewrite lookup_insert_ne in Hrow' by done.
      destruct (declension !! col_text) as [by_row0|] eqn:Hd; simpl in Hrow'.
      * by apply (Hall col_text by_row0).
      * by rewrite lookup_empty in Hrow'.
  - rewrite lookup_insert_ne in Hcol' by done. by apply (Hall col by_row).
Qed.

Lemma declension_loop_recorded t coords before rest s s' :
  sorted_coords coords = before ++ rest →
  Live.declension_loop t coords (∅, ∅) before = Some s →
  Live.declension_loop t coords s rest = Some s' →
  all_recorded t coords s.1 → all_recorded t coords s'.1.
Proof.
  revert before s. induction rest as [|coord rest IH]; intros before s Hsorted Hbefore; simpl.
  - by intros [= <-].
  - destruct (Live.declension_step t coords s coord) as [s1|] eqn:Hstep; [|done].
    intros Hloop Hall. apply (IH (before ++ [coord]) s1).
    + by rewrite <- app_assoc.
    + rewrite declension_loop_app, Hbefore. simpl. by rewrite Hstep.
    + done.
    + destruct s as [d h], s1 as [d1 h1].
      apply (declension_step_recorded t coords d h coord d1 h1); [done| |done].
      by exists before, rest, d.
Qed.

(** Once [parse_table] has returned, [parse_declension] raises
    nothing. *)
Lemma declension_step_total t coords s coord :
  coord ∈ sorted_coords coords → is_Some (Live.declension_step t coords s coord).
Proof.
  intros Hin. unfold Live.declension_step. destruct s as [declension h].
  destruct (proj1 (elem_of_sorted_coords coords coord) Hin) as [cell ->].
  destruct (is_content (language t) (Live.present h cell)
            && (cell_colspan (cell_tag cell) <=? num_cols t)); [|by eexists].
  unfold Live.cell_rows.
  destruct (last (sorted_coords coords)) as [[max_row max_col]|] eqn:Hl.
  - repeat case_match; by eexists.
  - apply last_None in Hl. rewrite Hl in Hin. by apply elem_of_nil in Hin.
Qed.

Lemma declension_loop_total t coords sorted s :
  (∀ coord, coord ∈ sorted → coord ∈ sorted_coords coords) →
  is_Some (Live.declension_loop t coords s sorted).
Proof.
  revert s. induction sorted as [|coord sorted IH]; intros s Hs; simpl.
  - by eexists.
  - destruct (declension_step_total t coords s coord) as [s1 ->].
    { apply Hs. left. }
    apply IH. intros c Hc. apply Hs. by right.
Qed.

Lemma parse_declension_total t :
  parse_table_error t = None → is_Some (Live.parse_declension t).
Proof.
  intros He. unfold Live.parse_declension. rewrite He.
  destruct (declension_loop_total t (parse_table t) (sorted_coords (parse_table t))
              (∅, ∅)) as [s ->]; [done|]. by eexists.
Qed.

(** C5, as the code has it. A (column-path, row-path) pair is in the
    assembled declension only if the column path is not empty, the row
    path is not empty or the table has exactly one more row than
    columns, and a turn of the loop recorded an entry under the pair:
    at a coordinate of the grid, with the cells as the calls of
    [cell_text] made before had left them, the cell was a content
    cell, its paths gave the two keys, and its text was not empty, so
    that its split on comma, slash and newline has at least one form.
    Every form of the entry is recorded, and the forms may be empty
    strings. *)
Theorem declension_pair_recorded (t : WTable) (declension : Declension)
    (col row : string) (by_row : gmap string (list string)) (forms : list string) :
  Live.parse_declension t = Some declension →
  declension !! col = Some by_row → by_row !! row = Some forms →
  recorded t (parse_table t) col row forms ∧ forms ≠ [].
Proof.
  unfold Live.parse_declension. intros Hp Hcol Hrow.
  destruct (parse_table_error t); [done|].
  destruct (Live.declension_loop t (parse_table t) (∅, ∅)
              (sorted_coords (parse_table t))) as [[d h]|] eqn:Hloop; [|done].
  injection Hp as ->.
  assert (recorded t (parse_table t) col row forms) as Hrec.
  { apply (declension_loop_recorded t (parse_table t) [] _ (∅, ∅) (declension, h)
             eq_refl eq_refl Hloop) with by_row; [|done|done].
    intros c b r f Hc. simpl in Hc. by rewrite lookup_empty in Hc. }
  split; [done|].
  destruct Hrec as (_ & _ & coord & h0 & entry & _ & Hrecords & Hsub).
  destruct Hrecords as (cell & path & h1 & cols & h2 & _ & _ & _ & _ & _ & _ & _ & _ & _ & Hne).
  destruct entry as [|form entry]; [done|].
  intros ->. specialize (Hsub form ltac:(left)). by apply elem_of_nil in Hsub.
Qed.

Lemma declension_pair_recorded_witness :
  recorded Samples.kot (parse_table Samples.kot) "singular" "nominative" ["kot"%string]
  ∧ ["kot"%string] ≠ [].
Proof.
  apply (declension_pair_recorded Samples.kot Samples.kot_declension "singular" "nominative"
           {[ "nominative"%string := ["kot"%string];
              "genitive"%string := ["kota"%string] ]} ["kot"%string]);
    reflexivity.
Defined.

(** C5, as stated, fails on the word forms: a content cell whose text is
    a lone comma is split into two empty forms, and the pair is recorded
    with no non-empty word form. *)
Lemma lone_comma_recorded :
  let comma := Samples.mk "td" None None None "," in
  parse_table Samples.lone_comma !! (1, 1)
  = Some {| cell_ref := (1, 1)%nat; cell_tag := comma |}
  ∧ cell_entry "Polish" comma = [EmptyString; EmptyString]
  ∧ Live.parse_declension Samples.lone_comma
    = Some {[ "singular"%string := {[ "nominative"%string := [EmptyString] ]} ]}.
Proof. simpl. split_and!; reflexivity. Qed.

(** The pruning at work. The cell <td rowspan="2"><sup>1</sup>kot</td>
    starts with a superscript, so it is no content cell when the loop
    reaches it in the row of the nominative. The row path of the cell
    on its right reads it, which removes the superscript; in the row
    of the genitive the same cell is a content cell and its form is
    recorded, under a column path that holds its own text, since the
    scan of the column above it meets the cell itself. Read as it is
    at first, the cell records nothing; read as it is at last, it
    records its form in the row of the nominative too. *)
Lemma pruned_cell_becomes_content :
  let t := Examples.sup_table in
  let cell := {| cell_ref := (1, 1)%nat; cell_tag := Examples.td_sup |} in
  parse_table t !! (1, 1) = Some cell ∧ parse_table t !! (2, 1) = Some cell
  ∧ is_content "Polish" (Live.present ∅ cell) = false
  ∧ is_content "Polish" (Live.present {[ (1, 1)%nat := 1%nat ]} cell) = true
  ∧ Live.parse_declension t
    = Some {[ "plural"%string :=
                {[ "nominative > kot"%string := ["koty"%string];
                   "genitive > kot"%string := ["kotow"%string] ]};
              "singular > kot"%string := {[ "genitive"%string := ["kot"%string] ]} ]}.
Proof. cbv zeta. split_and!; reflexivity. Qed.

End DeclensionFacts.

(** ** The lexical store: what edits and finds leave alone *)

Module FindFacts.
Import Parser OrderedSetFacts StoreFacts.

Lemma lookup_heading_set_heading_ne (st : Store) word language heading c
    word' language' heading' :
  (word', language', heading') ≠ (word, language, heading) →
  lookup_wiktionary_heading (set_heading st word language heading c)
    word' language' heading'
  = lookup_wiktionary_heading st word' language' heading'.
Proof.
  intros Hne. unfold set_heading.
  destruct (st !! word) as [we|] eqn:Hw; [|done].
  destruct (we !! language) as [le|] eqn:Hl; [|done].
  unfold lookup_wiktionary_heading, lookup_wiktionary_subentry.
  destruct (decide (word' = word)) as [->|Hw'].
  - rewrite lookup_insert_eq, Hw.
    destruct (decide (language' = language)) as [->|Hl'].
    + rewrite lookup_insert_eq, Hl.
      rewrite lookup_insert_ne; [done|]. congruence.
    + by rewrite lookup_insert_ne.
  - by rewrite lookup_insert_ne.
Qed.

(** X1. An edit of one heading changes no other heading, of this word or of
    any other: every other lookup gives what it gave before. *)
Theorem edit_leaves_other_headings (st : Store) (word language heading : string)
    (content : Content) (word' language' heading' : string) :
  (word', language', heading') ≠ (word, language, heading) →
  lookup_wiktionary_heading
    (edit_wiktionary_entry st word language heading content).1
    word' language' heading'
  = lookup_wiktionary_heading st word' language' heading'.
Proof.
  intros Hne.
  destruct (lookup_wiktionary_subentry st word language) as [le|] eqn:Hle.
  - rewrite (edit_existing _ _ _ _ _ _ Hle). simpl.
    by apply lookup_heading_set_heading_ne.
  - by rewrite (edit_missing _ _ _ _ _ Hle).
Qed.

Lemma edit_leaves_other_headings_witness :
  lookup_wiktionary_heading
    (edit_wiktionary_entry Samples.cat_store "cat" "English" "Etymology"
       [IStr "cattus"]).1 "cat" "English" "Noun"
  = Some [IPair "cat" None].
Proof.
  etrans; [apply (edit_leaves_other_headings Samples.cat_store
                    "cat" "English" "Etymology" [IStr "cattus"]
                    "cat" "English" "Noun"); congruence|].
  reflexivity.
Defined.

Lemma entry_word_loop_cases (st : Store) language word (nuwords : list string) :
  (entry_word_loop st language word nuwords = word
   ∧ ∀ u, u ∈ nuwords → lookup_wiktionary_entry st u language = None)
  ∨ (entry_word_loop st language word nuwords ∈ nuwords
     ∧ is_Some (lookup_wiktionary_entry st
                  (entry_word_loop st language word nuwords) language)).
Proof.
  induction nuwords as [|u nuwords IH]; simpl.
  - left. split; [done|]. intros u Hu. by apply elem_of_nil in Hu.
  - fold (lookup_wiktionary_entry st u language).
    destruct (lookup_wiktionary_entry st u language) as [e|] eqn:He.
    + right. split; [apply list_elem_of_here|]. rewrite He. by eexists.
    + destruct IH as [[Hw Hn]|[Hin Hs]].
      * left. split; [done|]. intros v Hv.
        apply elem_of_cons in Hv as [->|Hv]; [done|by apply Hn].
      * right. split; [by apply list_elem_of_further|done].
Qed.

(** X2. The entry word is the word, its lower-case form or its title-case
    form, and it is its own entry word: looking it up again changes
    nothing. *)
Theorem entry_word_idempotent (st : Store) (word language : string) :
  entry_word st word language ∈ [word; PyStr.lower word; PyStr.title word]
  ∧ entry_word st (entry_word st word language) language
    = entry_word st word language.
Proof.
  unfold entry_word at 1 3.
  destruct (entry_word_loop_cases st language word
              [word; PyStr.lower word; PyStr.title word]) as [[Hw Hn]|[Hin Hs]].
  - rewrite Hw. split; [apply list_elem_of_here|].
    unfold entry_word. by rewrite Hw.
  - split; [done|].
    set (v := entry_word_loop st language word _) in *.
    unfold entry_word.
    apply (entry_word_loop_hit st language v [] _ v); [|done].
    intros u Hu. by apply elem_of_nil in Hu.
Qed.

Section finds.
Variable fetch_page : string → string → option LangEntry.

Lemma lookup_add_wiktionary_entry (st : Store) word language word' language' :
  lookup_wiktionary_entry (add_wiktionary_entry fetch_page st word language).1
    word' language'
  = if decide ((word', language') = (entry_word st word language, language))
    then match fetch_page word language with
         | Some e => Some e
         | None => lookup_wiktionary_entry st word' language'
         end
    else lookup_wiktionary_entry st word' language'.
Proof.
  unfold add_wiktionary_entry, lookup_wiktionary_entry. simpl.
  set (w := entry_word st word language).
  destruct (decide (word' = w)) as [->|Hw].
  - rewrite lookup_insert_eq. simpl.
    destruct (decide (language' = language)) as [->|Hl].
    + rewrite decide_True by done.
      destruct (fetch_page word language) as [e|].
      * rewrite lookup_union_l'; [by rewrite lookup_singleton_eq|].
        rewrite lookup_singleton_eq. by eexists.
      * rewrite (left_id_L ∅ (∪)). by destruct (st !! w).
    + rewrite decide_False by congruence.
      destruct (fetch_page word language) as [e|].
      * rewrite lookup_union_r; [|by rewrite lookup_singleton_ne].
        by destruct (st !! w).
      * rewrite (left_id_L ∅ (∪)). by destruct (st !! w).
  - rewrite lookup_insert_ne by done.
    by rewrite decide_False by congruence.
Qed.

(** X3. A find that misses the store and fetches: it returns the fetched
    entry (the empty entry when the page has none), stores it under
    the entry word, and changes no other entry. *)
Theorem find_wiktionary_entry_effect (st : Store) (word language : string) :
  lookup_wiktionary_entry st word language = None →
  contains_punct word = false →
  let found := find_wiktionary_entry fetch_page st word language in
  found.2 = Some (default ∅ (fetch_page word language))
  ∧ ∀ word' language',
      lookup_wiktionary_entry found.1 word' language'
      = if decide ((word', language') = (entry_word st word language, language))
        then match fetch_page word language with
             | Some e => Some e
             | None => lookup_wiktionary_entry st word' language'
             end
        else lookup_wiktionary_entry st word' language'.
Proof.
  intros Hmiss Hp. unfold find_wiktionary_entry. rewrite Hmiss, Hp.
  pose proof (lookup_add_wiktionary_entry st word language) as Hl.
  destruct (add_wiktionary_entry fetch_page st word language) as [st' e] eqn:Ha.
  simpl in *. split; [|done].
  unfold add_wiktionary_entry in Ha. injection Ha as _ <-.
  destruct (fetch_page word language); simpl; [|done].
  by rewrite lookup_singleton_eq.
Qed.

(** X4. A word without punctuation and with no entry under any of its
    three case forms, once found. When the page has an entry for the
    language, it is memoised: the entry is returned and stored under
    the word, and every later find returns it without fetching and
    without touching the store. When the page has no entry for the
    language, nothing is memoised: the find returns the empty entry,
    the word still has no entry for the language, and every later
    find fetches the page again and returns what that fetch gives. *)
Theorem find_wiktionary_entry_memoised (st : Store) (word language : string) :
  contains_punct word = false →
  (∀ v, v ∈ [word; PyStr.lower word; PyStr.title word] →
        lookup_wiktionary_entry st v language = None) →
  let found := find_wiktionary_entry fetch_page st word language in
  found.2 = Some (default ∅ (fetch_page word language))
  ∧ match fetch_page word language with
    | Some e =>
        lookup_wiktionary_entry found.1 word language = Some e
        ∧ ∀ fetch_again,
            find_wiktionary_entry fetch_again found.1 word language
            = (found.1, Some e)
    | None =>
        lookup_wiktionary_entry found.1 word language = None
        ∧ ∀ fetch_again,
            (find_wiktionary_entry fetch_again found.1 word language).2
            = Some (default ∅ (fetch_again word language))
    end.
Proof.
  intros Hp Hn.
  assert (lookup_wiktionary_entry st word language = None) as Hmiss.
  { apply Hn, list_elem_of_here. }
  assert (entry_word st word language = word) as Hw.
  { unfold entry_word. by apply entry_word_loop_miss. }
  pose proof (lookup_add_wiktionary_entry st word language word language) as Hl.
  rewrite Hw, decide_True in Hl by done.
  unfold find_wiktionary_entry at 1. rewrite Hmiss, Hp.
  destruct (add_wiktionary_entry fetch_page st word language) as [st' e'] eqn:Ha.
  simpl in *.
  assert (e' = default ∅ (fetch_page word language)) as ->.
  { unfold add_wiktionary_entry in Ha. injection Ha as _ <-.
    destruct (fetch_page word language); simpl; [|done].
    by rewrite lookup_singleton_eq. }
  split; [done|].
  destruct (fetch_page word language) as [e|] eqn:Hf.
  - split; [done|].
    intros fetch_again. unfold find_wiktionary_entry. by rewrite Hl.
  - rewrite Hmiss in Hl. split; [done|].
    intros fetch_again. unfold find_wiktionary_entry. rewrite Hl, Hp.
    unfold add_wiktionary_entry. simpl.
    destruct (fetch_again word language); simpl; [|done].
    by rewrite lookup_singleton_eq.
Qed.
End finds.

Lemma find_wiktionary_entry_memoised_witness :
  ((find_wiktionary_entry Examples.kot_page ∅ "kot" "Polish").2
   = Some (default ∅ (Examples.kot_page "kot" "Polish"))
   ∧ lookup_wiktionary_entry
       (find_wiktionary_entry Examples.kot_page ∅ "kot" "Polish").1 "kot" "Polish"
     = Some {[ "Noun"%string := [IPair "kot" None] ]}
   ∧ ∀ fetch_again,
       find_wiktionary_entry fetch_again
         (find_wiktionary_entry Examples.kot_page ∅ "kot" "Polish").1 "kot" "Polish"
       = ((find_wiktionary_entry Examples.kot_page ∅ "kot" "Polish").1,
          Some {[ "Noun"%string := [IPair "kot" None] ]}))
  ∧ ((find_wiktionary_entry Samples.no_page ∅ "kot" "Polish").2 = Some ∅
     ∧ lookup_wiktionary_entry
         (find_wiktionary_entry Samples.no_page ∅ "kot" "Polish").1 "kot" "Polish"
       = None
     ∧ ∀ fetch_again,
         (find_wiktionary_entry fetch_again
            (find_wiktionary_entry Samples.no_page ∅ "kot" "Polish").1 "kot" "Polish").2
         = Some (default ∅ (fetch_again "kot"%string "Polish"%string))).
Proof.
  split.
  - apply (find_wiktionary_entry_memoised Examples.kot_page ∅ "kot" "Polish");
      [reflexivity|]. intros v Hv. reflexivity.
  - apply (find_wiktionary_entry_memoised Samples.no_page ∅ "kot" "Polish");
      [reflexivity|]. intros v Hv. reflexivity.
Defined.

Lemma find_wiktionary_entry_effect_witness :
  lookup_wiktionary_entry
    (find_wiktionary_entry Samples.no_page Samples.cat_store "CAT" "English").1
    "cat" "English"
  = Some {[ "Noun"%string := [IPair "cat" None] ]}.
Proof.
  etrans; [apply (find_wiktionary_entry_effect Samples.no_page Samples.cat_store
                    "CAT" "English"); reflexivity|].
  reflexivity.
Defined.

End FindFacts.

(** ** LanguageParser: lemmas, parts of speech, uninflection *)

Module LanguageFacts.
Import Parser LanguageParser PartsOfSpeech Uninflect OrderedSetFacts.

Section lemmas.
Variable fetch_page : string → string → option LangEntry.
Variable verify_word : string → string → bool.

Lemma word_lemmas_filtered (st st' : Store) word language poses lemmas :
  word_lemmas fetch_page verify_word st word language poses = (st', Returned lemmas) →
  ∃ l, NoDup l ∧ lemmas = verified verify_word language l.
Proof.
  unfold word_lemmas, OrderedSet.items.
  assert (NoDup (OrderedSet.new (A:=string) [])) as Hnil by apply NoDup_nil_2.
  destruct (PyStr.len word =? 0).
  { intros [= _ <-]. exists []. split; [apply NoDup_nil_2|reflexivity]. }
  set (w := entry_word st word language).
  destruct (lookup_word_inflections st w language).
  { intros [= _ <-]. exists (OrderedSet.add w (OrderedSet.new [])).
    split; [by apply NoDup_add|reflexivity]. }
  destruct (find_word_inflections fetch_page st w language) as [st1 [[c|]|e]];
    [| |done].
  { intros [= _ <-]. exists (OrderedSet.add w (OrderedSet.new [])).
    split; [by apply NoDup_add|reflexivity]. }
  destruct (find_stemwords fetch_page st1 w language poses) as [st2 [stemwords|]];
    [|done].
  destruct (OrderedSet.size (OrderedSet.update stemwords (OrderedSet.new [])) =? 0)%nat.
  - destruct (find_headwords fetch_page st2 w language poses) as [st3 [headwords|e]];
      [|done].
    intros [= _ <-].
    exists (OrderedSet.update headwords (OrderedSet.update stemwords (OrderedSet.new []))).
    split; [by do 2 apply NoDup_update|reflexivity].
  - intros [= _ <-]. exists (OrderedSet.update stemwords (OrderedSet.new [])).
    split; [by apply NoDup_update|reflexivity].
Qed.

(** X5. Every lemma [word_lemmas] returns passes [verify_word] for the
    language, and no lemma is returned twice. *)
Theorem word_lemmas_verified (st st' : Store) (word language : string)
    (poses : option (list string)) (lemmas : list string) :
  word_lemmas fetch_page verify_word st word language poses = (st', Returned lemmas) →
  NoDup lemmas ∧ Forall (λ lemma, verify_word lemma language = true) lemmas.
Proof.
  intros (l & Hl & ->)%word_lemmas_filtered. unfold verified. split.
  - apply NoDup_ListNoDup, List.NoDup_filter, NoDup_ListNoDup, Hl.
  - apply Forall_forall. intros x Hx%list_elem_of_In%filter_In. tauto.
Qed.

(** X25. A word with a stored declension is its own lemma: [word_lemmas]
    returns its entry word alone, when it passes [verify_word], and
    nothing otherwise; no page is fetched and the store is not
    touched. *)
Theorem word_lemmas_declined (st : Store) (word language : string)
    (poses : option (list string)) (declension : Content) :
  word ≠ EmptyString →
  lookup_word_inflections st (entry_word st word language) language = Some declension →
  word_lemmas fetch_page verify_word st word language poses
  = (st, Returned (if verify_word (entry_word st word language) language
                   then [entry_word st word language] else [])).
Proof.
  intros Hw Hd. unfold word_lemmas.
  replace (PyStr.len word =? 0) with false.
  2:{ symmetry. apply Z.eqb_neq. destruct word; [done|]. unfold PyStr.len. simpl. lia. }
  by rewrite Hd.
Qed.

(** X6. [lemmatize] returns the word it was given, or a word that passes
    [verify_word]. *)
Theorem lemmatize_word_or_verified (st st' : Store) (word language : string)
    (pos : option (list string)) (lemma : string) :
  lemmatize fetch_page verify_word st word language pos = (st', Returned lemma) →
  lemma = word ∨ verify_word lemma language = true.
Proof.
  unfold lemmatize.
  destruct (word_lemmas fetch_page verify_word st word language pos)
    as [st1 [lemmas|e]] eqn:Hw; [|done].
  intros [= _ <-].
  apply word_lemmas_filtered in Hw as (l & _ & ->).
  destruct (verified verify_word language l) as [|x xs] eqn:Hv; [by left|].
  right. simpl.
  assert (In x (verified verify_word language l)) as Hin by (rewrite Hv; by left).
  unfold verified in Hin. apply filter_In in Hin. tauto.
Qed.

(** X7. The parts of speech of a word are exactly the headings of its
    entry that are parts of speech, each listed once; a word without
    entry has none. *)
Theorem word_poses_headings (st : Store) (word language : string) :
  let found := find_wiktionary_entry fetch_page st word language in
  let poses := (word_poses fetch_page st word language).2 in
  NoDup poses
  ∧ ∀ pos, pos ∈ poses
      ↔ pos ∈ PARTS_OF_SPEECH ∧ ∃ e, found.2 = Some e ∧ is_Some (e !! pos).
Proof.
  simpl. unfold word_poses.
  destruct (find_wiktionary_entry fetch_page st word language) as [st' [e|]]; simpl.
  - split; [apply NoDup_new|].
    intros pos. unfold OrderedSet.items. rewrite elem_of_new.
    rewrite list_elem_of_In, filter_In, <- list_elem_of_In, bool_decide_eq_true.
    rewrite list_elem_of_fmap. split.
    + intros [([h c] & -> & Hin%elem_of_map_to_list) Hp]. simpl in *.
      split; [done|]. exists e. split; [done|]. by eexists.
    + intros [Hp (e' & [= <-] & [c Hc])]. split; [|done].
      exists (pos, c). split; [done|]. by apply elem_of_map_to_list.
  - split; [apply NoDup_nil_2|].
    intros pos. split; [by intros ?%elem_of_nil|].
    by intros [_ (e & ? & _)].
Qed.

Variable self_language : string.

Lemma uninflect_loop_Some (st : Store) word language entries w :
  uninflect_loop st word language entries = Some w →
  ∃ c, lookup_word_inflections st w language = Some c ∧ IStr word ∈ c.
Proof.
  induction entries as [|[w' we] entries IH]; simpl; [done|].
  destruct (lookup_word_inflections st w' language) as [c|] eqn:Hc; [|done].
  case_bool_decide as Hin; [|done].
  intros [= <-]. by exists c.
Qed.

Lemma uninflect_loop_None (st : Store) word language entries w we c :
  uninflect_loop st word language entries = None →
  (w, we) ∈ entries →
  lookup_word_inflections st w language = Some c → IStr word ∉ c.
Proof.
  induction entries as [|[w' we'] entries IH]; simpl.
  - by intros _ ?%elem_of_nil.
  - intros Hl Hin Hc.
    apply elem_of_cons in Hin as [[= <- <-]|Hin].
    + rewrite Hc in Hl. by case_bool_decide.
    + apply IH; [|done..].
      destruct (lookup_word_inflections st w' language); [|done].
      by case_bool_decide.
Qed.

(** X8. When the declension of some stored word lists the word,
    [uninflect] returns such a stored word and leaves the store
    alone. *)
Theorem uninflect_declined (st : Store) (word language w : string) (c : Content) :
  lookup_word_inflections st w language = Some c →
  IStr word ∈ c →
  ∃ w' c',
    uninflect fetch_page verify_word self_language st word language
    = (st, Returned w')
    ∧ lookup_word_inflections st w' language = Some c'
    ∧ IStr word ∈ c'.
Proof.
  intros Hc Hin. unfold uninflect.
  destruct (uninflect_loop st word language (map_to_list st)) as [w'|] eqn:Hl.
  - destruct (uninflect_loop_Some _ _ _ _ _ Hl) as (c' & Hc' & Hin').
    by exists w', c'.
  - exfalso.
    assert (is_Some (st !! w)) as [we Hwe].
    { unfold lookup_word_inflections in Hc. by destruct (st !! w); [eexists|]. }
    apply (uninflect_loop_None _ _ _ _ w we c Hl); [|done..].
    by apply elem_of_map_to_list.
Qed.

(** X9. When no stored declension lists the word, [uninflect] is
    [lemmatize] in the parser's own language, whatever language was
    passed. *)
Theorem uninflect_fallback_own_language (st : Store) (word language : string) :
  (∀ w c, lookup_word_inflections st w language = Some c → IStr word ∉ c) →
  uninflect fetch_page verify_word self_language st word language
  = lemmatize fetch_page verify_word st word self_language None.
Proof.
  intros Hn. unfold uninflect.
  destruct (uninflect_loop st word language (map_to_list st)) as [w'|] eqn:Hl; [|done].
  destruct (uninflect_loop_Some _ _ _ _ _ Hl) as (c' & Hc' & Hin').
  by destruct (Hn _ _ Hc').
Qed.
End lemmas.

Lemma word_lemmas_verified_witness :
  NoDup ["drive"%string]
  ∧ Forall (λ lemma, Samples.any_word lemma "English" = true) ["drive"%string].
Proof.
  apply (word_lemmas_verified Samples.no_page Samples.any_word
           Samples.driven_store Samples.driven_store "driven" "English"
           (Some ["Verb"%string])).
  reflexivity.
Defined.

Lemma word_lemmas_declined_witness :
  word_lemmas Samples.no_page Samples.any_word Examples.kot_store "Kot" "Polish" None
  = (Examples.kot_store, Returned ["kot"%string]).
Proof.
  etrans; [apply (word_lemmas_declined Samples.no_page Samples.any_word
                    Examples.kot_store "Kot" "Polish" None [IStr "kot"; IStr "kota"]);
           [discriminate|reflexivity]|reflexivity].
Defined.

Lemma lemmatize_word_or_verified_witness :
  "drive"%string = "driven"%string ∨ Samples.any_word "drive" "English" = true.
Proof.
  apply (lemmatize_word_or_verified Samples.no_page Samples.any_word
           Samples.driven_store Samples.driven_store "driven" "English"
           (Some ["Verb"%string])).
  reflexivity.
Defined.

Lemma uninflect_declined_witness :
  ∃ w' c',
    uninflect Samples.no_page Samples.any_word "Polish" Examples.kot_store
      "kota" "Polish"
    = (Examples.kot_store, Returned w')
    ∧ lookup_word_inflections Examples.kot_store w' "Polish" = Some c'
    ∧ IStr "kota" ∈ c'.
Proof.
  apply (uninflect_declined Samples.no_page Samples.any_word "Polish"
           Examples.kot_store "kota" "Polish" "kot" [IStr "kot"; IStr "kota"]).
  - reflexivity.
  - apply list_elem_of_further, list_elem_of_here.
Defined.

Lemma uninflect_fallback_own_language_witness :
  uninflect Samples.no_page Samples.any_word "English" Samples.driven_store
    "driven" "Polish"
  = (Samples.driven_store, Returned "drive"%string).
Proof.
  etrans; [apply (uninflect_fallback_own_language Samples.no_page Samples.any_word
                    "English" Samples.driven_store "driven" "Polish")|reflexivity].
  intros w c Hc. exfalso. revert Hc.
  unfold lookup_word_inflections, Samples.driven_store.
  destruct (decide (w = "driven"%string)) as [->|Hw].
  - by rewrite lookup_singleton_eq.
  - by rewrite lookup_singleton_ne.
Defined.

End LanguageFacts.

(** ** Helpers: list filling, parentheticals, URLs *)

Module HelperFacts.
Import Helpers Urls.

(** X10. [fill_list] never shortens the list: the result has the larger of
    the list's length and the limit, starts with the list, and holds
    the item everywhere after it. *)
Theorem fill_list_length {A} (lst : list A) (limit : Z) (item : A) :
  Z.of_nat (length (fill_list lst limit item)) = Z.max (Z.of_nat (length lst)) limit
  ∧ ∀ i : nat,
      fill_list lst limit item !! i
      = if decide (i < length lst)%nat then lst !! i
        else if decide (Z.of_nat i < limit) then Some item else None.
Proof.
  unfold fill_list, add_item. split.
  - rewrite length_app, length_replicate. lia.
  - intros i. destruct (decide (i < length lst)%nat) as [Hi|Hi].
    + by rewrite lookup_app_l.
    + rewrite lookup_app_r by lia.
      destruct (decide (Z.of_nat i < limit)) as [Hl|Hl].
      * apply lookup_replicate_2. lia.
      * apply lookup_replicate_None. lia.
Qed.

(** *** Parentheticals *)

Lemma paren_sub_from_length b s :
  (String.length (paren_sub_from b s) ≤ String.length s)%nat.
Proof.
  revert b. induction s as [|a s IH]; intros b; simpl; [done|].
  destruct b.
  - destruct (is_close a); [specialize (IH false)|specialize (IH true)]; lia.
  - destruct (is_open a && closes s); simpl;
      [specialize (IH true)|specialize (IH false)]; lia.
Qed.

Lemma paren_sub_same_length s :
  String.length (paren_sub s) = String.length s → paren_sub s = s.
Proof.
  unfold paren_sub. induction s as [|a s IH]; simpl; [done|].
  destruct (is_open a && closes s); simpl.
  - pose proof (paren_sub_from_length true s). lia.
  - intros [= Hl]. by rewrite IH.
Qed.

Lemma paren_sub_shorter s :
  paren_sub s ≠ s → (String.length (paren_sub s) < String.length s)%nat.
Proof.
  intros Hne. pose proof (paren_sub_from_length false s) as Hle.
  fold (paren_sub s) in Hle.
  destruct (decide (String.length (paren_sub s) = String.length s)) as [He|He]; [|lia].
  by apply paren_sub_same_length in He.
Qed.

Lemma paren_sub_stable_cons a s :
  paren_sub (String a s) = String a s →
  (is_open a && closes s) = false ∧ paren_sub s = s.
Proof.
  unfold paren_sub. simpl.
  destruct (is_open a && closes s).
  - intros He. pose proof (paren_sub_from_length true s) as Hl.
    rewrite He in Hl. simpl in Hl. lia.
  - by intros [= ->].
Qed.

Lemma paren_sub_stable_suffix pre s :
  paren_sub (pre +:+ s) = pre +:+ s → paren_sub s = s.
Proof.
  induction pre as [|a pre IH]; simpl; [done|].
  intros [_ Hs]%paren_sub_stable_cons. by apply IH.
Qed.

Lemma stable_no_close s :
  paren_sub s = s → closes s = false → PyStr.any_char is_close s = false.
Proof.
  induction s as [|a s IH]; simpl; [done|].
  intros [Ha Hs]%paren_sub_stable_cons.
  destruct (is_close a) eqn:Hc; [done|].
  destruct (is_open a) eqn:Ho; simpl in *.
  - intros _. by apply IH.
  - by apply IH.
Qed.

Lemma clean_loop_more_fuel fuel fuel' last new r :
  clean_loop fuel last new = Some r → (fuel ≤ fuel')%nat →
  clean_loop fuel' last new = Some r.
Proof.
  revert fuel' last new. induction fuel as [|fuel IH]; intros fuel' last new; simpl; [done|].
  intros Hr Hle. destruct fuel' as [|fuel']; [lia|]. simpl.
  destruct (String.eqb last new); [done|].
  apply IH; [done|lia].
Qed.

Lemma clean_loop_terminates fuel last :
  (String.length last < fuel)%nat →
  ∃ r, clean_loop fuel last (paren_sub last) = Some r
       ∧ paren_sub r = r
       ∧ (String.length r ≤ String.length last)%nat.
Proof.
  revert last. induction fuel as [|fuel IH]; intros last Hlt; [lia|]. simpl.
  destruct (String.eqb last (paren_sub last)) eqn:He.
  - apply String.eqb_eq in He. exists (paren_sub last).
    split_and!; [done|by rewrite <- He at 1 2|rewrite <- He; lia].
  - apply String.eqb_neq in He.
    assert (paren_sub last ≠ last) as Hne by congruence.
    apply paren_sub_shorter in Hne.
    destruct (IH (paren_sub last)) as (r & Hr & Hs & Hl); [lia|].
    exists r. split_and!; [done..|lia].
Qed.

(** X11. [clean_parentheticals] terminates: more fuel than the text has
    characters is enough. Its result is no longer than the text and
    holds no parenthetical: the pattern matches nowhere in it, and no
    opening parenthesis is followed, however far, by a closing one. *)
Theorem clean_parentheticals_terminates (s : string) :
  ∃ r, (∀ fuel, (String.length s < fuel)%nat → clean_parentheticals fuel s = Some r)
       ∧ paren_sub r = r
       ∧ (∀ pre post, r = pre +:+ String "("%char post →
                      PyStr.any_char is_close post = false)
       ∧ (String.length r ≤ String.length s)%nat.
Proof.
  destruct (clean_loop_terminates (S (String.length s)) s) as (r & Hr & Hs & Hl); [lia|].
  exists r. split_and!; [|done| |done].
  - intros fuel Hf. unfold clean_parentheticals.
    apply (clean_loop_more_fuel _ _ _ _ _ Hr). lia.
  - intros pre post ->.
    apply paren_sub_stable_suffix, paren_sub_stable_cons in Hs as [Hc Hp].
    by apply stable_no_close.
Qed.

(** *** URLs *)

(** X12. [lemma_url] fills the one placeholder of its template with the
    language; [ipa_url] passes two arguments to a template that has one
    placeholder, so the formatting fails for every language: not all
    arguments are converted. *)
Theorem ipa_url_not_all_converted (language : string) :
  lemma_url language
  = Text ("https://en.wiktionary.org/w/index.php?title=Category:"
          +:+ language +:+ "_lemmas")
  ∧ ipa_url language = NotAllConverted.
Proof. split; reflexivity. Qed.

End HelperFacts.

(** ** The grid: where its cells come from, and regular tables *)

Module GridOrigin.
Import Table SpecWording GridFacts Notions Invariants.

(** X13. A [th] cell is never both a header and a content cell. It is
    content exactly when its first link has an [href] that ends with
    the language; it is a header exactly when it has no link, or its
    first link has an [href] that ends neither with the language nor
    with "redlink=1". A [th] whose first link has no [href], or a red
    link, is neither. *)
Theorem th_header_or_content (lang : string) (cell : Tag) :
  tag_name cell = "th"%string →
  is_header lang cell && is_content lang cell = false
  ∧ (is_content lang cell = true
     ↔ ∃ href, tag_link cell = Some (Some href)
               ∧ PyStr.last_chars (String.length lang) href = lang)
  ∧ (is_header lang cell = true
     ↔ tag_link cell = None
       ∨ ∃ href, tag_link cell = Some (Some href)
                 ∧ PyStr.last_chars (String.length lang) href ≠ lang
                 ∧ PyStr.last_chars 9 href ≠ "redlink=1"%string).
Proof.
  intros Hn. unfold is_header, is_content, contains_content, link_contains_content,
    ends_with_language.
  rewrite Hn. cbn -[PyStr.last_chars].
  destruct (tag_link cell) as [[href|]|]; cbn -[PyStr.last_chars].
  - destruct (String.eqb_spec (PyStr.last_chars (String.length lang) href) lang)
      as [He|He]; cbn -[PyStr.last_chars].
    + split_and!; [done| |].
      * split; [intros _; by exists href|done].
      * split; [done|]. intros [H|(h & H & Hne & _)]; congruence.
    + split_and!; [apply andb_false_r| |].
      * split; [done|]. intros (h & H & Hh). congruence.
      * destruct (String.eqb_spec (PyStr.last_chars 9 href) "redlink=1") as [Hr|Hr];
          cbn -[PyStr.last_chars].
        -- split; [done|]. intros [H|(h & H & _ & Hne)]; congruence.
        -- split; [|done]. intros _. right. by exists href.
  - split_and!; [done| |].
    + split; [done|]. intros (h & H & _). congruence.
    + split; [done|]. intros [H|(h & H & _)]; congruence.
  - split_and!; [done| |].
    + split; [done|]. intros (h & H & _). congruence.
    + split; [|done]. intros _. by left.
Qed.

Lemma th_header_or_content_witness :
  is_header "Polish" (Samples.th "Nominative")
  && is_content "Polish" (Samples.th "Nominative") = false
  ∧ (is_content "Polish" (Samples.th "Nominative") = true
     ↔ ∃ href, tag_link (Samples.th "Nominative") = Some (Some href)
               ∧ PyStr.last_chars (String.length "Polish") href = "Polish"%string)
  ∧ (is_header "Polish" (Samples.th "Nominative") = true
     ↔ tag_link (Samples.th "Nominative") = None
       ∨ ∃ href, tag_link (Samples.th "Nominative") = Some (Some href)
                 ∧ PyStr.last_chars (String.length "Polish") href ≠ "Polish"%string
                 ∧ PyStr.last_chars 9 href ≠ "redlink=1"%string).
Proof. apply (th_header_or_content "Polish" (Samples.th "Nominative")). reflexivity. Defined.

(** *** Where the scans end *)

Lemma scan_down_ge (d : Grid) c r cols rn rr :
  let sc := scan_down d c r cols rn rr in
  r <= scan_r sc ∧ scan_c sc = c.
Proof.
  revert r rn. induction rr as [|rr IH]; intros r rn; simpl.
  - case_bool_decide; simpl; lia.
  - case_bool_decide; simpl; [|lia].
    specialize (IH (r + 1) (rn + 1)). cbv zeta in IH. lia.
Qed.

Lemma scan_right_ge (d : Grid) r c cn cr rows :
  let sc := scan_right d r c cn cr rows in
  r <= scan_r sc ∧ c <= scan_c sc ∧ cn <= it_next (scan_cols sc).
Proof.
  revert c cn. induction cr as [|cr IH]; intros c cn; simpl.
  - case_bool_decide; simpl; [|lia].
    pose proof (scan_down_ge d c r {| it_next := cn; it_rem := 0 |}
                  (it_next rows) (it_rem rows)) as [H1 H2].
    pose proof (scan_down_rows d c r {| it_next := cn; it_rem := 0 |}
                  (it_next rows) (it_rem rows)) as (_ & _ & _ & H3).
    cbv zeta in *. rewrite H3. simpl. lia.
  - case_bool_decide; simpl; [|lia].
    specialize (IH (c + 1) (cn + 1)). cbv zeta in IH. lia.
Qed.

Lemma iter_advance_next n it : it_next it <= it_next (iter_advance n it).
Proof.
  revert it. induction n as [|n IH]; intros it; simpl; [lia|].
  destruct (iter_next it) as [[r it']|] eqn:Hn; [|lia].
  apply iter_next_Some in Hn as (_ & _ & Hle & _). specialize (IH it'). lia.
Qed.

Lemma skip_empty_cols_rest nrows cell rest cell' rest' :
  skip_empty_cols nrows cell rest = (cell', rest') →
  ∀ x, x ∈ rest' → x ∈ rest.
Proof.
  intros [_ [k ->]]%skip_empty_cols_spec x [i Hi]%list_elem_of_lookup.
  rewrite lookup_drop in Hi. by apply list_elem_of_lookup_2 in Hi.
Qed.

Lemma rows_cells_lookup t (r : nat) cells cell :
  rows_cells t !! r = Some cells → cell ∈ cells →
  In cell (concat (rows_cells t)) ∧ (cell_ref cell).1 = r.
Proof.
  intros Hr Hc. split.
  - apply in_concat. exists cells. split; apply list_elem_of_In; [|done].
    by apply list_elem_of_lookup_2 in Hr.
  - unfold rows_cells in Hr. rewrite list_lookup_imap in Hr.
    destruct (table_rows t !! r) as [row|]; [|done]. injection Hr as <-.
    unfold indexed_cells in Hc.
    apply list_elem_of_lookup in Hc as [i Hi]. rewrite list_lookup_imap in Hi.
    destruct (row_cells row !! i) as [tag|]; [|done]. by injection Hi as <-.
Qed.

Lemma placements_from_rows t : Forall (from_rows t) (placements t).
Proof.
  unfold placements, parse_table_state.
  set (I := λ p : PState, Forall (from_rows t) (placed p) ∧ 0 <= it_next (row_iter p)).
  set (J := λ s : CState,
         I (cs_outer s) ∧ 0 <= it_next (col_iter s)
         ∧ ∀ cell, cell ∈ cells_iter s →
             In cell (concat (rows_cells t)) ∧ Z.of_nat (cell_ref cell).1 <= cs_r s).
  assert (∀ fuel p, I p → I (rows_loop fuel (rows_cells t) (num_rows t) p)) as Hloop.
  { apply rows_loop_ind. intros p r it' [Hp H0] _ Hn.
    apply iter_next_Some in Hn as (-> & _ & Hle & _).
    unfold row_body, rows_get.
    replace (it_next (row_iter p) <? 0) with false by (symmetry; apply Z.ltb_ge; lia).
    destruct (rows_cells t !! Z.to_nat (it_next (row_iter p))) as [cells|] eqn:Hget.
    - apply (cols_loop_ind (num_rows t) J).
      + clear. intros s c it'' ([Hp H0] & Hc0 & Hcells) _ Hn.
        apply iter_next_Some in Hn as (-> & _ & Hle & _).
        unfold col_body. simpl.
        destruct (cells_iter s) as [|cell0 rest0] eqn:Hci.
        { unfold J, I. simpl. rewrite Hci. split_and!; try done. lia. }
        destruct (skip_empty_cols (num_rows t) cell0 rest0) as [cell rest] eqn:Hskip.
        pose proof (skip_empty_cols_spec _ _ _ _ _ Hskip) as [Hin _].
        pose proof (skip_empty_cols_rest _ _ _ _ _ Hskip) as Hrest.
        assert (∀ x, x ∈ rest → In x (concat (rows_cells t))
                                ∧ Z.of_nat (cell_ref x).1 <= cs_r s) as Hrest'.
        { intros x Hx. apply Hcells. right. by apply Hrest. }
        destruct (rowspan_raises (cell_tag cell)).
        { unfold J, I. simpl. split_and!; try done. lia. }
        destruct (is_col_empty (num_rows t) (cell_tag cell)).
        { unfold J, I. simpl. split_and!; try done. lia. }
        pose proof (scan_right_ge (table_dict (cs_outer s)) (cs_r s)
                      (it_next (col_iter s)) (it_next it'') (it_rem it'')
                      (row_iter (cs_outer s))) as (G1 & G2 & G3).
        pose proof (scan_right_rows (table_dict (cs_outer s)) (cs_r s)
                      (it_next (col_iter s)) (it_next it'') (it_rem it'')
                      (row_iter (cs_outer s))) as (_ & R2 & _).
        set (sc := scan_right _ _ _ _ _ _) in *.
        destruct (Hcells cell Hin) as [Hc1 Hc2].
        assert (∀ x, x ∈ rest → In x (concat (rows_cells t))
                                ∧ Z.of_nat (cell_ref x).1 <= scan_r sc) as Hrest''.
        { intros x Hx. destruct (Hrest' x Hx). split; [done|lia]. }
        destruct (scan_free sc); [destruct (colspan_raises (cell_tag cell))|];
          unfold J, I; simpl.
        * split_and!; try done; lia.
        * split_and!; try done; try lia.
          -- apply Forall_app. split; [done|]. apply Forall_singleton.
             unfold from_rows. simpl. split_and!; [done|lia|lia].
          -- destruct (negb _ || negb _); [|lia].
             etrans; [|apply iter_advance_next]. lia.
        * split_and!; try done; lia.
      + unfold J, I, range_iter. simpl. split_and!; [done|lia|lia|].
        intros cell Hc. destruct (rows_cells_lookup t _ _ _ Hget Hc) as [H1 H2].
        split; [done|]. rewrite H2. lia.
    - unfold I. simpl. split; [done|lia]. }
  apply Hloop. unfold I, range_iter. simpl. split; [constructor|lia].
Qed.

(** X14. Every entry of the grid is a cell of the table's rows that is not
    an empty column; it sits at coordinates that are not negative, in
    its own row or below. *)
Theorem parse_table_cells_from_rows (t : WTable) (k : Z * Z) (cell : Cell) :
  parse_table t !! k = Some cell →
  In cell (concat (rows_cells t))
  ∧ is_col_empty (num_rows t) (cell_tag cell) = false
  ∧ Z.of_nat (cell_ref cell).1 <= k.1
  ∧ 0 <= k.2.
Proof.
  rewrite parse_table_replay. intros (p & Hp & Hc & <-)%lookup_replay_Some.
  pose proof (placements_from_rows t) as Hf.
  pose proof (placements_well_placed t) as Hw.
  rewrite Forall_forall in Hf, Hw.
  destruct (Hf p Hp) as (F1 & F2 & F3). destruct (Hw p Hp) as (_ & _ & _ & W).
  destruct Hc as [C1 C2]. split_and!; [done|done|lia|lia].
Qed.

Lemma parse_table_cells_from_rows_witness :
  In Samples.cell_C (concat (rows_cells Samples.overlapping))
  ∧ is_col_empty (num_rows Samples.overlapping) (cell_tag Samples.cell_C) = false
  ∧ Z.of_nat (cell_ref Samples.cell_C).1 <= 1
  ∧ 0 <= 1.
Proof.
  apply (parse_table_cells_from_rows Samples.overlapping (1, 1) Samples.cell_C).
  reflexivity.
Defined.



End GridOrigin.

(** ** Regular tables *)

Module RegularTables.
Import Table SpecWording GridFacts Notions Invariants.

(** A regular table has no span that [int] rejects. *)
Lemma regular_no_error t : regular t → parse_table_error t = None.
Proof.
  intros Hreg. apply parse_table_no_error. unfold integer_spans.
  eapply Forall_impl; [exact Hreg|]. intros row [_ Hrow]. simpl.
  eapply Forall_impl; [exact Hrow|]. intros tag (Hr & Hc & _). simpl.
  unfold rowspan_raises, colspan_raises, cell_rowspan, cell_colspan in *.
  by destruct (attr_rowspan tag), (attr_colspan tag).
Qed.

Lemma rowspan_one_accepted (cell : Tag) :
  cell_rowspan cell = 1 → rowspan_raises cell = false.
Proof. unfold cell_rowspan, rowspan_raises. by destruct (attr_rowspan cell). Qed.

Lemma colspan_one_accepted (cell : Tag) :
  cell_colspan cell = 1 → colspan_raises cell = false.
Proof. unfold cell_colspan, colspan_raises. by destruct (attr_colspan cell). Qed.

Lemma skip_empty_cols_plain nrows cell rest :
  rowspan_raises (cell_tag cell) = false →
  is_col_empty nrows (cell_tag cell) = false →
  skip_empty_cols nrows cell rest = (cell, rest).
Proof. intros Hr He. destruct rest; simpl; by rewrite Hr, He. Qed.

Lemma scan_right_free_at (d : Grid) r c cn cr rows :
  d !! (r, c) = None →
  scan_right d r c cn cr rows
  = {| scan_free := true; scan_r := r; scan_c := c;
       scan_cols := {| it_next := cn; it_rem := cr |}; scan_rows := rows |}.
Proof.
  intros Hd. destruct cr; simpl; rewrite bool_decide_eq_false_2; try done;
    rewrite Hd; by intros [? ?].
Qed.

(** One turn of the column loop on a cell without spans, at a free
    coordinate: the cell is stored there and nothing else moves. *)
Lemma col_body_plain nrows c s cell rest :
  cells_iter s = cell :: rest →
  is_col_empty nrows (cell_tag cell) = false →
  table_dict (cs_outer s) !! (cs_r s, c) = None →
  cell_rowspan (cell_tag cell) = 1 → cell_colspan (cell_tag cell) = 1 →
  1 <= nrows → 1 <= cur_num_cols (cs_outer s) →
  let s' := col_body nrows c s in
  table_dict (cs_outer s') = <[(cs_r s, c) := cell]> (table_dict (cs_outer s))
  ∧ cur_num_cols (cs_outer s') = cur_num_cols (cs_outer s)
  ∧ row_iter (cs_outer s') = row_iter (cs_outer s)
  ∧ error (cs_outer s') = error (cs_outer s)
  ∧ cs_r s' = cs_r s ∧ col_iter s' = col_iter s ∧ cells_iter s' = rest.
Proof.
  intros Hc He Hd Hrs Hcs Hn Hm. unfold col_body. rewrite Hc.
  pose proof (rowspan_one_accepted _ Hrs) as Hra.
  pose proof (colspan_one_accepted _ Hcs) as Hca.
  rewrite skip_empty_cols_plain, Hra, He by done.
  rewrite scan_right_free_at by done. simpl. rewrite Hca.
  rewrite Hrs, Hcs, !Z.min_l by done. simpl.
  destruct (col_iter s). done.
Qed.

Section regular.
Variable t : WTable.
Hypothesis Hregular : regular t.

Let n := length (table_rows t).
Let m := Z.to_nat (num_cols t).

Lemma regular_row (r : nat) cells :
  rows_cells t !! r = Some cells →
  length cells = m
  ∧ ∀ (c : nat) cell, cells !! c = Some cell →
      cell_rowspan (cell_tag cell) = 1 ∧ cell_colspan (cell_tag cell) = 1
      ∧ is_col_empty (num_rows t) (cell_tag cell) = false.
Proof.
  unfold rows_cells. rewrite list_lookup_imap.
  destruct (table_rows t !! r) as [row|] eqn:Hrow; [|done]. intros [= <-].
  unfold regular in Hregular. rewrite Forall_forall in Hregular.
  destruct (Hregular row) as [Hw Hp]; [by apply list_elem_of_lookup_2 in Hrow|].
  unfold indexed_cells. rewrite length_imap. split; [subst m; lia|].
  intros c cell. rewrite list_lookup_imap.
  destruct (row_cells row !! c) as [tag|] eqn:Htag; [|done]. intros [= <-]. simpl.
  rewrite Forall_forall in Hp. apply Hp. by apply list_elem_of_lookup_2 in Htag.
Qed.

(** The grid once the rows above [r] and the first [c] cells of row
    [r] are stored. *)
Let G (r c : nat) (k : Z * Z) : option Cell :=
  if decide ((0 <= k.1 < Z.of_nat r ∧ 0 <= k.2 < Z.of_nat m)
             ∨ (k.1 = Z.of_nat r ∧ 0 <= k.2 < Z.of_nat c))
  then cell_at t k else None.

Lemma cols_loop_regular (r : nat) cells (fuel c : nat) s :
  rows_cells t !! r = Some cells →
  (c + fuel = m)%nat →
  cs_r s = Z.of_nat r →
  col_iter s = {| it_next := Z.of_nat c; it_rem := fuel |} →
  cells_iter s = drop c cells →
  cur_num_cols (cs_outer s) = num_cols t →
  error (cs_outer s) = None →
  (∀ k, table_dict (cs_outer s) !! k = G r c k) →
  let s' := cols_loop fuel (num_rows t) s in
  cur_num_cols (cs_outer s') = num_cols t
  ∧ row_iter (cs_outer s') = row_iter (cs_outer s)
  ∧ error (cs_outer s') = error (cs_outer s)
  ∧ ∀ k, table_dict (cs_outer s') !! k = G r m k.
Proof.
  intros Hcells. revert c s.
  induction fuel as [|fuel IH]; intros c s Hcf Hr Hit Hci Hnc Herr Hd.
  - simpl. replace m with c by lia. done.
  - simpl. rewrite Herr, Hit. unfold iter_next. simpl.
    destruct (regular_row r cells Hcells) as [Hlen Hplain].
    destruct (lookup_lt_is_Some_2 cells c) as [cell Hcell]; [lia|].
    destruct (Hplain c cell Hcell) as (Hrs & Hcs & He).
    set (s0 := {| cs_outer := cs_outer s; cs_r := cs_r s;
                  col_iter := {| it_next := Z.of_nat c + 1; it_rem := fuel |};
                  cells_iter := cells_iter s |}).
    assert (rows_cells t !! r = Some cells) as Hrow by done.
    apply list_elem_of_lookup_2 in Hrow as Hrow'.
    assert (r < n)%nat as Hrn.
    { apply lookup_lt_Some in Hrow. unfold rows_cells in Hrow.
      by rewrite length_imap in Hrow. }
    destruct (col_body_plain (num_rows t) (Z.of_nat c) s0 cell (drop (S c) cells))
      as (B1 & B2 & B3 & B4 & B5 & B6 & B7); simpl.
    { rewrite Hci. by apply drop_S. }
    { done. }
    { rewrite Hd, Hr. unfold G. simpl. rewrite decide_False; [done|lia]. }
    { done. }
    { done. }
    { unfold num_rows. fold n. lia. }
    { rewrite Hnc. subst m. lia. }
    simpl in *.
    destruct (IH (S c) (col_body (num_rows t) (Z.of_nat c) s0)) as (I1 & I2 & I3 & I4).
    + lia.
    + by rewrite B5.
    + rewrite B6. f_equal. lia.
    + by rewrite B7.
    + by rewrite B2.
    + by rewrite B4.
    + intros k. rewrite B1, Hr.
      destruct (decide (k = (Z.of_nat r, Z.of_nat c))) as [->|Hk].
      * rewrite lookup_insert_eq. unfold G. simpl.
        rewrite decide_True by lia. unfold cell_at. simpl.
        rewrite decide_True by lia. rewrite !Nat2Z.id, Hcells. simpl. done.
      * rewrite lookup_insert_ne by done. rewrite Hd. unfold G.
        destruct k as [k1 k2]. simpl in *.
        destruct (decide (k1 = Z.of_nat r ∧ k2 = Z.of_nat c)) as [[-> ->]|Hne]; [done|].
        repeat case_decide; try done; lia.
    + split_and!; [done|by rewrite I2, B3|by rewrite I3, B4|done].
Qed.

Lemma rows_loop_regular (fuel r : nat) p :
  (r + fuel = n)%nat →
  cur_num_cols p = num_cols t →
  error p = None →
  row_iter p = {| it_next := Z.of_nat r; it_rem := fuel |} →
  (∀ k, table_dict p !! k = G r 0 k) →
  ∀ k, table_dict (rows_loop fuel (rows_cells t) (num_rows t) p) !! k = G n 0 k.
Proof.
  revert r p. induction fuel as [|fuel IH]; intros r p Hrf Hnc He Hit Hd.
  - simpl. replace n with r by lia. done.
  - simpl. rewrite He, Hit. unfold iter_next. simpl.
    unfold row_body, rows_get. simpl.
    replace (Z.of_nat r <? 0) with false by (symmetry; apply Z.ltb_ge; lia).
    rewrite Nat2Z.id.
    destruct (lookup_lt_is_Some_2 (rows_cells t) r) as [cells Hcells].
    { unfold rows_cells. rewrite length_imap. fold n. lia. }
    rewrite Hcells.
    set (s := {| cs_outer := _; cs_r := Z.of_nat r; col_iter := _; cells_iter := cells |}).
    destruct (cols_loop_regular r cells m 0 s Hcells) as (C1 & C2 & C3 & C4);
      try done.
    { simpl. unfold range_iter. by rewrite Hnc. }
    replace (Z.to_nat (cur_num_cols p)) with m by (by rewrite Hnc).
    apply (IH (S r)); [lia|done|by rewrite C3|rewrite C2; simpl; f_equal; lia|].
    intros k. rewrite C4. unfold G. destruct k as [k1 k2]. simpl.
    repeat case_decide; try done; lia.
Qed.

Lemma parse_table_cell_at (k : Z * Z) : parse_table t !! k = cell_at t k.
Proof.
  unfold parse_table, parse_table_state.
  rewrite (rows_loop_regular n 0); try done.
  - unfold G, cell_at. destruct k as [k1 k2]. simpl.
    case_decide as H1; case_decide as H2; try done; try lia.
    destruct (rows_cells t !! Z.to_nat k1) as [cells|] eqn:Hcells; [|done]. simpl.
    destruct (regular_row _ _ Hcells) as [Hlen _].
    apply lookup_lt_Some in Hcells as Hlt.
    unfold rows_cells in Hlt. rewrite length_imap in Hlt. fold n in Hlt.
    symmetry. apply lookup_ge_None_2. lia.
  - simpl. unfold range_iter. f_equal. unfold num_rows. fold n. lia.
  - intros k'. simpl. rewrite lookup_empty. unfold G. simpl.
    rewrite decide_False; [done|lia].
Qed.
End regular.

(** X15. On a regular table (every row as wide as the table, no cell with a
    span, no cell an empty column) the grid is the table: the entry at
    row [r], column [c] is the [c]-th cell of row [r], and there is no
    entry outside the table. *)
Theorem parse_table_regular (t : WTable) :
  regular t →
  (∀ r c : nat,
      parse_table t !! (Z.of_nat r, Z.of_nat c)
      = rows_cells t !! r ≫= λ cells, cells !! c)
  ∧ ∀ k, is_Some (parse_table t !! k) →
         0 <= k.1 < num_rows t ∧ 0 <= k.2 < num_cols t.
Proof.
  intros Hreg. split.
  - intros r c. rewrite parse_table_cell_at by done. unfold cell_at. simpl.
    rewrite decide_True by lia. by rewrite !Nat2Z.id.
  - intros [k1 k2]. rewrite parse_table_cell_at by done. unfold cell_at. simpl.
    case_decide as Hk; [|by intros [? ?]].
    destruct (rows_cells t !! Z.to_nat k1) as [cells|] eqn:Hcells; [|by intros [? ?]].
    simpl. intros Hc%lookup_lt_is_Some.
    destruct (regular_row t Hreg _ _ Hcells) as [Hlen _].
    apply lookup_lt_Some in Hcells.
    unfold rows_cells in Hcells. rewrite length_imap in Hcells.
    unfold num_rows. lia.
Qed.

Lemma parse_table_regular_witness :
  parse_table Samples.kot !! (1, 2)
  = Some {| cell_ref := (1, 2)%nat; cell_tag := Samples.td "koty" |}.
Proof.
  etrans; [apply (parse_table_regular Samples.kot) with (r := 1%nat) (c := 2%nat)
          |reflexivity].
  repeat (constructor; try done).
Defined.

End RegularTables.

(** ** Column paths *)

Module ColumnLabels.
Import Table SpecWording OrderedSetFacts LabelFacts Notions Invariants.

Lemma elem_of_prev_cols (coord k : Z * Z) (d : Grid) :
  k ∈ prev_cols coord d ↔ is_Some (d !! k) ∧ k.2 = coord.2 ∧ k.1 < coord.1.
Proof.
  unfold prev_cols. rewrite list_elem_of_In, filter_In, <- list_elem_of_In.
  rewrite elem_of_sorted_coords, andb_true_iff, Z.eqb_eq, Z.ltb_lt. tauto.
Qed.

(** The scan of [cell_cols] visits the entries of the column above the
    coordinate, from the nearest row to the farthest. *)
Lemma col_scan_order (coord : Z * Z) (d : Grid) :
  StronglySorted (λ a b, b.1 < a.1) (rev (prev_cols coord d))
  ∧ ∀ k, k ∈ rev (prev_cols coord d)
         ↔ is_Some (d !! k) ∧ k.2 = coord.2 ∧ k.1 < coord.1.
Proof.
  split.
  - apply (StronglySorted_rev (λ a b : Z * Z, a.1 < b.1)).
    apply (StronglySorted_impl (λ a b, coord_le a b ∧ a ≠ b)).
    + unfold prev_cols. apply StronglySorted_filter.
      apply StronglySorted_strict; [apply sorted_coords_sorted|apply NoDup_sorted_coords].
    + intros [a1 a2] [b1 b2] (_ & Ha & _)%elem_of_prev_cols (_ & Hb & _)%elem_of_prev_cols.
      unfold coord_le. simpl in *. intros [Hle Hne].
      destruct (decide (a1 = b1)) as [->|]; [|lia].
      exfalso. apply Hne. f_equal. lia.
  - intros k. rewrite elem_of_rev. apply elem_of_prev_cols.
Qed.

Section scan.
Variable lang : string.
Variable d : Grid.
Variable ncols : Z.

Let text (cell : Cell) : string := cell_text lang (cell_tag cell).
Let q := col_qualifies lang ncols.


End scan.


End ColumnLabels.

(** ** The declension holds every eligible cell *)

Module DeclensionComplete.
Import Table SpecWording OrderedSetFacts GridFacts LabelFacts DeclensionFacts Notions Invariants.

Lemma nonempty_len_pos (s : string) : s ≠ EmptyString → (0 <? PyStr.len s) = true.
Proof. destruct s; [done|]. intros _. apply Z.ltb_lt. unfold PyStr.len. simpl. lia. Qed.

(** *** Cells that the pruning leaves as they are *)

Lemma pruned_stable (cell : Tag) : stable_cell cell → pruned cell = cell.
Proof. unfold stable_cell, pruned. by intros ->. Qed.

Lemma present_stable (h : Live.Heap) (cell : Cell) :
  stable_cell (cell_tag cell) → Live.present h cell = cell_tag cell.
Proof.
  intros Hs. unfold Live.present.
  induction (Live.calls h cell) as [|n IH]; simpl; [done|].
  rewrite IH. by apply pruned_stable.
Qed.

(** The cells of the grid of a stable table are stable. *)
Lemma stable_parse_table t : stable t → stable_grid (parse_table t).
Proof.
  intros Hs k cell Hk. rewrite parse_table_replay in Hk.
  apply lookup_replay_Some in Hk as (p & Hp & _ & <-).
  pose proof (GridOrigin.placements_from_rows t) as Hf. rewrite Forall_forall in Hf.
  destruct (Hf p Hp) as (Hin & _).
  apply in_concat in Hin as (cells & Hcells%list_elem_of_In & Hcell%list_elem_of_In).
  by apply (rows_cells_tags t stable_cell cells).
Qed.

(** On a grid of stable cells the scans read what the scans of [Table]
    read, whatever calls were made before. *)
Lemma rows_scan_stable (lang : string) (d : Grid) max_row coords rows header_yet h :
  stable_grid d →
  (Live.rows_scan lang d max_row coords rows header_yet h).1
  = rows_scan lang d max_row coords rows header_yet.
Proof.
  intros Hd. revert rows header_yet h.
  induction coords as [|k coords IH]; intros rows header_yet h; simpl; [done|].
  destruct (d !! k) as [cell|] eqn:Hk; [|done].
  rewrite (present_stable h cell) by (by apply (Hd k)).
  destruct (is_header lang (cell_tag cell)).
  - destruct ((cell_rowspan (cell_tag cell) <=? max_row)
              && negb (PyStr.len (cell_text lang (cell_tag cell)) =? 0)); [|apply IH].
    case_bool_decide; apply IH.
  - destruct header_yet; [done|apply IH].
Qed.

Lemma cols_scan_stable (lang : string) (d : Grid) ncols coords cols header_yet h :
  stable_grid d →
  (Live.cols_scan lang d ncols coords cols header_yet h).1
  = cols_scan lang d ncols coords cols header_yet.
Proof.
  intros Hd. revert cols header_yet h.
  induction coords as [|k coords IH]; intros cols header_yet h; simpl; [done|].
  destruct (d !! k) as [cell|] eqn:Hk; [|done].
  rewrite !present_stable by (by apply (Hd k)).
  destruct (is_header lang (cell_tag cell)).
  - destruct ((cell_colspan (cell_tag cell) <? ncols)
              && negb (PyStr.len (cell_text lang (cell_tag cell)) =? 0)); apply IH.
  - destruct header_yet; [done|apply IH].
Qed.

Lemma cell_rows_stable (lang : string) (coord : Z * Z) (d : Grid) (h : Live.Heap) :
  stable_grid d →
  fst <$> Live.cell_rows lang coord d h = cell_rows lang coord d.
Proof.
  intros Hd. unfold Live.cell_rows, cell_rows.
  destruct (last (sorted_coords d)) as [[max_row max_col]|]; [|done].
  simpl. by rewrite rows_scan_stable.
Qed.

Lemma cell_cols_stable (lang : string) (ncols : Z) (coord : Z * Z) (d : Grid) (h : Live.Heap) :
  stable_grid d →
  (Live.cell_cols lang ncols coord d h).1 = cell_cols lang ncols coord d.
Proof. intros Hd. unfold Live.cell_cols, cell_cols. by apply cols_scan_stable. Qed.

(** *** What a turn records stays recorded *)

Lemma declension_step_keeps t coords s coord s' col row entry :
  Live.declension_step t coords s coord = Some s' →
  holds_forms s.1 col row entry → holds_forms s'.1 col row entry.
Proof.
  unfold Live.declension_step. destruct s as [declension h]. intros Hstep Hh.
  destruct (coords !! coord) as [cell|]; [|done].
  destruct (is_content (language t) (Live.present h cell)
            && (cell_colspan (cell_tag cell) <=? num_cols t)); [|by injection Hstep as <-].
  destruct (Live.cell_rows (language t) coord coords h) as [[path h1]|]; [|done].
  destruct (Live.cell_cols (language t) (num_cols t) coord coords h1) as [cols h2].
  set (col_text := line_text cols) in *.
  set (row_text := line_text path) in *.
  unfold Live.cell_entry in Hstep. cbn [fst snd] in Hstep.
  set (entry' := cell_entry (language t) (Live.present h2 cell)) in *.
  destruct ((0 <? Z.of_nat (length entry')) && (0 <? PyStr.len col_text));
    [|by injection Hstep as <-].
  destruct ((0 <? PyStr.len row_text) || (num_rows t - num_cols t =? 1));
    [|by injection Hstep as <-].
  injection Hstep as <-. simpl in *.
  destruct Hh as (by_row & forms & Hc & Hr & Hnd & Hsub).
  destruct (decide (col = col_text)) as [->|Hncol].
  - rewrite Hc. simpl.
    destruct (decide (row = row_text)) as [->|Hnrow].
    + rewrite Hr. simpl. eexists _, _.
      rewrite lookup_insert_eq. split; [done|]. rewrite lookup_insert_eq.
      split; [done|]. split; [apply NoDup_new|].
      intros form Hf. unfold OrderedSet.items. apply elem_of_new, elem_of_app.
      left. by apply Hsub.
    + eexists _, forms. rewrite lookup_insert_eq. split; [done|].
      by rewrite lookup_insert_ne.
  - exists by_row, forms. by rewrite lookup_insert_ne.
Qed.

Lemma declension_loop_keeps t coords sorted s s' col row entry :
  Live.declension_loop t coords s sorted = Some s' →
  holds_forms s.1 col row entry → holds_forms s'.1 col row entry.
Proof.
  revert s. induction sorted as [|coord sorted IH]; intros s; simpl.
  - by intros [= <-].
  - destruct (Live.declension_step t coords s coord) as [s1|] eqn:Hstep; [|done].
    intros Hloop Hh. apply (IH s1); [done|].
    by apply (declension_step_keeps t coords s coord).
Qed.

(** A turn that meets the conditions records its entry. *)
Lemma declension_step_records t coords declension h coord col row entry s' :
  records t coords h coord col row entry →
  col ≠ EmptyString →
  row ≠ EmptyString ∨ num_rows t - num_cols t = 1 →
  Live.declension_step t coords (declension, h) coord = Some s' →
  holds_forms s'.1 col row entry.
Proof.
  intros (cell & path & h1 & cols & h2 & Hcell & Hcontent & Hspan & Hpath & Hcols
          & -> & -> & Htext & -> & Hentry) Hcol Hrow.
  unfold Live.declension_step. rewrite Hcell, Hcontent. simpl.
  replace (cell_colspan (cell_tag cell) <=? num_cols t) with true
    by (symmetry; by apply Z.leb_le).
  rewrite Hpath, Hcols. unfold Live.cell_entry. cbn [fst snd].
  set (entry := cell_entry (language t) (Live.present h2 cell)) in *.
  replace (0 <? Z.of_nat (length entry)) with true.
  2:{ symmetry. apply Z.ltb_lt. destruct entry; [done|]. simpl. lia. }
  rewrite (nonempty_len_pos _ Hcol). simpl.
  replace ((0 <? PyStr.len (line_text path)) || (num_rows t - num_cols t =? 1)) with true.
  2:{ symmetry. apply orb_true_iff.
      destruct Hrow as [H|H]; [left; by apply nonempty_len_pos|right; by apply Z.eqb_eq]. }
  intros [= <-]. simpl. eexists _, _.
  rewrite lookup_insert_eq. split; [done|]. rewrite lookup_insert_eq.
  split; [done|]. split; [apply NoDup_new|].
  intros form Hf. unfold OrderedSet.items. apply elem_of_new, elem_of_app. by right.
Qed.

Lemma declension_loop_records t coords coord h col row entry s' :
  heap_at t coords coord h →
  records t coords h coord col row entry →
  col ≠ EmptyString →
  row ≠ EmptyString ∨ num_rows t - num_cols t = 1 →
  Live.declension_loop t coords (∅, ∅) (sorted_coords coords) = Some s' →
  holds_forms s'.1 col row entry.
Proof.
  intros (before & after & d0 & Hsorted & Hbefore) Hrec Hcol Hrow.
  rewrite Hsorted, declension_loop_app, Hbefore.
  cbn [mbind option_bind Live.declension_loop].
  destruct (Live.declension_step t coords (d0, h) coord) as [s1|] eqn:Hstep; [|done].
  intros Hloop. apply (declension_loop_keeps t coords after s1); [done|].
  by apply (declension_step_records t coords d0 h coord).
Qed.

(** X17. The declension leaves out no eligible cell. When the loop reaches
    a coordinate whose cell, as the calls of [cell_text] made before
    have left it, is a content cell no wider than the table, whose
    column path makes a non-empty key, whose row path makes a
    non-empty key or whose table has one more row than columns, and
    whose entry has a form, then all the forms of the entry are in the
    declension that is returned, under these two keys, in a list
    without duplicates. *)
Theorem declension_holds_eligible_cells (t : WTable) (declension : Declension)
    (coord : Z * Z) (h : Live.Heap) (col row : string) (entry : list string) :
  Live.parse_declension t = Some declension →
  heap_at t (parse_table t) coord h →
  records t (parse_table t) h coord col row entry →
  col ≠ EmptyString →
  row ≠ EmptyString ∨ num_rows t - num_cols t = 1 →
  holds_forms declension col row entry.
Proof.
  unfold Live.parse_declension. intros Hp Hheap Hrec Hcol Hrow.
  destruct (parse_table_error t); [done|].
  destruct (Live.declension_loop t (parse_table t) (∅, ∅)
              (sorted_coords (parse_table t))) as [s'|] eqn:Hloop; [|done].
  injection Hp as <-.
  by apply (declension_loop_records t (parse_table t) coord h).
Qed.

Lemma declension_holds_eligible_cells_witness :
  holds_forms Samples.kot_declension "plural" "genitive" ["kotow"%string].
Proof.
  set (h := ({[ (0, 1) := 2; (0, 2) := 1; (1, 0) := 2; (1, 1) := 2; (1, 2) := 1;
                (2, 0) := 1; (2, 1) := 1 ]} : Live.Heap)%nat).
  set (h1 := (<[(2, 0) := 2]> h : Live.Heap)%nat).
  set (h2 := (<[(0, 2) := 2]> (<[(1, 2) := 2]> h1) : Live.Heap)%nat).
  apply (declension_holds_eligible_cells Samples.kot Samples.kot_declension (2, 2) h).
  - vm_compute. reflexivity.
  - exists (take 8 (sorted_coords (parse_table Samples.kot))), [],
      {[ "singular"%string := {[ "nominative"%string := ["kot"%string];
                                 "genitive"%string := ["kota"%string] ]};
         "plural"%string := {[ "nominative"%string := ["koty"%string] ]} ]}.
    split; vm_compute; reflexivity.
  - exists {| cell_ref := (2, 2)%nat; cell_tag := Samples.td "kotow" |},
      ["Genitive"%string], h1, ["Plural"%string], h2.
    split_and!; try (vm_compute; reflexivity); vm_compute; discriminate.
  - vm_compute. discriminate.
  - left. vm_compute. discriminate.
Defined.

End DeclensionComplete.

(** ** Heading lookups by prefix, and the depth of the morpheme traversal *)

Module SubentryFacts.
Import Parser LanguageParser OrderedSetFacts StoreFacts LemmaFacts MorphemeFacts Invariants.

Lemma find_prefixed_found heading (sections : list (string * Content)) c :
  find_prefixed heading sections = Some c →
  ∃ h, (h, c) ∈ sections ∧ PyStr.first_chars (String.length heading) h = heading.
Proof.
  induction sections as [|[h c'] sections IH]; simpl; [done|].
  destruct (String.eqb_spec (PyStr.first_chars (String.length heading) h) heading)
    as [He|_].
  - intros [= <-]. exists h. split; [left|done].
  - intros (h' & Hin & Hp)%IH. exists h'. split; [by right|done].
Qed.

Lemma find_prefixed_no_match heading (sections : list (string * Content)) h c :
  find_prefixed heading sections = None → (h, c) ∈ sections →
  PyStr.first_chars (String.length heading) h ≠ heading.
Proof.
  induction sections as [|[h' c'] sections IH]; simpl.
  - by intros _ ?%elem_of_nil.
  - destruct (String.eqb_spec (PyStr.first_chars (String.length heading) h') heading)
      as [He|Hne]; [done|].
    intros Hn [[= -> ->]|Hin]%elem_of_cons; [done|by apply IH].
Qed.

Section subentry.
Variable fetch_page : string → string → option LangEntry.

(** X18. A heading of a stored entry is looked up exactly, and otherwise
    by prefix: the result is the content of the heading itself when
    the entry has it, else the content of some heading that starts
    with the requested one, and nothing only when no heading starts
    with it. The store is not touched. *)
Theorem find_wiktionary_subentry_by_prefix (st : Store)
    (word language heading : string) (e : LangEntry) :
  lookup_wiktionary_entry st word language = Some e →
  contains_punct word = false →
  ∃ r,
    find_wiktionary_subentry fetch_page st word language heading = (st, Returned r)
    ∧ (∀ c, e !! heading = Some c → r = Some c)
    ∧ (∀ c, r = Some c →
         ∃ h, e !! h = Some c ∧ PyStr.first_chars (String.length heading) h = heading)
    ∧ (r = None ↔
         ∀ h, is_Some (e !! h) → PyStr.first_chars (String.length heading) h ≠ heading).
Proof.
  intros He Hp. unfold find_wiktionary_subentry, find_wiktionary_entry.
  rewrite Hp, He.
  assert (PyStr.first_chars (String.length heading) heading = heading) as Hself.
  { unfold PyStr.first_chars. clear. induction heading as [|a s IH]; simpl; [done|].
    by rewrite IH. }
  destruct (e !! heading) as [section|] eqn:Hh.
  - exists (Some section). split_and!; [done|by intros c [= <-]| |].
    + intros c [= <-]. by exists heading.
    + split; [done|]. intros Hn. exfalso. apply (Hn heading); [by eexists|done].
  - destruct (find_prefixed heading (map_to_list e)) as [c|] eqn:Hf.
    + exists (Some c). split_and!; [done|done| |].
      * intros c' [= <-].
        apply find_prefixed_found in Hf as (h & Hin%elem_of_map_to_list & Hpre).
        by exists h.
      * split; [done|]. intros Hn. exfalso.
        apply find_prefixed_found in Hf as (h & Hin%elem_of_map_to_list & Hpre).
        apply (Hn h); [by eexists|done].
    + exists None. split_and!; [done|done|done|].
      split; [|done]. intros _ h [c Hc].
      apply (find_prefixed_no_match heading (map_to_list e) h c Hf).
      by apply elem_of_map_to_list.
Qed.
End subentry.

Lemma find_wiktionary_subentry_by_prefix_witness :
  ∃ r,
    find_wiktionary_subentry Samples.no_page Examples.numbered_store
      "kot" "Polish" "Etymology"
    = (Examples.numbered_store, Returned r)
    ∧ (∀ c, ({[ "Etymology 1"%string := [IStr "kotu"] ]} : LangEntry) !! "Etymology"%string
            = Some c → r = Some c)
    ∧ (∀ c, r = Some c →
         ∃ h, ({[ "Etymology 1"%string := [IStr "kotu"] ]} : LangEntry) !! h = Some c
              ∧ PyStr.first_chars (String.length "Etymology") h = "Etymology"%string)
    ∧ (r = None ↔
         ∀ h, is_Some (({[ "Etymology 1"%string := [IStr "kotu"] ]} : LangEntry) !! h) →
              PyStr.first_chars (String.length "Etymology") h ≠ "Etymology"%string).
Proof.
  apply (find_wiktionary_subentry_by_prefix Samples.no_page Examples.numbered_store
           "kot" "Polish" "Etymology"); reflexivity.
Defined.

Lemma size_list_to_set_le (l : list Item) :
  (size (list_to_set l : gset Item) ≤ length l)%nat.
Proof.
  induction l as [|a l IH]; [by rewrite list_to_set_nil, size_empty|].
  rewrite list_to_set_cons. cbn [length].
  rewrite size_union_alt, size_singleton.
  assert (size (list_to_set l ∖ {[ a ]} : gset Item) ≤ size (list_to_set l : gset Item))%nat.
  { apply subseteq_size. intros y Hy. by apply elem_of_difference in Hy as [? _]. }
  lia.
Qed.

Section one_level.
Variable pop : gset Item → option (Item * gset Item).
Hypothesis pop_ok : pop_spec pop.
Variable st : Store.
Variable language : string.

(** Once every token of [todo] is among the morphemes, the loop only
    drains [todo]. *)
Lemma morph_loop_drains (n : nat) (s : MState) :
  (size (todo s) ≤ n)%nat →
  (∀ x, x ∈ todo s → x ∈ morphemes s) →
  morph_loop pop (S n) st language s = Some (Returned (morphemes s)).
Proof.
  revert s. induction n as [|n IH]; intros s Hsize Hsub.
  - assert (todo s = ∅) as Ht.
    { apply leibniz_equiv, size_empty_inv. lia. }
    simpl. rewrite Ht. by rewrite (pop_empty pop pop_ok).
  - cbn [morph_loop]. pose proof (pop_ok (todo s)) as Hp.
    destruct (pop (todo s)) as [[x t']|]; [|done].
    destruct Hp as [Hx ->].
    unfold morph_body.
    replace (OrderedSet.in_items_set x (morphemes s)) with true.
    2:{ symmetry. unfold OrderedSet.in_items_set. apply bool_decide_eq_true.
        by apply Hsub. }
    rewrite andb_false_r. cbn [andb].
    apply (IH {| morphemes := morphemes s; todo := todo s ∖ {[ x ]} |}); simpl.
    + assert (size (todo s ∖ {[ x ]}) < size (todo s))%nat; [|lia].
      apply subset_size. by apply subset_difference_elem_of.
    + intros y Hy. apply Hsub. by apply elem_of_difference in Hy as [? _].
Qed.

(** X19. [all_word_morphemes] goes one level deep. For a word that is not
    empty and has no punctuation, whose etymology is a list of
    strings, the result is the word followed by the morphemes of its
    own etymology, each once, in their order: the morphemes are
    recorded before they are queued, so when the loop reaches them
    they count as seen and their own etymologies are not read. This
    holds for every order in which the set yields its elements. *)
Theorem all_word_morphemes_one_level (word : string) (wm : Content) :
  word ≠ EmptyString →
  contains_punct word = false →
  word_morphemes st word language = Some wm →
  Forall (λ it, ∃ s, it = IStr s) wm →
  ∀ fuel, (length wm + 2 ≤ fuel)%nat →
    all_word_morphemes pop fuel st word language
    = Some (Returned (OrderedSet.update wm [IStr word])).
Proof.
  intros Hw Hp Hwm _ fuel Hfuel.
  apply (morph_loop_more_fuel pop st language (S (S (length wm)))); [|lia].
  unfold all_word_morphemes. cbn [morph_loop todo morphemes].
  rewrite (pop_singleton pop pop_ok).
  unfold morph_body.
  replace (item_len (IStr word) =? 0) with false.
  2:{ symmetry. apply Z.eqb_neq. destruct word; [done|].
      unfold item_len, PyStr.len. simpl. lia. }
  replace (OrderedSet.in_items_set (IStr word) (OrderedSet.new [])) with false by done.
  cbn [item_contains_punct]. rewrite Hp, Hwm. cbn [negb andb].
  apply (morph_loop_drains (length wm)
           {| morphemes := OrderedSet.update wm (OrderedSet.add (IStr word) (OrderedSet.new []));
              todo := ∅ ∪ list_to_set wm |}); simpl.
  - rewrite (left_id_L ∅ (∪)).
    etrans; [|apply (size_list_to_set_le wm)]. done.
  - intros x. rewrite (left_id_L ∅ (∪)), elem_of_list_to_set.
    intros Hx. apply elem_of_update. by left.
Qed.
End one_level.

Lemma all_word_morphemes_one_level_witness :
  all_word_morphemes pop_first 3 Samples.cycle_store "alpha" "English"
  = Some (Returned [IStr "alpha"; IStr "beta"]).
Proof.
  etrans; [apply (all_word_morphemes_one_level pop_first pop_first_spec
                    Samples.cycle_store "English" "alpha" [IStr "beta"]);
           [discriminate|reflexivity|reflexivity| |simpl; lia]|reflexivity].
  repeat constructor. by eexists.
Defined.

End SubentryFacts.

(** ** The entries of a page *)

Module PageFacts.
Import Parser Page OrderedSetFacts Notions.

Lemma before_underscore_app (name suffix : string) :
  PyStr.any_char (λ a, Ascii.eqb a "_"%char) name = false →
  before_underscore (name +:+ String "_"%char suffix) = name.
Proof.
  induction name as [|a name IH]; simpl; [done|].
  destruct (Ascii.eqb a "_"%char); [done|]. simpl. intros H. by rewrite IH.
Qed.

(** X20. [desired_header] reads a headline id up to its first underscore, so
    a numbered heading is wanted exactly when its name is; and no
    wanted name is one that [rename_header] renames. *)
Theorem desired_header_ignores_suffix (name suffix : string) :
  PyStr.any_char (λ a, Ascii.eqb a "_"%char) name = false →
  desired_header (name +:+ String "_"%char suffix) = desired_header name
  ∧ (desired_header name = true → rename_header name = name).
Proof.
  intros Hn. split.
  - unfold desired_header. rewrite before_underscore_app by done.
    f_equal.
    assert (before_underscore name = name) as ->; [|done].
    clear suffix. induction name as [|a name IH]; simpl in *; [done|].
    destruct (Ascii.eqb a "_"%char); [done|]. by rewrite IH.
  - unfold desired_header. intros Hd%bool_decide_eq_true.
    assert (before_underscore name = name) as Hb.
    { clear suffix Hd. induction name as [|a name IH]; simpl in *; [done|].
      destruct (Ascii.eqb a "_"%char); [done|]. by rewrite IH. }
    rewrite Hb in Hd. unfold HEADER_NAMES, PARTS_OF_SPEECH in Hd.
    repeat (apply elem_of_cons in Hd as [->|Hd]; [reflexivity|]).
    by apply elem_of_nil in Hd.
Qed.

Lemma desired_header_ignores_suffix_witness :
  desired_header "Etymology_2" = desired_header "Etymology"
  ∧ (desired_header "Etymology" = true → rename_header "Etymology" = "Etymology"%string).
Proof. apply (desired_header_ignores_suffix "Etymology" "2"). reflexivity. Defined.

Lemma heading_entry_parsed content header language :
  heading_entry content header language ≠ [] → parsed_heading header.
Proof.
  unfold heading_entry, parsed_heading.
  destruct (String.eqb_spec (PyStr.first_chars 4 header) "Etym"); [by left|].
  destruct (String.eqb_spec (PyStr.first_chars 6 header) "Pronun"); [by right; left|].
  case_bool_decide; [by right; right; left|].
  destruct (String.eqb_spec (PyStr.first_chars 6 header) "Declen"); [by right; right; right|].
  done.
Qed.

Lemma page_entries_loop_well_formed language tags entries :
  well_formed_entries language entries →
  well_formed_entries language (page_entries_loop language tags entries).
Proof.
  revert entries. induction tags as [|tag tags IH]; intros entries Hwf; simpl; [done|].
  destruct (String.eqb (hl_lang tag) ""); [by apply IH|].
  destruct (String.eqb (PyStr.first_chars 10 (hl_lang tag)) "Navigation"); [done|].
  case_bool_decide as Hl; [|by apply IH].
  destruct (hl_parent tag) as [[text heading]|]; [|by apply IH].
  destruct (length (heading_entry heading (rename_header text) (hl_lang tag)) =? 0)%nat
    eqn:Hlen; simpl; [by apply IH|].
  apply IH. intros lang by_heading Hlang.
  destruct (decide (lang = hl_lang tag)) as [->|Hne].
  - rewrite lookup_insert_eq in Hlang. injection Hlang as <-. split.
    + intros l ->. destruct Hl as [?|[= ->]]; done.
    + intros name content Hname.
      destruct (decide (name = rename_header text)) as [->|Hnn].
      * rewrite lookup_insert_eq in Hname. injection Hname as <-.
        assert (heading_entry heading (rename_header text) (hl_lang tag) ≠ []) as Hne.
        { intros He. rewrite He in Hlen. done. }
        split_and!; [by apply (heading_entry_parsed heading _ (hl_lang tag))| |apply NoDup_new].
        unfold OrderedSet.order_items. intros Hnil.
        apply update_nil_inv in Hnil as [Happ _].
        apply app_eq_nil in Happ as [_ ?]. done.
      * rewrite lookup_insert_ne in Hname by done.
        destruct (entries !! hl_lang tag) as [by_heading|] eqn:He; simpl in Hname.
        -- by apply (Hwf _ _ He).
        -- by rewrite lookup_empty in Hname.
  - rewrite lookup_insert_ne in Hlang by done. by apply Hwf.
Qed.

(** X21. The dictionary [page_entries] builds for a page: when a language is
    given it has no other key; every heading in it is an etymology, a
    pronunciation, a part of speech or a declension; and every content
    is a non-empty list without duplicates. *)
Theorem page_entries_well_formed (tags : list Headline) (language : option string)
    (lang : string) (by_heading : LangEntry) :
  page_entries tags language !! lang = Some by_heading →
  (∀ l, language = Some l → lang = l)
  ∧ ∀ name content, by_heading !! name = Some content →
      parsed_heading name ∧ content ≠ [] ∧ NoDup content.
Proof.
  apply (page_entries_loop_well_formed language tags ∅).
  intros l b Hl. by rewrite lookup_empty in Hl.
Qed.

Lemma page_entries_well_formed_witness :
  (∀ l, Some "Polish"%string = Some l → "Polish"%string = l)
  ∧ ∀ name content,
      ({[ "Noun"%string := [IPair "kot" None] ]} : LangEntry) !! name = Some content →
      parsed_heading name ∧ content ≠ [] ∧ NoDup content.
Proof.
  apply (page_entries_well_formed Examples.kot_headlines (Some "Polish"%string) "Polish").
  reflexivity.
Defined.

(** X22. The headlines after one whose language header starts with
    "Navigation" are not read: the page gives the same entries without
    them and without that headline. *)
Theorem page_entries_stops_at_navigation (before after : list Headline)
    (nav : Headline) (language : option string) :
  PyStr.first_chars 10 (hl_lang nav) = "Navigation"%string →
  page_entries (before ++ nav :: after) language = page_entries before language.
Proof.
  intros Hnav. unfold page_entries. generalize (∅ : WordEntry).
  induction before as [|tag before IH]; intros entries; simpl.
  - rewrite Hnav. simpl.
    destruct (String.eqb_spec (hl_lang nav) ""); [|done].
    rewrite e in Hnav. done.
  - destruct (String.eqb (hl_lang tag) ""); [by apply IH|].
    destruct (String.eqb (PyStr.first_chars 10 (hl_lang tag)) "Navigation"); [done|].
    case_bool_decide; [|by apply IH].
    destruct (hl_parent tag) as [[text heading]|]; [|by apply IH].
    destruct (negb _); by apply IH.
Qed.

Lemma page_entries_stops_at_navigation_witness :
  page_entries (Examples.kot_headlines ++ Examples.navigation :: Examples.kot_headlines)
    (Some "Polish"%string)
  = page_entries Examples.kot_headlines (Some "Polish"%string).
Proof.
  apply (page_entries_stops_at_navigation Examples.kot_headlines Examples.kot_headlines
           Examples.navigation (Some "Polish"%string)).
  reflexivity.
Defined.

End PageFacts.

(** ** The forms of a cell, and the recursive morpheme traversal *)

Module EntryFacts.
Import Parser LanguageParser Table Morphemes.

Lemma any_char_rev_app p s acc :
  PyStr.any_char p (String.rev_app s acc) = PyStr.any_char p s || PyStr.any_char p acc.
Proof.
  revert acc. induction s as [|a s IH]; intros acc; simpl; [done|].
  rewrite IH. simpl. by destruct (p a), (PyStr.any_char p s), (PyStr.any_char p acc).
Qed.

Lemma any_char_rev p s : PyStr.any_char p (String.rev s) = PyStr.any_char p s.
Proof. unfold String.rev. rewrite any_char_rev_app. simpl. by rewrite orb_false_r. Qed.

Lemma any_char_drop_prefix p pre s rest :
  PyStr.drop_prefix pre s = Some rest →
  PyStr.any_char p s = false → PyStr.any_char p rest = false.
Proof.
  revert s. induction pre as [|a pre IH]; intros s; simpl.
  - by intros [= ->].
  - destruct s as [|b s]; [done|]. destruct (Ascii.eqb a b); [|done].
    intros Hd [_ Hs]%orb_false_elim. by apply (IH s).
Qed.

Lemma any_char_drop_first p seps s rest :
  PyStr.drop_first seps s = Some rest →
  PyStr.any_char p s = false → PyStr.any_char p rest = false.
Proof.
  induction seps as [|pre seps IH]; simpl; [done|].
  destruct (PyStr.drop_prefix pre s) as [s'|] eqn:Hd; [|done].
  intros [= ->]. by apply (any_char_drop_prefix p pre s).
Qed.

Lemma any_char_lstrip_seps p seps fuel s :
  PyStr.any_char p s = false → PyStr.any_char p (PyStr.lstrip_seps seps fuel s) = false.
Proof.
  revert s. induction fuel as [|fuel IH]; intros s Hs; simpl; [done|].
  destruct (PyStr.drop_first seps s) as [s'|] eqn:Hd; [|done].
  apply IH. by apply (any_char_drop_first p seps s).
Qed.

Lemma any_char_strip p s :
  PyStr.any_char p s = false → PyStr.any_char p (PyStr.strip s) = false.
Proof.
  intros Hs. unfold PyStr.strip, PyStr.lstrip.
  rewrite any_char_rev. apply any_char_lstrip_seps.
  rewrite any_char_rev. by apply any_char_lstrip_seps.
Qed.

Lemma split_on_length p cur s :
  length (PyStr.split_on p cur s)
  = S (length (List.filter p (list_ascii_of_string s))).
Proof.
  revert cur. induction s as [|a s IH]; intros cur; simpl; [done|].
  destruct (p a); simpl; by rewrite IH.
Qed.

Lemma split_on_pieces p cur s :
  PyStr.any_char p cur = false →
  Forall (λ piece, PyStr.any_char p piece = false) (PyStr.split_on p cur s).
Proof.
  revert cur. induction s as [|a s IH]; intros cur Hcur; simpl.
  - constructor; [|constructor]. by rewrite any_char_rev.
  - destruct (p a) eqn:Ha.
    + constructor; [by rewrite any_char_rev|]. by apply IH.
    + apply IH. simpl. by rewrite Ha, Hcur.
Qed.

(** X23. The forms of a cell: a cell without text has none; otherwise the
    text is cut at every comma, slash and newline, so that a text with
    [n] of them gives [n + 1] forms, empty ones included; and no form
    holds one of these characters. *)
Theorem cell_entry_pieces (lang : string) (cell : Tag) :
  (cell_text lang cell = EmptyString → cell_entry lang cell = [])
  ∧ (cell_text lang cell ≠ EmptyString →
     length (cell_entry lang cell)
     = S (length (List.filter is_delimiter
                    (list_ascii_of_string (cell_text lang cell)))))
  ∧ Forall (λ form, PyStr.any_char is_delimiter form = false) (cell_entry lang cell).
Proof.
  unfold cell_entry. split_and!.
  - by intros ->.
  - intros Hne. destruct (cell_text lang cell) as [|a s] eqn:Ht; [done|].
    replace (PyStr.len (String a s) =? 0) with false
      by (symmetry; apply Z.eqb_neq; unfold PyStr.len; simpl; lia).
    cbn [negb]. by rewrite length_map, split_on_length.
  - destruct (negb (PyStr.len (cell_text lang cell) =? 0)); [|constructor].
    apply Forall_forall. intros form (piece & <- & Hin)%list_elem_of_In%in_map_iff.
    apply any_char_strip.
    pose proof (split_on_pieces is_delimiter EmptyString (cell_text lang cell) eq_refl) as Hp.
    rewrite Forall_forall in Hp. apply Hp. by apply list_elem_of_In.
Qed.

Section recursive.
Variable st : Store.
Variable self_language : string.

(** X24. On a two-word etymology cycle (a word that heads its own
    etymology is the case of one word) the recursive traversal never
    returns: whatever depth is allowed, the recursion goes deeper. *)
Theorem recursive_all_word_morphemes_cycle (a b : string) (rest_a rest_b : Content) :
  word_morphemes st a self_language = Some (IStr b :: rest_a) →
  word_morphemes st b self_language = Some (IStr a :: rest_b) →
  ∀ depth,
    recursive_all_word_morphemes st self_language depth a self_language = None.
Proof.
  intros Ha Hb.
  assert (∀ depth,
             recursive_all_word_morphemes st self_language depth a self_language = None
             ∧ recursive_all_word_morphemes st self_language depth b self_language = None)
    as Hboth; [|intros depth; apply Hboth].
  induction depth as [|depth [IHa IHb]]; [done|].
  cbn [recursive_all_word_morphemes]. rewrite Ha, Hb.
  cbn [submorphemes_loop]. by rewrite IHa, IHb.
Qed.
End recursive.

Lemma recursive_all_word_morphemes_cycle_witness :
  recursive_all_word_morphemes Samples.cycle_store "English" 1000 "alpha" "English"
  = None.
Proof.
  apply (recursive_all_word_morphemes_cycle Samples.cycle_store "English"
           "alpha" "beta" [] []); reflexivity.
Defined.

End EntryFacts.

(** ** Tables with a header row and a header column *)

Module HeaderTables.
Import Table SpecWording OrderedSetFacts GridFacts LabelFacts DeclensionFacts Notions Invariants.
Import RegularTables ColumnLabels DeclensionComplete.

Lemma last_elem_of {A} (l : list A) (x : A) : last l = Some x → x ∈ l.
Proof.
  induction l as [|a l IH]; [done|]. destruct l as [|b l].
  - intros [= <-]. left.
  - intros Hlast. right. by apply IH.
Qed.

Lemma last_sorted_max {A} (R : relation A) (l : list A) (x : A) :
  StronglySorted R l → last l = Some x → ∀ y, y ∈ l → y = x ∨ R y x.
Proof.
  induction 1 as [|a l Hs IH Hall]; [done|].
  destruct l as [|b l].
  - intros [= <-] y Hy%list_elem_of_singleton. by left.
  - intros Hlast y Hy. change (last (b :: l) = Some x) in Hlast.
    apply elem_of_cons in Hy as [->|Hy]; [|by apply IH].
    right. rewrite Forall_forall in Hall. apply Hall. by apply last_elem_of.
Qed.

Lemma line_text_label (l : string) : line_text [l] ≠ EmptyString → l ≠ EmptyString.
Proof. intros H ->. by apply H. Qed.

Section header_table.
Variable t : WTable.
Hypothesis Hht : header_table t.

Let lang := language t.
Let d := parse_table t.

Lemma header_table_lookup (k : Z * Z) : d !! k = cell_at t k.
Proof. destruct Hht as [Hreg _]. exact (parse_table_cell_at t Hreg k). Qed.

Lemma header_table_plain (k : Z * Z) cell :
  cell_at t k = Some cell →
  0 <= k.1 ∧ 0 <= k.2
  ∧ cell_rowspan (cell_tag cell) = 1 ∧ cell_colspan (cell_tag cell) = 1.
Proof.
  destruct Hht as [Hreg _]. unfold cell_at. case_decide as Hk; [|done].
  destruct (rows_cells t !! Z.to_nat k.1) as [cells|] eqn:Hcells; [|done]. simpl.
  intros Hc. destruct (regular_row t Hreg _ _ Hcells) as [_ Hp].
  destruct (Hp _ _ Hc) as (? & ? & _). destruct Hk. by split_and!.
Qed.

(** The row scan on such a table: it passes the cells that are no
    headers and collects the label of the first column. *)
Lemma rows_scan_header_row (r c max_row : Z) (row_header : Cell)
    (coords : list (Z * Z)) :
  cell_at t (r, 0) = Some row_header →
  1 <= r → 1 <= max_row →
  StronglySorted (λ a b : Z * Z, b.2 < a.2) coords →
  (∀ k, k ∈ coords → is_Some (d !! k) ∧ k.1 = r ∧ k.2 < c) →
  rows_scan lang d max_row coords [] false
  = if decide ((r, 0) ∈ coords)
    then [cell_text lang (cell_tag row_header)] else [].
Proof.
  intros Hrh Hr Hmax Hs Hk.
  destruct Hht as (_ & _ & Hcells).
  induction Hs as [|k coords Hs IH Hall].
  - cbn [rows_scan]. case_decide as Hnil; [by apply elem_of_nil in Hnil|done].
  - destruct (Hk k ltac:(left)) as ([x Hx] & Hk1 & Hk2).
    cbn [rows_scan]. rewrite Hx. cbv zeta.
    rewrite header_table_lookup in Hx.
    destruct (header_table_plain _ _ Hx) as (_ & H0 & Hrs & _).
    destruct k as [k1 k2]. simpl in *. subst k1.
    destruct (Hcells r k2 x Hx) as (_ & Hcol & Hin).
    destruct (decide (1 <= k2)) as [Hge|Hlt].
    + fold lang in Hin. rewrite (Hin Hr Hge). cbn [negb].
      rewrite IH; [|intros k' Hk'; apply Hk; by right].
      destruct (decide ((r, 0) ∈ coords)) as [Hi|Hi].
      * rewrite decide_True; [done|by right].
      * rewrite decide_False; [done|].
        intros [[= ?]|?]%elem_of_cons; [lia|done].
    + assert (k2 = 0) as -> by lia.
      rewrite Hrh in Hx. injection Hx as <-.
      destruct (Hcol eq_refl Hr) as [Hh Hl%line_text_label].
      fold lang in Hh, Hl. rewrite Hh.
      replace (cell_rowspan (cell_tag row_header) <=? max_row) with true
        by (symmetry; apply Z.leb_le; lia).
      replace (PyStr.len (cell_text lang (cell_tag row_header)) =? 0) with false.
      2:{ symmetry. apply Z.eqb_neq. destruct (cell_text lang (cell_tag row_header));
          [done|]. unfold PyStr.len. simpl. lia. }
      cbn [negb andb].
      rewrite decide_True by left.
      destruct coords as [|k' coords]; [done|]. exfalso.
      apply Forall_cons in Hall as [Hlt' _]. simpl in Hlt'.
      destruct (Hk k' ltac:(right; left)) as ([y Hy] & _ & _).
      rewrite header_table_lookup in Hy.
      destruct (header_table_plain _ _ Hy) as (_ & ? & _). lia.
Qed.

(** The column scan, likewise, collects the label of the first row. *)
Lemma cols_scan_header_col (r c : Z) (col_header : Cell) (coords : list (Z * Z)) :
  cell_at t (0, c) = Some col_header →
  1 <= c →
  StronglySorted (λ a b : Z * Z, b.1 < a.1) coords →
  (∀ k, k ∈ coords → is_Some (d !! k) ∧ k.2 = c ∧ k.1 < r) →
  cols_scan lang d (num_cols t) coords [] false
  = if decide ((0, c) ∈ coords)
    then [cell_text lang (cell_tag col_header)] else [].
Proof.
  intros Hch Hc Hs Hk.
  destruct Hht as (_ & Hm & Hcells).
  induction Hs as [|k coords Hs IH Hall].
  - cbn [cols_scan]. case_decide as Hnil; [by apply elem_of_nil in Hnil|done].
  - destruct (Hk k ltac:(left)) as ([x Hx] & Hk2 & Hk1).
    cbn [cols_scan]. rewrite Hx. cbv zeta.
    rewrite header_table_lookup in Hx.
    destruct (header_table_plain _ _ Hx) as (H0 & _ & _ & Hcs).
    destruct k as [k1 k2]. simpl in *. subst k2.
    destruct (Hcells k1 c x Hx) as (Hrow & _ & Hin).
    destruct (decide (1 <= k1)) as [Hge|Hlt].
    + fold lang in Hin. rewrite (Hin Hge Hc).
      rewrite IH; [|intros k' Hk'; apply Hk; by right].
      destruct (decide ((0, c) ∈ coords)) as [Hi|Hi].
      * rewrite decide_True; [done|by right].
      * rewrite decide_False; [done|].
        intros [[= ?]|?]%elem_of_cons; [lia|done].
    + assert (k1 = 0) as -> by lia.
      rewrite Hch in Hx. injection Hx as <-.
      destruct (Hrow eq_refl Hc) as [Hh Hl%line_text_label].
      fold lang in Hh, Hl. rewrite Hh.
      replace (cell_colspan (cell_tag col_header) <? num_cols t) with true
        by (symmetry; apply Z.ltb_lt; lia).
      replace (PyStr.len (cell_text lang (cell_tag col_header)) =? 0) with false.
      2:{ symmetry. apply Z.eqb_neq. destruct (cell_text lang (cell_tag col_header));
          [done|]. unfold PyStr.len. simpl. lia. }
      cbn [negb andb].
      rewrite decide_True by left.
      destruct coords as [|k' coords]; [done|]. exfalso.
      apply Forall_cons in Hall as [Hlt' _]. simpl in Hlt'.
      destruct (Hk k' ltac:(right; left)) as ([y Hy] & _ & _).
      rewrite header_table_lookup in Hy.
      destruct (header_table_plain _ _ Hy) as (? & _). lia.
Qed.

Lemma header_table_paths (r c : Z) (cell row_header col_header : Cell) :
  1 <= r → 1 <= c →
  cell_at t (r, c) = Some cell →
  cell_at t (r, 0) = Some row_header →
  cell_at t (0, c) = Some col_header →
  cell_rows lang (r, c) d = Some [cell_text lang (cell_tag row_header)]
  ∧ cell_cols lang (num_cols t) (r, c) d = [cell_text lang (cell_tag col_header)].
Proof.
  intros Hr Hc Hcell Hrh Hch. split.
  - unfold cell_rows.
    destruct (last (sorted_coords d)) as [[max_row max_col]|] eqn:Hlast.
    + f_equal.
      destruct (scan_order (r, c) d) as [Hs Hk].
      rewrite (rows_scan_header_row r c max_row row_header); try done.
      * rewrite decide_True; [done|]. apply Hk. simpl.
        rewrite header_table_lookup, Hrh. split_and!; [by eexists|done|lia].
      * assert ((r, 0) ∈ sorted_coords d) as Hin.
        { apply elem_of_sorted_coords. rewrite header_table_lookup, Hrh. by eexists. }
        destruct (last_sorted_max coord_le _ _ (sorted_coords_sorted d) Hlast _ Hin)
          as [[= <- _]|Hle]; [lia|].
        unfold coord_le in Hle. simpl in Hle. lia.
      * intros k Hin. by apply Hk.
    + exfalso. apply last_None in Hlast.
      assert ((r, c) ∈ sorted_coords d) as Hin.
      { apply elem_of_sorted_coords. rewrite header_table_lookup, Hcell. by eexists. }
      rewrite Hlast in Hin. by apply elem_of_nil in Hin.
  - unfold cell_cols.
    destruct (col_scan_order (r, c) d) as [Hs Hk].
    rewrite (cols_scan_header_col r c col_header); try done.
    + rewrite decide_True; [done|]. apply Hk. simpl.
      rewrite header_table_lookup, Hch. split_and!; [by eexists|done|lia].
    + intros k Hin. by apply Hk.
Qed.
End header_table.

(** X26. On a table with a header row and a header column whose cells no
    call of [cell_text] changes, the forms of a content cell are filed
    under the labels of its column and of its row: the declension
    holds them, in a list without duplicates, under the key made of
    the header of the cell's column and, below it, the key made of the
    header of the cell's row. *)
Theorem parse_declension_header_table (t : WTable) (declension : Declension)
    (r c : Z) (cell row_header col_header : Cell) :
  header_table t →
  stable t →
  Live.parse_declension t = Some declension →
  1 <= r → 1 <= c →
  cell_at t (r, c) = Some cell →
  cell_at t (r, 0) = Some row_header →
  cell_at t (0, c) = Some col_header →
  is_content (language t) (cell_tag cell) = true →
  cell_entry (language t) (cell_tag cell) ≠ [] →
  holds_forms declension
    (line_text [cell_text (language t) (cell_tag col_header)])
    (line_text [cell_text (language t) (cell_tag row_header)])
    (cell_entry (language t) (cell_tag cell)).
Proof.
  intros Hht Hstable Hp Hr Hc Hcell Hrh Hch Hcontent Hentry.
  destruct (header_table_paths t Hht r c cell row_header col_header)
    as [Hrows Hcols]; try done.
  pose proof (header_table_lookup t Hht (r, c)) as Hd. rewrite Hcell in Hd.
  destruct (header_table_plain t Hht _ _ Hcell) as (_ & _ & _ & Hcs).
  pose proof Hht as (_ & Hm & Hcells).
  destruct (Hcells _ _ _ Hrh) as (_ & [_ Hrl] & _); [done..|].
  destruct (Hcells _ _ _ Hch) as ([_ Hcl] & _ & _); [done..|].
  pose proof (stable_parse_table t Hstable) as Hgrid.
  assert (stable_cell (cell_tag cell)) as Hsc by (by apply (Hgrid (r, c))).
  assert ((r, c) ∈ sorted_coords (parse_table t)) as Hin.
  { apply elem_of_sorted_coords. by eexists. }
  apply list_elem_of_split in Hin as (before & after & Hsorted).
  destruct (declension_loop_total t (parse_table t) before (∅, ∅)) as [[d0 h] Hbefore].
  { intros k Hk. rewrite Hsorted. apply elem_of_app. by left. }
  unfold Live.parse_declension in Hp.
  destruct (parse_table_error t); [done|].
  destruct (Live.declension_loop t (parse_table t) (∅, ∅)
              (sorted_coords (parse_table t))) as [s'|] eqn:Hloop; [|done].
  injection Hp as <-.
  apply (declension_loop_records t (parse_table t) (r, c) h); try done.
  - by exists before, after, d0.
  - pose proof (cell_rows_stable (language t) (r, c) (parse_table t) h Hgrid) as Hlr.
    rewrite Hrows in Hlr.
    destruct (Live.cell_rows (language t) (r, c) (parse_table t) h)
      as [[path h1]|] eqn:Hlive; [|done].
    injection Hlr as ->.
    pose proof (cell_cols_stable (language t) (num_cols t) (r, c) (parse_table t) h1
                  Hgrid) as Hlc.
    rewrite Hcols in Hlc.
    destruct (Live.cell_cols (language t) (num_cols t) (r, c) (parse_table t) h1)
      as [cols h2] eqn:Hlivec.
    simpl in Hlc. subst cols.
    exists cell, [cell_text (language t) (cell_tag row_header)], h1,
      [cell_text (language t) (cell_tag col_header)], h2.
    rewrite !present_stable by done.
    split_and!; try done; [lia|].
    by apply cell_entry_nonempty_text.
  - by left.
Qed.

Lemma parse_declension_header_table_witness :
  holds_forms Samples.kot_declension "plural" "genitive" ["kotow"%string].
Proof.
  apply (parse_declension_header_table Samples.kot Samples.kot_declension 2 2
           {| cell_ref := (2, 2)%nat; cell_tag := Samples.td "kotow" |}
           {| cell_ref := (2, 0)%nat; cell_tag := Samples.th "Genitive" |}
           {| cell_ref := (0, 2)%nat; cell_tag := Samples.th "Plural" |}).
  - split_and!.
    + repeat (constructor; try done).
    + vm_compute. discriminate.
    + intros r c cell. unfold cell_at. cbn [fst snd]. case_decide as Hk; [|done].
      destruct (Z.to_nat r) as [|[|[|?]]] eqn:Hr;
        destruct (Z.to_nat c) as [|[|[|?]]] eqn:Hc; simpl; try done;
        intros [= <-]; cbv zeta; split_and!; intros; try lia; try reflexivity;
        (split; [reflexivity|vm_compute; discriminate]).
  - repeat (constructor; try done).
  - vm_compute. reflexivity.
  - lia.
  - lia.
  - reflexivity.
  - reflexivity.
  - reflexivity.
  - reflexivity.
  - vm_compute. discriminate.
Defined.

End HeaderTables.
